(** * Verification of the job orchestrator and integrity verifier

    Shallow embedding of the video-generation worker ([server/videoWorker.ts]),
    the ffprobe integrity verifier ([server/videoRenderer.ts]), the cancel
    endpoint ([server/routes.ts]) and the storage layer ([server/storage.ts])
    together with the properties the specification states about them.

    Conventions of the embedding
    - JavaScript numbers that hold measured durations are IEEE-754 doubles
      ([PrimFloat.float]); integer database columns and timestamps
      (milliseconds, as [Date.now()]) are [Z].  The one integer column that
      is written from a double, [jobs.duration_seconds], keeps the double,
      and [updateJob] refuses a value the column does not take.
    - A string that is measured, sliced or trimmed (the texts of a scene,
      the script) is the list of its UTF-16 code units ([Text]), as
      [length], [slice] and [trim] see it; the other strings are only
      compared and concatenated and are [string].
    - Database tables are lists of rows; [UPDATE ... WHERE id = x] maps over
      the rows, [SELECT ... WHERE] filters them.  A statement the database
      refuses (a value that is no integer for an integer column, a row
      whose job does not exist) leaves the store as it was and is thrown to
      the caller as the driver's error.
    - An [async] function is a function from the machine state to an outcome
      (value or thrown exception) and a new machine state.  External services
      are answered by an oracle ([World]) indexed by the number of external
      calls made so far, so that every call may answer differently.
    - [server/videoWorker.ts] is present in two revisions (the later one adds
      ETA estimation and the audio-duration reconciliation); both are embedded,
      selected by a [Revision] argument. *)

From Stdlib Require Import ZArith PrimFloat Uint63 Ascii Sorted.
From stdpp Require Import base list strings pretty.

Open Scope string_scope.
Open Scope Z_scope.
Open Scope list_scope.

(** ** JavaScript values *)

(** What a [throw] carries: an [Error] object with its message, or any other
    value (kept as the text [String(value)] yields). *)
Inductive Thrown : Type :=
  | JsError (message : string)
  | NonError (text : string).

(** [error instanceof Error ? error.message : fallback] *)
Definition messageOr (fallback : string) (e : Thrown) : string :=
  match e with
  | JsError m => m
  | NonError _ => fallback
  end.

(** Template-literal interpolation of a caught value. *)
Definition interpolate (e : Thrown) : string :=
  match e with
  | JsError m => "Error: " +:+ m
  | NonError t => t
  end.

Inductive Outcome (A : Type) : Type :=
  | Ok (a : A)
  | Throw (e : Thrown).
Arguments Ok {A} a.
Arguments Throw {A} e.

Definition is_nan (x : float) : bool := negb (PrimFloat.eqb x x).

(** Truthiness of an optional string property and of an optional number. *)
Definition truthy_str (o : option string) : bool :=
  match o with
  | Some s => negb (String.eqb s "")
  | None => false
  end.

Definition truthy_num (o : option float) : bool :=
  match o with
  | Some x => negb (PrimFloat.eqb x 0%float || is_nan x)
  | None => false
  end.

(** [a || d] on an optional number *)
Definition num_or (o : option float) (d : float) : float :=
  match o with
  | Some x => if truthy_num o then x else d
  | None => d
  end.

(** [a || d] on an optional string *)
Definition str_or (o : option string) (d : string) : string :=
  match o with
  | Some s => if truthy_str o then s else d
  | None => d
  end.

Definition float_of_Z (z : Z) : float :=
  if z <? 0 then PrimFloat.opp (PrimFloat.of_uint63 (Uint63.of_Z (- z)))
  else PrimFloat.of_uint63 (Uint63.of_Z z).

Definition Math_max (a b : float) : float :=
  if is_nan a || is_nan b then PrimFloat.nan
  else if PrimFloat.ltb a b then b else a.

Definition Math_min (a b : float) : float :=
  if is_nan a || is_nan b then PrimFloat.nan
  else if PrimFloat.ltb b a then b else a.

(** *** Strings that are measured

    A JavaScript string is a sequence of UTF-16 code units: [length] counts
    them, [slice] cuts between them, [trim] and [split] look at them one by
    one.  The texts the program treats in this way (the script and the texts
    of a scene) are kept as such sequences; identifiers, URLs and messages,
    which it only compares and concatenates, are kept as [string]. *)
Definition Text : Type := list N.

(** The code units of a text written in ASCII (of another string, its
    bytes, which will do where the text is only hashed). *)
Definition text_of (s : string) : Text :=
  map N_of_ascii (String.list_ascii_of_string s).

(** Truthiness of an optional text, and [a || d] on it. *)
Definition truthy_text (o : option Text) : bool :=
  match o with
  | Some (_ :: _) => true
  | _ => false
  end.

Definition text_or (o : option Text) (d : Text) : Text :=
  match o with
  | Some t => if truthy_text o then t else d
  | None => d
  end.

(** The code units [String.prototype.trim] strips: the WhiteSpace and
    LineTerminator of ECMAScript (tab, line feed, vertical tab, form feed,
    carriage return, space, no-break space, the space separators of
    Unicode, the line and paragraph separators, and the byte order mark). *)
Definition is_space (c : N) : bool :=
  ((9 <=? c) && (c <=? 13) || (c =? 32) || (c =? 160) || (c =? 5760)
   || (8192 <=? c) && (c <=? 8202) || (c =? 8232) || (c =? 8233) || (c =? 8239)
   || (c =? 8287) || (c =? 12288) || (c =? 65279))%N.

(** [text.trim()] is the empty string: every code unit is white space. *)
Definition trim_is_empty (t : Text) : bool := forallb is_space t.

(** ** shared/schema.ts *)

Inductive JobStatus : Type :=
  | queued
  | running
  | generating_script
  | generating_assets
  | rendering_video
  | generating_caption
  | completed
  | failed.

Inductive StepStatus : Type :=
  | step_queued
  | step_running
  | step_completed
  | step_failed.

Record VisualSettings : Type := {
  stylePrompt : option string;
  scenesPerMinute : option Z
}.

Record AudioSettings : Type := { voiceModel : option string }.

Record SubtitleSettings : Type := { enabled : bool }.

Record JobSettings : Type := {
  settings_contentType : string;
  contentConfig : option string;
  targetDurationSeconds : option Z;
  targetPlatform : option string;
  visual : option VisualSettings;
  audio : option AudioSettings;
  subtitles : option SubtitleSettings
}.

(** A scene of the script; the renderer also reads [audioDurationSeconds]. *)
Module Scene.
Record t : Type := mk {
  id : string;
  index : Z;
  startTime : float;
  endTime : float;
  textOverlay : option Text;
  voiceSegmentText : option Text;
  backgroundPrompt : option string;
  backgroundAssetUrl : option string;
  audioAssetUrl : option string;
  audioDurationSeconds : option float
}.

Inductive Assign : Type :=
  | Set_id (v : string)
  | Set_index (v : Z)
  | Set_startTime (v : float)
  | Set_endTime (v : float)
  | Set_textOverlay (v : option Text)
  | Set_voiceSegmentText (v : option Text)
  | Set_backgroundPrompt (v : option string)
  | Set_backgroundAssetUrl (v : option string)
  | Set_audioAssetUrl (v : option string)
  | Set_audioDurationSeconds (v : option float).

Definition assign (a : Assign) (r : t) : t :=
  {| id := match a with Set_id v => v | _ => r.(id) end;
     index := match a with Set_index v => v | _ => r.(index) end;
     startTime := match a with Set_startTime v => v | _ => r.(startTime) end;
     endTime := match a with Set_endTime v => v | _ => r.(endTime) end;
     textOverlay := match a with Set_textOverlay v => v | _ => r.(textOverlay) end;
     voiceSegmentText := match a with Set_voiceSegmentText v => v | _ => r.(voiceSegmentText) end;
     backgroundPrompt := match a with Set_backgroundPrompt v => v | _ => r.(backgroundPrompt) end;
     backgroundAssetUrl := match a with Set_backgroundAssetUrl v => v | _ => r.(backgroundAssetUrl) end;
     audioAssetUrl := match a with Set_audioAssetUrl v => v | _ => r.(audioAssetUrl) end;
     audioDurationSeconds := match a with Set_audioDurationSeconds v => v | _ => r.(audioDurationSeconds) end |}.
End Scene.

(** Row of the [jobs] table; [Assign] is one [column = value] of an
    [UPDATE ... SET], so that a [Partial<Job>] is a list of them.
    [durationSeconds], an integer column that is written from a double, holds
    the double; [updateJob] stores none but whole numbers of 32 bits. *)
Module Job.
Record t : Type := mk {
  id : string;
  title : string;
  status : JobStatus;
  contentType : string;
  settings : JobSettings;
  scriptText : option string;
  scenes : option (list Scene.t);
  caption : option string;
  hashtags : option (list string);
  videoUrl : option string;
  audioUrl : option string;
  subtitlesUrl : option string;
  thumbnailUrl : option string;
  durationSeconds : option float;
  progressPercent : Z;
  etaSeconds : option Z;
  errorMessage : option string;
  lockedBy : option string;
  lockedAt : option Z;
  leaseExpiresAt : option Z;
  lastProgressAt : option Z;
  cancelRequested : option bool;
  createdAt : Z;
  updatedAt : Z
}.

Inductive Assign : Type :=
  | Set_id (v : string)
  | Set_title (v : string)
  | Set_status (v : JobStatus)
  | Set_contentType (v : string)
  | Set_settings (v : JobSettings)
  | Set_scriptText (v : option string)
  | Set_scenes (v : option (list Scene.t))
  | Set_caption (v : option string)
  | Set_hashtags (v : option (list string))
  | Set_videoUrl (v : option string)
  | Set_audioUrl (v : option string)
  | Set_subtitlesUrl (v : option string)
  | Set_thumbnailUrl (v : option string)
  | Set_durationSeconds (v : option float)
  | Set_progressPercent (v : Z)
  | Set_etaSeconds (v : option Z)
  | Set_errorMessage (v : option string)
  | Set_lockedBy (v : option string)
  | Set_lockedAt (v : option Z)
  | Set_leaseExpiresAt (v : option Z)
  | Set_lastProgressAt (v : option Z)
  | Set_cancelRequested (v : option bool)
  | Set_createdAt (v : Z)
  | Set_updatedAt (v : Z).

Definition assign (a : Assign) (r : t) : t :=
  {| id := match a with Set_id v => v | _ => r.(id) end;
     title := match a with Set_title v => v | _ => r.(title) end;
     status := match a with Set_status v => v | _ => r.(status) end;
     contentType := match a with Set_contentType v => v | _ => r.(contentType) end;
     settings := match a with Set_settings v => v | _ => r.(settings) end;
     scriptText := match a with Set_scriptText v => v | _ => r.(scriptText) end;
     scenes := match a with Set_scenes v => v | _ => r.(scenes) end;
     caption := match a with Set_caption v => v | _ => r.(caption) end;
     hashtags := match a with Set_hashtags v => v | _ => r.(hashtags) end;
     videoUrl := match a with Set_videoUrl v => v | _ => r.(videoUrl) end;
     audioUrl := match a with Set_audioUrl v => v | _ => r.(audioUrl) end;
     subtitlesUrl := match a with Set_subtitlesUrl v => v | _ => r.(subtitlesUrl) end;
     thumbnailUrl := match a with Set_thumbnailUrl v => v | _ => r.(thumbnailUrl) end;
     durationSeconds := match a with Set_durationSeconds v => v | _ => r.(durationSeconds) end;
     progressPercent := match a with Set_progressPercent v => v | _ => r.(progressPercent) end;
     etaSeconds := match a with Set_etaSeconds v => v | _ => r.(etaSeconds) end;
     errorMessage := match a with Set_errorMessage v => v | _ => r.(errorMessage) end;
     lockedBy := match a with Set_lockedBy v => v | _ => r.(lockedBy) end;
     lockedAt := match a with Set_lockedAt v => v | _ => r.(lockedAt) end;
     leaseExpiresAt := match a with Set_leaseExpiresAt v => v | _ => r.(leaseExpiresAt) end;
     lastProgressAt := match a with Set_lastProgressAt v => v | _ => r.(lastProgressAt) end;
     cancelRequested := match a with Set_cancelRequested v => v | _ => r.(cancelRequested) end;
     createdAt := match a with Set_createdAt v => v | _ => r.(createdAt) end;
     updatedAt := match a with Set_updatedAt v => v | _ => r.(updatedAt) end |}.
End Job.

(** Row of the [job_steps] table. *)
Module JobStep.
Record t : Type := mk {
  id : string;
  jobId : string;
  stepType : string;
  status : StepStatus;
  message : option string;
  startedAt : option Z;
  finishedAt : option Z;
  etaSeconds : option Z;
  durationMs : option Z
}.

Inductive Assign : Type :=
  | Set_id (v : string)
  | Set_jobId (v : string)
  | Set_stepType (v : string)
  | Set_status (v : StepStatus)
  | Set_message (v : option string)
  | Set_startedAt (v : option Z)
  | Set_finishedAt (v : option Z)
  | Set_etaSeconds (v : option Z)
  | Set_durationMs (v : option Z).

Definition assign (a : Assign) (r : t) : t :=
  {| id := match a with Set_id v => v | _ => r.(id) end;
     jobId := match a with Set_jobId v => v | _ => r.(jobId) end;
     stepType := match a with Set_stepType v => v | _ => r.(stepType) end;
     status := match a with Set_status v => v | _ => r.(status) end;
     message := match a with Set_message v => v | _ => r.(message) end;
     startedAt := match a with Set_startedAt v => v | _ => r.(startedAt) end;
     finishedAt := match a with Set_finishedAt v => v | _ => r.(finishedAt) end;
     etaSeconds := match a with Set_etaSeconds v => v | _ => r.(etaSeconds) end;
     durationMs := match a with Set_durationMs v => v | _ => r.(durationMs) end |}.
End JobStep.

(** Row of the [assets] table.  The [metadata] column holds one of the four
    shapes the worker writes. *)
Inductive AssetMetadata : Type :=
  | MetaImage (sceneIndex : nat) (prompt hash : string)
  | MetaAudio (sceneIndex : nat) (voice hash : string)
  | MetaVideo (duration : float)
  | MetaThumbnail.

Record Asset : Type := {
  asset_id : string;
  asset_jobId : string;
  assetType : string;
  url : string;
  metadata : AssetMetadata;
  asset_createdAt : Z
}.

Record InsertAsset : Type := {
  ins_jobId : string;
  ins_assetType : string;
  ins_url : string;
  ins_metadata : AssetMetadata
}.

(** Row of the [settings] table as the worker uses it: the rolling average of
    a step's duration, [{ avgMs, count }]. *)
Record StepAverage : Type := { avgMs : float; count : float }.

Record Setting : Type := {
  key : string;
  value : StepAverage;
  setting_updatedAt : Z
}.

Record JobWithSteps : Type := {
  row : Job.t;
  steps : list JobStep.t;
  job_assets : list Asset
}.

(** ** server/storage.ts *)

(** The database: its four tables and the number of rows inserted so far,
    from which [gen_random_uuid()] draws the next primary key. *)
Record Store : Type := {
  jobs : list Job.t;
  jobSteps : list JobStep.t;
  assets : list Asset;
  settings : list Setting;
  inserted : nat
}.

Definition with_jobs (js : list Job.t) (db : Store) : Store :=
  {| jobs := js; jobSteps := db.(jobSteps); assets := db.(assets);
     settings := db.(settings); inserted := db.(inserted) |}.

Definition with_jobSteps (ss : list JobStep.t) (db : Store) : Store :=
  {| jobs := db.(jobs); jobSteps := ss; assets := db.(assets);
     settings := db.(settings); inserted := db.(inserted) |}.

Definition with_settings (ss : list Setting) (db : Store) : Store :=
  {| jobs := db.(jobs); jobSteps := db.(jobSteps); assets := db.(assets);
     settings := ss; inserted := db.(inserted) |}.

(** Why the database refuses a statement: a value bound to an [integer]
    column is not a whole number of 32 bits, or a row names a job that the
    [jobs] table does not hold ([references(() => jobs.id)]). *)
Inductive Rejection : Type :=
  | InvalidInteger (value : float)
  | ForeignKeyViolation (table jobId : string).

(** What a statement that writes yields: the store it leaves, or the refusal,
    which leaves the store as it was. *)
Inductive Written : Type :=
  | Stored (db : Store)
  | Refused (why : Rejection).

Module DatabaseStorage.

Definition getJobSteps (jobId : string) (db : Store) : list JobStep.t :=
  filter (fun s => s.(JobStep.jobId) = jobId) db.(jobSteps).

Definition getAssets (jobId : string) (db : Store) : list Asset :=
  filter (fun a => a.(asset_jobId) = jobId) db.(assets).

Definition getJob (id : string) (db : Store) : option JobWithSteps :=
  match filter (fun j => j.(Job.id) = id) db.(jobs) with
  | [] => None
  | j :: _ =>
      Some {| row := j; steps := getJobSteps id db; job_assets := getAssets id db |}
  end.

(** [.set({ ...updates, updatedAt: new Date() }).where(eq(jobs.id, id))] *)
Definition applyJobUpdates (updates : list Job.Assign) (now : Z) (j : Job.t) : Job.t :=
  foldl (fun r a => Job.assign a r) j (updates ++ [Job.Set_updatedAt now]).

(** The values an [integer] column takes: the whole numbers from [-2^31] to
    [2^31 - 1].  (Adding and subtracting [2^52] rounds a double of that range
    to a whole number.) *)
Definition fits_integer (x : float) : bool :=
  PrimFloat.leb (PrimFloat.opp 2147483648%float) x
  && PrimFloat.leb x 2147483647%float
  && PrimFloat.eqb
       (PrimFloat.sub (PrimFloat.add (PrimFloat.abs x) 4503599627370496%float)
                      4503599627370496%float)
       (PrimFloat.abs x).

(** [durationSeconds] is the one column of [jobs] that is declared [integer]
    and written from a JavaScript number that may have a fraction. *)
Definition misfit (a : Job.Assign) : option float :=
  match a with
  | Job.Set_durationSeconds (Some d) => if fits_integer d then None else Some d
  | _ => None
  end.

(** The rows once the database has taken the values. *)
Definition updatedJobs (id : string) (updates : list Job.Assign) (now : Z)
    (db : Store) : Store :=
  with_jobs
    (map (fun j => if bool_decide (j.(Job.id) = id)
                   then applyJobUpdates updates now j else j) db.(jobs))
    db.

Definition updateJob (id : string) (updates : list Job.Assign) (now : Z)
    (db : Store) : Written :=
  match head (omap misfit updates) with
  | Some value => Refused (InvalidInteger value)
  | None => Stored (updatedJobs id updates now db)
  end.

(** The store with the new step as its last row. *)
Definition insertedJobStep (uuid : nat -> string) (jobId stepType : string)
    (status : StepStatus) (db : Store) : Store :=
  {| jobs := db.(jobs);
     jobSteps := db.(jobSteps) ++
       [ {| JobStep.id := uuid db.(inserted); JobStep.jobId := jobId;
            JobStep.stepType := stepType; JobStep.status := status;
            JobStep.message := None; JobStep.startedAt := None;
            JobStep.finishedAt := None; JobStep.etaSeconds := None;
            JobStep.durationMs := None |} ];
     assets := db.(assets);
     settings := db.(settings);
     inserted := S db.(inserted) |}.

Definition createJobStep (uuid : nat -> string) (jobId stepType : string)
    (status : StepStatus) (db : Store) : Written :=
  match filter (fun j => j.(Job.id) = jobId) db.(jobs) with
  | [] => Refused (ForeignKeyViolation "job_steps" jobId)
  | _ :: _ => Stored (insertedJobStep uuid jobId stepType status db)
  end.

(** [.set(updates).where(eq(jobSteps.id, id))] *)
Definition updateJobStep (id : string) (updates : list JobStep.Assign)
    (db : Store) : Store :=
  with_jobSteps
    (map (fun s => if bool_decide (s.(JobStep.id) = id)
                   then foldl (fun r a => JobStep.assign a r) s updates else s)
         db.(jobSteps))
    db.

(** The store with the new asset as its last row. *)
Definition insertedAsset (uuid : nat -> string) (a : InsertAsset) (now : Z)
    (db : Store) : Store :=
  {| jobs := db.(jobs);
     jobSteps := db.(jobSteps);
     assets := db.(assets) ++
       [ {| asset_id := uuid db.(inserted); asset_jobId := a.(ins_jobId);
            assetType := a.(ins_assetType); url := a.(ins_url);
            metadata := a.(ins_metadata); asset_createdAt := now |} ];
     settings := db.(settings);
     inserted := S db.(inserted) |}.

Definition createAsset (uuid : nat -> string) (a : InsertAsset) (now : Z)
    (db : Store) : Written :=
  match filter (fun j => j.(Job.id) = a.(ins_jobId)) db.(jobs) with
  | [] => Refused (ForeignKeyViolation "assets" a.(ins_jobId))
  | _ :: _ => Stored (insertedAsset uuid a now db)
  end.

Definition getSetting (k : string) (db : Store) : option Setting :=
  head (filter (fun s => s.(key) = k) db.(settings)).

Definition setSetting (k : string) (v : StepAverage) (now : Z) (db : Store) : Store :=
  match getSetting k db with
  | Some _ =>
      with_settings
        (map (fun s => if bool_decide (s.(key) = k)
                       then {| key := s.(key); value := v; setting_updatedAt := now |}
                       else s) db.(settings))
        db
  | None =>
      with_settings
        (db.(settings) ++ [ {| key := k; value := v; setting_updatedAt := now |} ])
        db
  end.

(** *** Lease manager

    The storage source at hand stops at [setSetting]; the worker calls five
    further methods of [storage].  They are modelled below from the
    specification (section 4.2 and the data model). *)

(** The lease recorded on a job has expired at time [now]. *)
Definition leaseExpired (j : Job.t) (now : Z) : bool :=
  match j.(Job.leaseExpiresAt) with
  | Some e => e <? now
  | None => false
  end.

(** No lease exists on the job, or the recorded one has expired. *)
Definition leaseFree (j : Job.t) (now : Z) : bool :=
  match j.(Job.lockedBy) with
  | None => true
  | Some _ => leaseExpired j now
  end.

(** Lease durations are given in seconds, timestamps are in milliseconds. *)
Definition seconds (s : Z) : Z := 1000 * s.

Definition setLease (ownerId : string) (now ttl : Z) (j : Job.t) : Job.t :=
  Job.assign (Job.Set_leaseExpiresAt (Some (now + seconds ttl)))
    (Job.assign (Job.Set_lockedAt (Some now))
       (Job.assign (Job.Set_lockedBy (Some ownerId)) j)).

(** Modelled from the spec: [acquireJobLock] is missing from the storage
    source.  "[acquire(jobId, ownerId, ttl) -> bool] succeeds only if no lease
    exists or the existing lease has expired; it atomically sets [lockedBy],
    [lockedAt], [leaseExpiresAt = now+ttl]."  One call is one atomic
    transition of the store. *)
Definition acquireJobLock (jobId ownerId : string) (ttl now : Z)
    (db : Store) : bool * Store :=
  match filter (fun j => j.(Job.id) = jobId) db.(jobs) with
  | [] => (false, db)
  | j :: _ =>
      if leaseFree j now
      then (true,
            with_jobs
              (map (fun r => if bool_decide (r.(Job.id) = jobId)
                             then setLease ownerId now ttl r else r) db.(jobs))
              db)
      else (false, db)
  end.

(** Modelled from the spec: [renewJobLease] is missing from the storage
    source.  "[renew(jobId, ownerId, ttl) -> bool] succeeds only if the caller
    is still the recorded owner." *)
Definition renewJobLease (jobId ownerId : string) (ttl now : Z)
    (db : Store) : bool * Store :=
  match filter (fun j => j.(Job.id) = jobId) db.(jobs) with
  | [] => (false, db)
  | j :: _ =>
      if bool_decide (j.(Job.lockedBy) = Some ownerId)
      then (true,
            with_jobs
              (map (fun r => if bool_decide (r.(Job.id) = jobId)
                             then Job.assign
                                    (Job.Set_leaseExpiresAt (Some (now + seconds ttl))) r
                             else r) db.(jobs))
              db)
      else (false, db)
  end.

(** Modelled from the spec: [releaseJobLock] is missing from the storage
    source.  "[release(jobId, ownerId)] clears the lease unconditionally ...
    and is therefore idempotent and must never raise." *)
Definition releaseJobLock (jobId ownerId : string) (db : Store) : Store :=
  with_jobs
    (map (fun r => if bool_decide (r.(Job.id) = jobId)
                   then Job.assign (Job.Set_leaseExpiresAt None)
                          (Job.assign (Job.Set_lockedAt None)
                             (Job.assign (Job.Set_lockedBy None) r))
                   else r) db.(jobs))
    db.

(** Modelled from the spec: [updateLastProgress] is missing from the storage
    source.  "[lastProgressAt] (last time any forward progress was
    recorded)". *)
Definition updateLastProgress (jobId : string) (now : Z) (db : Store) : Store :=
  with_jobs
    (map (fun r => if bool_decide (r.(Job.id) = jobId)
                   then Job.assign (Job.Set_lastProgressAt (Some now)) r
                   else r) db.(jobs))
    db.

(** Modelled from the spec: [getAssetByPath] is missing from the storage
    source.  "look up an existing Asset with that hash/path". *)
Definition getAssetByPath (jobId path : string) (db : Store) : option Asset :=
  head (filter (fun a => a.(url) = path) (getAssets jobId db)).

End DatabaseStorage.

(** ** server/routes.ts: [POST /api/jobs/:id/cancel] *)

(** The handler answers with a status code and leaves the store as the
    second component; an error of the storage layer is answered 500. *)
Definition cancelJob (id : string) (now : Z) (db : Store) : Z * Store :=
  match DatabaseStorage.getJob id db with
  | None => (404, db)
  | Some j =>
      match j.(row).(Job.status) with
      | completed | failed => (400, db)
      | _ =>
          match DatabaseStorage.updateJob id [Job.Set_cancelRequested (Some true)] now db with
          | Stored db' => (200, db')
          | Refused _ => (500, db)
          end
      end
  end.

(** ** server/videoRenderer.ts: the integrity verifier *)

Record IntegrityCheck : Type := {
  valid : bool;
  error : option string;
  ic_duration : option float;
  hasAudio : option bool;
  width : option Z;
  height : option Z
}.

Definition invalid (msg : string) : IntegrityCheck :=
  {| valid := false; error := Some msg; ic_duration := None; hasAudio := None;
     width := None; height := None |}.

(** One entry of [data.streams] in the ffprobe report. *)
Record ProbeStream : Type := {
  codec_type : string;
  stream_width : option Z;
  stream_height : option Z
}.

(** What [JSON.parse(stdout)] yields: [format_duration] is the number
    [parseFloat(data.format?.duration || '0')] evaluates to, [streams] is
    [data.streams || []]. *)
Record ProbeData : Type := {
  format_duration : float;
  streams : list ProbeStream
}.

(** How the ffprobe child process ends.  [stderr] is [stderr.slice(0, 200)],
    the part of the error output the verifier reads. *)
Inductive ProbeRun : Type :=
  | ProbeSpawnError (msg : string)
  | ProbeClosed (code : Z) (stderr : string) (stdout : option ProbeData).

(** [fs.stat(videoPath)]: the size in bytes, or a rejection. *)
Inductive StatResult : Type :=
  | StatSize (size : Z)
  | StatRejected.

Definition checkVideoIntegrity (run : ProbeRun) (stat : StatResult) : IntegrityCheck :=
  match run with
  | ProbeSpawnError msg => invalid ("ffprobe error: " +:+ msg)
  | ProbeClosed code stderr stdout =>
      if negb (code =? 0)
      then invalid ("ffprobe failed: " +:+ stderr)
      else
        match stdout with
        | None => invalid "Failed to parse ffprobe output"
        | Some data =>
            let duration := data.(format_duration) in
            let hasAudio :=
              existsb (fun s => String.eqb s.(codec_type) "audio") data.(streams) in
            let videoStream :=
              find (fun s => String.eqb s.(codec_type) "video") data.(streams) in
            if PrimFloat.leb duration 0%float
            then invalid "No duration detected"
            else
              match stat with
              | StatRejected => invalid "Cannot stat file"
              | StatSize size =>
                  if size <? 10000
                  then invalid "File too small"
                  else
                    {| valid := true;
                       error := None;
                       ic_duration := Some duration;
                       hasAudio := Some hasAudio;
                       width := videoStream ≫= stream_width;
                       height := videoStream ≫= stream_height |}
              end
        end
  end.

(** ** The worker's machine *)

(** The external collaborators of the worker. *)
Inductive Service : Type :=
  | Svc_generateScript
  | Svc_generateImagePrompt
  | Svc_generateImage
  | Svc_uploadBuffer (mimeType : string)
  | Svc_generateSpeech
  | Svc_downloadObject
  | Svc_ffprobe
  | Svc_setTimeout
  | Svc_renderVideo
  | Svc_generateCaptionAndHashtags.

(** What the worker is seen doing: polling the cancellation flag, entering a
    stage function, awaiting an external service (the [t]-th such call of the
    machine), and writing to the job record. *)
Inductive Event : Type :=
  | EvPoll (cancelled : bool)
  | EvStage (stepType : string)
  | EvCall (t : nat) (svc : Service)
  | EvUpdateJob (jobId : string) (updates : list Job.Assign).

(** [context], the object the stage closures of one [processJob] share. *)
Record JobContext : Type := {
  script : option string;
  scenes : option (list Scene.t)
}.

Record Machine : Type := {
  db : Store;
  calls : nat;
  trace : list Event;
  context : JobContext
}.

(** What [renderVideo] leaves behind once every ffmpeg invocation has exited
    with code 0 and the uploads went through: the two URLs, and what ffprobe
    and [fs.stat] report on the final file. *)
Record RenderIO : Type := {
  out_videoUrl : string;
  out_thumbnailUrl : string;
  out_probe : ProbeRun;
  out_stat : StatResult
}.

(** The environment.  Every reply is indexed by the number of external calls
    the machine has made before it. *)
Record World : Type := {
  WORKER_ID : string;
  clock : nat -> Z;
  uuid : nat -> string;
  md5hex8 : Text -> string;
  (** the message of the error the database driver raises on a refusal *)
  databaseError : Rejection -> string;
  (** the id a client posts to the cancel endpoint while call [t] is pending *)
  cancelPosted : nat -> option string;
  scriptReply : nat -> Outcome (string * list Scene.t);
  imagePromptReply : nat -> Outcome string;
  imageReply : nat -> Outcome string;
  uploadReply : nat -> Outcome string;
  speechReply : nat -> Outcome string;
  downloadReply : nat -> Outcome unit;
  ffprobeReply : nat -> Outcome float;
  renderReply : nat -> Outcome RenderIO;
  captionReply : nat -> Outcome (string * list string)
}.

Definition Async (A : Type) : Type := Machine -> Outcome A * Machine.

Definition ret {A} (a : A) : Async A := fun m => (Ok a, m).

Definition bind {A B} (c : Async A) (k : A -> Async B) : Async B :=
  fun m =>
    match c m with
    | (Ok a, m') => k a m'
    | (Throw e, m') => (Throw e, m')
    end.

Definition throw {A} (e : Thrown) : Async A := fun m => (Throw e, m).

(** [try { c } catch (e) { handler e }] *)
Definition try_catch {A} (c : Async A) (handler : Thrown -> Async A) : Async A :=
  fun m =>
    match c m with
    | (Ok a, m') => (Ok a, m')
    | (Throw e, m') => handler e m'
    end.

(** [try { c } finally { cleanup }] *)
Definition try_finally {A} (c : Async A) (cleanup : Async unit) : Async A :=
  fun m =>
    match c m with
    | (r, m') =>
        match cleanup m' with
        | (Ok _, m'') => (r, m'')
        | (Throw e, m'') => (Throw e, m'')
        end
    end.

Declare Scope async_scope.
Delimit Scope async_scope with async.
Bind Scope async_scope with Async.
Notation "x <- c ;; k" := (bind c (fun x => k))
  (at level 100, c at next level, k at level 200, right associativity) : async_scope.
Notation "c ;; k" := (bind c (fun _ => k))
  (at level 100, k at level 200, right associativity) : async_scope.
Open Scope async_scope.

(** [for (let i = from; i < from + count; i++) body], threading the variables
    the body assigns. *)
Fixpoint for_loop {St} (count from : nat) (body : nat -> St -> Async St) (s : St)
    : Async St :=
  match count with
  | O => ret s
  | S count' => s' <- body from s ;; for_loop count' (S from) body s'
  end.

(** [for (const a of l) body] *)
Fixpoint for_each {A} (l : list A) (body : A -> Async unit) : Async unit :=
  match l with
  | [] => ret tt
  | a :: l' => body a ;; for_each l' body
  end.

Definition log (ev : Event) : Async unit :=
  fun m => (Ok tt, {| db := m.(db); calls := m.(calls);
                      trace := m.(trace) ++ [ev]; context := m.(context) |}).

Definition getContext : Async JobContext := fun m => (Ok m.(context), m).

Definition setContext (c : JobContext) : Async unit :=
  fun m => (Ok tt, {| db := m.(db); calls := m.(calls); trace := m.(trace);
                      context := c |}).

Definition setContextScenes (ss : list Scene.t) : Async unit :=
  c <- getContext ;; setContext {| script := c.(script); scenes := Some ss |}.

Definition readDb {A} (f : Store -> A) : Async A := fun m => (Ok (f m.(db)), m).

Definition writeDb (f : Store -> Store) : Async unit :=
  fun m => (Ok tt, {| db := f m.(db); calls := m.(calls); trace := m.(trace);
                      context := m.(context) |}).

(** The two revisions of [server/videoWorker.ts]. *)
Inductive Revision : Type :=
  | Rev1
  | Rev2.

Record StepWeights : Type := {
  w_script : Z;
  w_assets_visual : Z;
  w_assets_audio : Z;
  w_video : Z;
  w_caption : Z
}.

(** [Math.round(num / den)] for integers [num] and [den > 0]: the quotient is
    rounded to the nearest integer, halves upwards.  The worker computes its
    progress [base + (weight * (i + 1)) / n] in doubles; [n] is the length of
    an array (below 2^32) and the other operands are at most 100, so the
    double lies on the same side of every half-integer as the exact quotient
    [(base * n + weight * (i + 1)) / n], and rounding it gives the value
    defined here. *)
Definition Math_round_ratio (num den : Z) : Z := (2 * num + den) / (2 * den).

Section Worker.

Variable w : World.

(** [Date.now()] and [new Date()] *)
Definition Date_now : Async Z := fun m => (Ok (w.(clock) m.(calls)), m).

(** Awaiting an external service.  While the call is pending the rest of the
    server keeps running: a client may post to the cancel endpoint. *)
Definition external {A} (svc : Service) (reply : nat -> Outcome A) : Async A :=
  fun m =>
    let t := m.(calls) in
    let db' :=
      match w.(cancelPosted) t with
      | Some id => (cancelJob id (w.(clock) (S t)) m.(db)).2
      | None => m.(db)
      end in
    (reply t, {| db := db'; calls := S t; trace := m.(trace) ++ [EvCall t svc];
                 context := m.(context) |}).

(** *** The [storage] object as the worker awaits it *)

Definition storage_getJob (id : string) : Async (option JobWithSteps) :=
  readDb (DatabaseStorage.getJob id).

(** Awaiting a statement that writes: a refusal is thrown as the driver's
    error, the store being as it was. *)
Definition awaitWrite (statement : Store -> Written) : Async unit :=
  fun m =>
    match statement m.(db) with
    | Stored db' => (Ok tt, {| db := db'; calls := m.(calls); trace := m.(trace);
                               context := m.(context) |})
    | Refused why => (Throw (JsError (w.(databaseError) why)), m)
    end.

Definition storage_updateJob (id : string) (updates : list Job.Assign) : Async unit :=
  now <- Date_now ;;
  awaitWrite (DatabaseStorage.updateJob id updates now) ;;
  log (EvUpdateJob id updates).

Definition storage_updateLastProgress (id : string) : Async unit :=
  now <- Date_now ;; writeDb (DatabaseStorage.updateLastProgress id now).

Definition storage_updateJobStep (id : string) (updates : list JobStep.Assign)
    : Async unit :=
  writeDb (DatabaseStorage.updateJobStep id updates).

Definition storage_createAsset (a : InsertAsset) : Async unit :=
  now <- Date_now ;; awaitWrite (DatabaseStorage.createAsset w.(uuid) a now).

Definition storage_getAssetByPath (jobId path : string) : Async (option Asset) :=
  readDb (DatabaseStorage.getAssetByPath jobId path).

Definition storage_getSetting (k : string) : Async (option Setting) :=
  readDb (DatabaseStorage.getSetting k).

Definition storage_setSetting (k : string) (v : StepAverage) : Async unit :=
  now <- Date_now ;; writeDb (DatabaseStorage.setSetting k v now).

Definition storage_acquireJobLock (jobId ownerId : string) (ttl : Z) : Async bool :=
  fun m =>
    let r := DatabaseStorage.acquireJobLock jobId ownerId ttl (w.(clock) m.(calls)) m.(db) in
    (Ok r.1, {| db := r.2; calls := m.(calls); trace := m.(trace);
                context := m.(context) |}).

Definition storage_releaseJobLock (jobId ownerId : string) : Async unit :=
  writeDb (DatabaseStorage.releaseJobLock jobId ownerId).

(** *** server/videoRenderer.ts as the worker awaits it *)

(** One ffprobe run of [getAudioDuration]: the promise resolves with the
    parsed duration when it is positive and rejects otherwise. *)
Definition probeDurationOnce : Async float :=
  dur <- external Svc_ffprobe w.(ffprobeReply) ;;
  if PrimFloat.ltb 0%float dur then ret dur
  else throw (JsError "Invalid duration: 0 or negative").

(** [for (let attempt = attempt; attempt <= retries; attempt++)] with
    [remaining] iterations left. *)
Fixpoint getAudioDuration_from (remaining : nat) (attempt retries : nat)
    : Async float :=
  match remaining with
  | O => throw (JsError "Audio duration detection failed")
  | S remaining' =>
      try_catch probeDurationOnce
        (fun err =>
           if bool_decide (attempt = retries)
           then throw (JsError ("Failed to detect audio duration after "
                                +:+ pretty retries +:+ " attempts: "
                                +:+ interpolate err))
           else
             external Svc_setTimeout (fun _ => Ok tt) ;;
             getAudioDuration_from remaining' (S attempt) retries)
  end.

Definition getAudioDuration (retries : nat) : Async float :=
  getAudioDuration_from retries 1 retries.

Record RenderResult : Type := {
  videoUrl : string;
  thumbnailUrl : string;
  durationSeconds : float;
  integrityCheck : IntegrityCheck
}.

(** [scenes.map(scene => scene.audioDurationSeconds || 5)] *)
Definition sceneDurations (ss : list Scene.t) : list float :=
  map (fun scene => num_or scene.(Scene.audioDurationSeconds) 5%float) ss.

(** [sceneDurations.reduce((sum, d) => sum + d, 0)] *)
Definition totalDuration (ss : list Scene.t) : float :=
  foldl PrimFloat.add 0%float (sceneDurations ss).

(** [renderVideo]: the downloads, the ffmpeg pipeline and the uploads are one
    external call, which throws when any of them fails; the result is then
    assembled as the source does, the integrity check being run on the
    final file. *)
Definition renderVideo (ss : list Scene.t) : Async RenderResult :=
  io <- external Svc_renderVideo w.(renderReply) ;;
  ret {| videoUrl := io.(out_videoUrl);
         thumbnailUrl := io.(out_thumbnailUrl);
         durationSeconds := totalDuration ss;
         integrityCheck := checkVideoIntegrity io.(out_probe) io.(out_stat) |}.

(** ** server/videoWorker.ts *)

Variable rev : Revision.

Definition LEASE_SECONDS : Z := 120.

Definition STEP_WEIGHTS : StepWeights :=
  match rev with
  | Rev1 => {| w_script := 15; w_assets_visual := 35; w_assets_audio := 20;
               w_video := 25; w_caption := 5 |}
  | Rev2 => {| w_script := 10; w_assets_visual := 30; w_assets_audio := 15;
               w_video := 40; w_caption := 5 |}
  end.

(** The [etaSeconds] property of an update, which only the later revision
    writes. *)
Definition etaField (eta : option Z) : list Job.Assign :=
  match rev with
  | Rev1 => []
  | Rev2 => [Job.Set_etaSeconds eta]
  end.

(** [calculateETA(startTime, progressPercent)] for the progress
    [num / den] (with [den > 0]).  [elapsed < 0.1] seconds is
    [now - startTime < 100] milliseconds, and
    [remaining / rate = (100 - progress) * elapsed / progress].  The
    quotient is taken exactly here.  The source takes it in doubles, in
    three rounded steps ([elapsed], [rate], [remaining / rate]), so that
    where the exact quotient lies at or next to a half-integer the number
    of seconds it writes can differ by one from the number defined here. *)
Definition calculateETA (startTime : Z) (num den : Z) : Async (option Z) :=
  now <- Date_now ;;
  if num <=? 0 then ret None
  else if now - startTime <? 100 then ret None
  else ret (Some (Math_round_ratio ((100 * den - num) * (now - startTime)) (1000 * num))).

(** [if (await isCancelled(jobId)) throw new Error('Cancelled by user')] *)
Definition isCancelled (jobId : string) : Async bool :=
  j <- storage_getJob jobId ;;
  let cancelled :=
    match j with
    | Some j => bool_decide (j.(row).(Job.cancelRequested) = Some true)
    | None => false
    end in
  log (EvPoll cancelled) ;;
  ret cancelled.

Definition throwIfCancelled (jobId : string) : Async unit :=
  cancelled <- isCancelled jobId ;;
  if cancelled then throw (JsError "Cancelled by user") else ret tt.

Definition initializeJobSteps (jobId : string) : Async unit :=
  existingSteps <- readDb (DatabaseStorage.getJobSteps jobId) ;;
  if (0 <? Z.of_nat (length existingSteps)) then ret tt
  else
    for_each ["script"; "assets_visual"; "assets_audio"; "video"; "caption"]
      (fun stepType =>
         awaitWrite (DatabaseStorage.createJobStep w.(uuid) jobId stepType step_queued)).

Definition saveStepTiming (contentType stepType : string) (durationMs : Z)
    : Async unit :=
  let k := "step_avg_" +:+ contentType +:+ "_" +:+ stepType in
  existing <- storage_getSetting k ;;
  let d := float_of_Z durationMs in
  let v :=
    match existing with
    | Some s =>
        let data := s.(value) in
        let count' := PrimFloat.add data.(count) 1%float in
        {| avgMs := PrimFloat.div
                      (PrimFloat.add (PrimFloat.mul data.(avgMs) data.(count)) d) count';
           count := count' |}
    | None => {| avgMs := d; count := 1%float |}
    end in
  storage_setSetting k v.

Definition runStep (jobId stepType : string) (fn : Async unit) : Async unit :=
  job <- storage_getJob jobId ;;
  match job ≫= (fun j => find (fun s => String.eqb s.(JobStep.stepType) stepType)
                              j.(steps)) with
  | None => ret tt
  | Some step =>
      match step.(JobStep.status) with
      | step_completed => ret tt
      | _ =>
          startTime <- Date_now ;;
          try_catch
            (started <- Date_now ;;
             storage_updateJobStep step.(JobStep.id)
               [JobStep.Set_status step_running; JobStep.Set_startedAt (Some started)] ;;
             log (EvStage stepType) ;;
             fn ;;
             finished <- Date_now ;;
             let durationMs := finished - startTime in
             storage_updateJobStep step.(JobStep.id)
               [JobStep.Set_status step_completed;
                JobStep.Set_finishedAt (Some finished);
                JobStep.Set_durationMs (Some durationMs)] ;;
             saveStepTiming
               (from_option (fun j => j.(row).(Job.contentType)) "" job)
               stepType durationMs)
            (fun error =>
               let errorMessage := messageOr "Step failed" error in
               finished <- Date_now ;;
               storage_updateJobStep step.(JobStep.id)
                 [JobStep.Set_status step_failed;
                  JobStep.Set_finishedAt (Some finished);
                  JobStep.Set_message (Some errorMessage)] ;;
               throw error)
      end
  end.

(** [const freshJob = await storage.getJob(jobId);
     if (freshJob?.scenes) context.scenes = freshJob.scenes] *)
Definition reloadScenes (jobId : string) : Async unit :=
  freshJob <- storage_getJob jobId ;;
  match freshJob ≫= (fun j => j.(row).(Job.scenes)) with
  | Some ss => setContextScenes ss
  | None => ret tt
  end.

(** [updatedScenes[i]]; reading a property of a missing element throws. *)
Definition sceneAt (updatedScenes : list Scene.t) (i : nat) : Async Scene.t :=
  match updatedScenes !! i with
  | Some scene => ret scene
  | None => throw (JsError "Cannot read properties of undefined")
  end.

(** *** Step 1: script *)

Definition stage_script (jobId : string) (settings : JobSettings) (jobStartTime : Z)
    : Async unit :=
  result <- external Svc_generateScript w.(scriptReply) ;;
  setContext {| script := Some result.1; scenes := Some result.2 |} ;;
  eta <- calculateETA jobStartTime STEP_WEIGHTS.(w_script) 1 ;;
  storage_updateJob jobId
    ([Job.Set_status generating_script;
      Job.Set_scriptText (Some result.1);
      Job.Set_scenes (Some result.2);
      Job.Set_progressPercent STEP_WEIGHTS.(w_script)] ++ etaField eta) ;;
  storage_updateLastProgress jobId.

(** *** Step 2: visual assets *)

Definition visual_iteration (jobId : string) (jobStartTime : Z) (i : nat)
    (updatedScenes : list Scene.t) : Async (list Scene.t) :=
  throwIfCancelled jobId ;;
  scene <- sceneAt updatedScenes i ;;
  if truthy_str scene.(Scene.backgroundAssetUrl) then ret updatedScenes
  else
    imagePrompt <- external Svc_generateImagePrompt w.(imagePromptReply) ;;
    let updatedScenes :=
      alter (Scene.assign (Scene.Set_backgroundPrompt (Some imagePrompt))) i
            updatedScenes in
    let promptHash := w.(md5hex8) (text_of (imagePrompt +:+ jobId +:+ pretty i)) in
    let filename :=
      jobId +:+ "/images/scene_" +:+ pretty i +:+ "_" +:+ promptHash +:+ ".png" in
    existingAsset <- storage_getAssetByPath jobId ("/objects/generated/" +:+ filename) ;;
    updatedScenes <-
      match existingAsset with
      | Some a =>
          ret (alter (Scene.assign (Scene.Set_backgroundAssetUrl (Some a.(url)))) i
                     updatedScenes)
      | None =>
          try_catch
            (imageBuffer <- external Svc_generateImage w.(imageReply) ;;
             imageUrl <- external (Svc_uploadBuffer "image/png") w.(uploadReply) ;;
             storage_createAsset
               {| ins_jobId := jobId; ins_assetType := "image"; ins_url := imageUrl;
                  ins_metadata := MetaImage i imagePrompt promptHash |} ;;
             ret (alter (Scene.assign (Scene.Set_backgroundAssetUrl (Some imageUrl))) i
                        updatedScenes))
            (fun err =>
               ret (alter (Scene.assign (Scene.Set_backgroundAssetUrl (Some ""))) i
                          updatedScenes))
      end ;;
    let n := Z.of_nat (length updatedScenes) in
    let num := STEP_WEIGHTS.(w_script) * n
               + STEP_WEIGHTS.(w_assets_visual) * (Z.of_nat i + 1) in
    eta <- calculateETA jobStartTime num n ;;
    storage_updateJob jobId
      ([Job.Set_progressPercent (Math_round_ratio num n);
        Job.Set_scenes (Some updatedScenes)] ++ etaField eta) ;;
    storage_updateLastProgress jobId ;;
    ret updatedScenes.

Definition stage_assets_visual (jobId : string) (settings : JobSettings)
    (jobStartTime : Z) : Async unit :=
  storage_updateJob jobId [Job.Set_status generating_assets] ;;
  reloadScenes jobId ;;
  ctx <- getContext ;;
  match ctx.(scenes) with
  | Some ((_ :: _) as ss) =>
      updatedScenes <- for_loop (length ss) 0 (visual_iteration jobId jobStartTime) ss ;;
      setContextScenes updatedScenes ;;
      storage_updateJob jobId [Job.Set_scenes (Some updatedScenes)]
  | _ => ret tt
  end.

(** *** Step 3: audio assets *)

Definition audio_iteration (jobId voice : string) (jobStartTime : Z) (i : nat)
    (updatedScenes : list Scene.t) : Async (list Scene.t) :=
  throwIfCancelled jobId ;;
  scene <- sceneAt updatedScenes i ;;
  let text := text_or scene.(Scene.voiceSegmentText)
                (text_or scene.(Scene.textOverlay) []) in
  if truthy_str scene.(Scene.audioAssetUrl) then ret updatedScenes
  else
    updatedScenes <-
      (if negb (trim_is_empty text)
       then
         let textHash := w.(md5hex8) (text ++ text_of (voice +:+ jobId)) in
         let filename :=
           jobId +:+ "/audio/voice_" +:+ pretty i +:+ "_" +:+ textHash +:+ ".mp3" in
         existingAsset <-
           storage_getAssetByPath jobId ("/objects/generated/" +:+ filename) ;;
         match existingAsset with
         | Some a =>
             ret (alter (Scene.assign (Scene.Set_audioAssetUrl (Some a.(url)))) i
                        updatedScenes)
         | None =>
             try_catch
               (audioBuffer <- external Svc_generateSpeech w.(speechReply) ;;
                audioUrl <- external (Svc_uploadBuffer "audio/mpeg") w.(uploadReply) ;;
                (* [updatedScenes[i].audioAssetUrl = audioUrl] precedes
                   [createAsset] and outlives its failure *)
                let updatedScenes :=
                  alter (Scene.assign (Scene.Set_audioAssetUrl (Some audioUrl))) i
                        updatedScenes in
                try_catch
                  (storage_createAsset
                     {| ins_jobId := jobId; ins_assetType := "audio";
                        ins_url := audioUrl;
                        ins_metadata := MetaAudio i voice textHash |} ;;
                   ret updatedScenes)
                  (fun err => ret updatedScenes))
               (fun err => ret updatedScenes)
         end
       else ret updatedScenes) ;;
    let n := Z.of_nat (length updatedScenes) in
    let num := (STEP_WEIGHTS.(w_script) + STEP_WEIGHTS.(w_assets_visual)) * n
               + STEP_WEIGHTS.(w_assets_audio) * (Z.of_nat i + 1) in
    eta <- calculateETA jobStartTime num n ;;
    storage_updateJob jobId
      ([Job.Set_progressPercent (Math_round_ratio num n);
        Job.Set_scenes (Some updatedScenes)] ++ etaField eta) ;;
    storage_updateLastProgress jobId ;;
    ret updatedScenes.

(** The variables the duration-reconciliation loop assigns. *)
Record Reconcile : Type := {
  rc_updatedScenes : list Scene.t;
  rc_currentTime : float;
  rc_consecutiveFailures : Z
}.

Definition MAX_CONSECUTIVE_FAILURES : Z := 3.

(** [Math.max(3, Math.min(10, (scene.textOverlay?.length || 50) / 15))] *)
Definition estimatedDuration (scene : Scene.t) : float :=
  let len :=
    match scene.(Scene.textOverlay) with
    | Some t => if bool_decide (length t = O) then 50
                else Z.of_nat (length t)
    | None => 50
    end in
  Math_max 3%float (Math_min 10%float (PrimFloat.div (float_of_Z len) 15%float)).

Definition reconcile_iteration (jobId : string) (i : nat) (st : Reconcile)
    : Async Reconcile :=
  scene <- sceneAt st.(rc_updatedScenes) i ;;
  detected <-
    (if truthy_str scene.(Scene.audioAssetUrl)
     then
       try_finally
         (try_catch
            (external Svc_downloadObject w.(downloadReply) ;;
             duration <- getAudioDuration 3 ;;
             ret (alter (Scene.assign (Scene.Set_audioDurationSeconds (Some duration))) i
                        st.(rc_updatedScenes), 0))
            (fun err =>
               let consecutiveFailures := st.(rc_consecutiveFailures) + 1 in
               if MAX_CONSECUTIVE_FAILURES <=? consecutiveFailures
               then throw (JsError "3 consecutive audio duration detection failures. Aborting to prevent A/V desync.")
               else
                 ret (alter (Scene.assign
                               (Scene.Set_audioDurationSeconds
                                  (Some (estimatedDuration scene)))) i
                            st.(rc_updatedScenes), consecutiveFailures)))
         (ret tt)
     else
       ret (alter (Scene.assign (Scene.Set_audioDurationSeconds (Some 3%float))) i
                  st.(rc_updatedScenes), st.(rc_consecutiveFailures))) ;;
  let duration :=
    num_or (detected.1 !! i ≫= Scene.audioDurationSeconds) 5%float in
  ret {| rc_updatedScenes :=
           alter (Scene.assign (Scene.Set_endTime (PrimFloat.add st.(rc_currentTime) duration)))
                 i
                 (alter (Scene.assign (Scene.Set_startTime st.(rc_currentTime))) i detected.1);
         rc_currentTime := PrimFloat.add st.(rc_currentTime) duration;
         rc_consecutiveFailures := detected.2 |}.

Definition stage_assets_audio (jobId : string) (settings : JobSettings)
    (jobStartTime : Z) : Async unit :=
  storage_updateJob jobId [Job.Set_status generating_assets] ;;
  reloadScenes jobId ;;
  ctx <- getContext ;;
  match ctx.(scenes) with
  | Some ((_ :: _) as ss) =>
      if truthy_str ctx.(script)
      then
        let voice := str_or (settings.(audio) ≫= voiceModel) "nova" in
        updatedScenes <-
          for_loop (length ss) 0 (audio_iteration jobId voice jobStartTime) ss ;;
        updatedScenes <-
          match rev with
          | Rev1 => ret updatedScenes
          | Rev2 =>
              st <- for_loop (length updatedScenes) 0 (reconcile_iteration jobId)
                      {| rc_updatedScenes := updatedScenes; rc_currentTime := 0%float;
                         rc_consecutiveFailures := 0 |} ;;
              ret st.(rc_updatedScenes)
          end ;;
        setContextScenes updatedScenes ;;
        storage_updateJob jobId [Job.Set_scenes (Some updatedScenes)]
      else ret tt
  | _ => ret tt
  end.

(** *** Step 4: render *)

Definition stage_video (jobId : string) (settings : JobSettings) : Async unit :=
  storage_updateJob jobId [Job.Set_status rendering_video] ;;
  reloadScenes jobId ;;
  ctx <- getContext ;;
  match ctx.(scenes) with
  | Some ((_ :: _) as ss) =>
      result <- renderVideo ss ;;
      let integrity := result.(integrityCheck) in
      (if negb integrity.(valid)
       then throw (JsError ("Video integrity check failed: "
                            +:+ from_option id "undefined" integrity.(error)))
       else ret tt) ;;
      storage_createAsset
        {| ins_jobId := jobId; ins_assetType := "video"; ins_url := result.(videoUrl);
           ins_metadata := MetaVideo result.(durationSeconds) |} ;;
      storage_createAsset
        {| ins_jobId := jobId; ins_assetType := "image";
           ins_url := result.(thumbnailUrl); ins_metadata := MetaThumbnail |} ;;
      let videoProgress :=
        STEP_WEIGHTS.(w_script) + STEP_WEIGHTS.(w_assets_visual)
        + STEP_WEIGHTS.(w_assets_audio) + STEP_WEIGHTS.(w_video) in
      storage_updateJob jobId
        ([Job.Set_progressPercent videoProgress;
          Job.Set_durationSeconds (Some result.(durationSeconds));
          Job.Set_thumbnailUrl (Some result.(thumbnailUrl));
          Job.Set_videoUrl (Some result.(videoUrl))] ++ etaField (Some 10)) ;;
      storage_updateLastProgress jobId
  | _ => ret tt
  end.

(** *** Step 5: caption and hashtags *)

Definition stage_caption (jobId : string) (settings : JobSettings) : Async unit :=
  storage_updateJob jobId [Job.Set_status generating_caption] ;;
  freshJob <- storage_getJob jobId ;;
  ctx <- getContext ;;
  let script :=
    if truthy_str (freshJob ≫= (fun j => j.(row).(Job.scriptText)))
    then freshJob ≫= (fun j => j.(row).(Job.scriptText))
    else ctx.(script) in
  if truthy_str script
  then
    r <- external Svc_generateCaptionAndHashtags w.(captionReply) ;;
    storage_updateJob jobId
      ([Job.Set_caption (Some r.1); Job.Set_hashtags (Some r.2);
        Job.Set_progressPercent 100] ++ etaField (Some 0)) ;;
    storage_updateLastProgress jobId
  else ret tt.

(** *** processJob *)

(** [settings.visual?.scenesPerMinute || 6] and the initial estimate built
    from [STEP_TIME_ESTIMATES]. *)
Definition initialETA (settings : JobSettings) : Z :=
  let estimatedScenes :=
    match settings.(visual) ≫= scenesPerMinute with
    | Some n => if n =? 0 then 6 else n
    | None => 6
    end in
  10 + estimatedScenes * 45 + estimatedScenes * 5 + estimatedScenes * 90 / 5 + 5.

(** The body of the [try] block. *)
Definition processJob_try (jobId : string) (jobStartTime : Z) : Async unit :=
  job <- storage_getJob jobId ;;
  match job with
  | None => ret tt
  | Some job =>
      let settings := job.(row).(Job.settings) in
      setContext {| script := None; scenes := None |} ;;
      storage_updateJob jobId
        ([Job.Set_status running; Job.Set_progressPercent 0]
         ++ etaField (Some (initialETA settings))) ;;
      storage_updateLastProgress jobId ;;
      throwIfCancelled jobId ;;
      runStep jobId "script" (stage_script jobId settings jobStartTime) ;;
      throwIfCancelled jobId ;;
      runStep jobId "assets_visual" (stage_assets_visual jobId settings jobStartTime) ;;
      throwIfCancelled jobId ;;
      runStep jobId "assets_audio" (stage_assets_audio jobId settings jobStartTime) ;;
      throwIfCancelled jobId ;;
      runStep jobId "video" (stage_video jobId settings) ;;
      throwIfCancelled jobId ;;
      runStep jobId "caption" (stage_caption jobId settings) ;;
      storage_updateJob jobId
        [Job.Set_status completed; Job.Set_progressPercent 100;
         Job.Set_etaSeconds (Some 0)]
  end.

(** The [catch] block; both branches of the source's conditional yield
    ['failed']. *)
Definition processJob_catch (jobId : string) (error : Thrown) : Async unit :=
  let errorMessage := messageOr "Unknown error occurred" error in
  let status := failed in
  storage_updateJob jobId
    [Job.Set_status status; Job.Set_errorMessage (Some errorMessage)].

(** The lease is renewed by a timer every thirty seconds while this runs; the
    timer touches [leaseExpiresAt] only and is left out. *)
Definition processJob (jobId : string) : Async unit :=
  lockAcquired <- storage_acquireJobLock jobId w.(WORKER_ID) LEASE_SECONDS ;;
  if negb lockAcquired then ret tt
  else
    jobStartTime <- Date_now ;;
    try_finally
      (try_catch (processJob_try jobId jobStartTime) (processJob_catch jobId))
      (storage_releaseJobLock jobId w.(WORKER_ID)).

End Worker.

(** ** Vocabulary of the properties *)

(** A job in a terminal state. *)
Definition terminal (s : JobStatus) : bool :=
  match s with
  | completed | failed => true
  | _ => false
  end.

(** The lease is free at [now]: no owner is recorded, or the recorded expiry
    lies in the past. *)
Definition lease_free (j : Job.t) (now : Z) : Prop :=
  j.(Job.lockedBy) = None \/
  exists e, j.(Job.leaseExpiresAt) = Some e /\ e < now.

(** The lease on [j] is held by [owner] since [now] for [ttl] seconds. *)
Definition lease_held (j : Job.t) (owner : string) (now ttl : Z) : Prop :=
  j.(Job.lockedBy) = Some owner /\
  j.(Job.lockedAt) = Some now /\
  j.(Job.leaseExpiresAt) = Some (now + DatabaseStorage.seconds ttl).

(** The first row of the [jobs] table with the given id. *)
Definition jobRow (id : string) (db : Store) : option Job.t :=
  head (filter (fun j => j.(Job.id) = id) db.(jobs)).

(** [new] is [old] with [cancelRequested] set and nothing else touched. *)
Definition only_flag_set (old new : Job.t) : Prop :=
  new = Job.assign (Job.Set_cancelRequested (Some true)) old.

(** [new] is [old] with [cancelRequested] set, [updatedAt] stamped with
    [now], and each of the other twenty-two columns as it was. *)
Definition flag_set_and_stamped (now : Z) (old new : Job.t) : Prop :=
  new.(Job.cancelRequested) = Some true /\
  new.(Job.updatedAt) = now /\
  new.(Job.id) = old.(Job.id) /\
  new.(Job.title) = old.(Job.title) /\
  new.(Job.status) = old.(Job.status) /\
  new.(Job.contentType) = old.(Job.contentType) /\
  new.(Job.settings) = old.(Job.settings) /\
  new.(Job.scriptText) = old.(Job.scriptText) /\
  new.(Job.scenes) = old.(Job.scenes) /\
  new.(Job.caption) = old.(Job.caption) /\
  new.(Job.hashtags) = old.(Job.hashtags) /\
  new.(Job.videoUrl) = old.(Job.videoUrl) /\
  new.(Job.audioUrl) = old.(Job.audioUrl) /\
  new.(Job.subtitlesUrl) = old.(Job.subtitlesUrl) /\
  new.(Job.thumbnailUrl) = old.(Job.thumbnailUrl) /\
  new.(Job.durationSeconds) = old.(Job.durationSeconds) /\
  new.(Job.progressPercent) = old.(Job.progressPercent) /\
  new.(Job.etaSeconds) = old.(Job.etaSeconds) /\
  new.(Job.errorMessage) = old.(Job.errorMessage) /\
  new.(Job.lockedBy) = old.(Job.lockedBy) /\
  new.(Job.lockedAt) = old.(Job.lockedAt) /\
  new.(Job.leaseExpiresAt) = old.(Job.leaseExpiresAt) /\
  new.(Job.lastProgressAt) = old.(Job.lastProgressAt) /\
  new.(Job.createdAt) = old.(Job.createdAt).

(** The store after a cancel request relates to the store before it row by
    row through [effect] on the rows of the job, all else being equal. *)
Definition cancel_touches (effect : Job.t -> Job.t -> Prop) (id : string)
    (before after : Store) : Prop :=
  Forall2 (fun old new => if bool_decide (old.(Job.id) = id)
                          then effect old new else new = old)
          before.(jobs) after.(jobs) /\
  after.(jobSteps) = before.(jobSteps) /\
  after.(assets) = before.(assets) /\
  after.(settings) = before.(settings).

(** An ffprobe report of a file with a single 640x480 video stream, no
    audio stream, ten seconds long. *)
Definition silent_small_probe : ProbeRun :=
  ProbeClosed 0 ""
    (Some {| format_duration := 10%float;
             streams := [ {| codec_type := "video"; stream_width := Some 640;
                             stream_height := Some 480 |} ] |}).

(** *** Sample data *)

Definition sample_settings : JobSettings :=
  {| settings_contentType := "facts"; contentConfig := None;
     targetDurationSeconds := Some 90; targetPlatform := Some "both";
     visual := None; audio := None; subtitles := None |}.

(** A freshly created job. *)
Definition sample_job : Job.t :=
  {| Job.id := "job-1"; Job.title := "Facts"; Job.status := queued;
     Job.contentType := "facts"; Job.settings := sample_settings;
     Job.scriptText := None; Job.scenes := None; Job.caption := None;
     Job.hashtags := None; Job.videoUrl := None; Job.audioUrl := None;
     Job.subtitlesUrl := None; Job.thumbnailUrl := None;
     Job.durationSeconds := None; Job.progressPercent := 0;
     Job.etaSeconds := None; Job.errorMessage := None; Job.lockedBy := None;
     Job.lockedAt := None; Job.leaseExpiresAt := None;
     Job.lastProgressAt := None; Job.cancelRequested := Some false;
     Job.createdAt := 0; Job.updatedAt := 0 |}.

Definition sample_db : Store :=
  {| jobs := [sample_job]; jobSteps := []; assets := []; settings := [];
     inserted := 0 |}.

(** *** Reading the log *)

(** The pipeline stage a service is called for. *)
Definition stage_of (svc : Service) : string :=
  match svc with
  | Svc_generateScript => "script"
  | Svc_generateImagePrompt | Svc_generateImage => "assets_visual"
  | Svc_uploadBuffer mimeType =>
      if String.eqb mimeType "image/png" then "assets_visual" else "assets_audio"
  | Svc_generateSpeech | Svc_downloadObject | Svc_ffprobe | Svc_setTimeout =>
      "assets_audio"
  | Svc_renderVideo => "video"
  | Svc_generateCaptionAndHashtags => "caption"
  end.

(** The event is work of stage [s]: its stage function being entered, or an
    external call made for it. *)
Definition work_of (s : string) (ev : Event) : Prop :=
  match ev with
  | EvStage s' => s' = s
  | EvCall _ svc => stage_of svc = s
  | _ => False
  end.

(** The event may occur while stage [s] runs. *)
Definition within (s : string) (ev : Event) : Prop :=
  match ev with
  | EvStage s' => s' = s
  | EvCall _ svc => stage_of svc = s
  | _ => True
  end.

(** The error the video stage raises on a rejected render. *)
Definition integrityError (io : RenderIO) : option Thrown :=
  let integrity := checkVideoIntegrity io.(out_probe) io.(out_stat) in
  if integrity.(valid) then None
  else Some (JsError ("Video integrity check failed: "
                      +:+ from_option id "undefined" integrity.(error))).

Definition thrown {A} (r : Outcome A) : option Thrown :=
  match r with
  | Ok _ => None
  | Throw e => Some e
  end.

(** The events that end a run, with the error each raises: a poll that finds
    the flag set, a failed script, image-prompt or caption generation, a
    render that fails or whose output is rejected. *)
Definition fatal (w : World) (ev : Event) : option Thrown :=
  match ev with
  | EvPoll true => Some (JsError "Cancelled by user")
  | EvCall t Svc_generateScript => thrown (w.(scriptReply) t)
  | EvCall t Svc_generateImagePrompt => thrown (w.(imagePromptReply) t)
  | EvCall t Svc_renderVideo =>
      match w.(renderReply) t with
      | Throw e => Some e
      | Ok io => integrityError io
      end
  | EvCall t Svc_generateCaptionAndHashtags => thrown (w.(captionReply) t)
  | _ => None
  end.

Definition calm (w : World) (evs : list Event) : Prop :=
  Forall (fun ev => fatal w ev = None) evs.

(** [evs] ends with the fatal event [ev] raising [e], nothing before it being
    fatal. *)
Definition ends_with_fatal (w : World) (evs : list Event) (ev : Event) (e : Thrown)
    : Prop :=
  exists pre, evs = pre ++ [ev] /\ calm w pre /\ fatal w ev = Some e.

(** The steps table and the ids of the jobs table are as before. *)
Definition stage_frame (m m' : Machine) : Prop :=
  m'.(db).(jobSteps) = m.(db).(jobSteps) /\
  map Job.id m'.(db).(jobs) = map Job.id m.(db).(jobs).

(** A command that never raises a fatal event while running in stage [s]. *)
Definition quiet (w : World) (s : string) {A} (c : Async A) : Prop :=
  forall m,
    stage_frame m (c m).2 /\
    exists evs, (c m).2.(trace) = m.(trace) ++ evs /\
                Forall (within s) evs /\ calm w evs.

(** A command of stage [s] whose fatal events end it with their error. *)
Definition graceful (w : World) (s : string) {A} (c : Async A) : Prop :=
  forall m,
    stage_frame m (c m).2 /\
    exists evs, (c m).2.(trace) = m.(trace) ++ evs /\
                Forall (within s) evs /\
                (calm w evs \/
                 exists ev e, thrown (c m).1 = Some e /\ ends_with_fatal w evs ev e).

(** The job's step record of type [s]. *)
Definition stepOf (jobId s : string) (db : Store) : option JobStep.t :=
  find (fun st => String.eqb st.(JobStep.stepType) s)
       (DatabaseStorage.getJobSteps jobId db).

Definition step_is_failed (jobId s : string) (e : Thrown) (db : Store) : Prop :=
  exists st, stepOf jobId s db = Some st /\
             st.(JobStep.status) = step_failed /\
             st.(JobStep.message) = Some (messageOr "Step failed" e).

Definition step_is_completed (jobId s : string) (db : Store) : Prop :=
  exists st, stepOf jobId s db = Some st /\ st.(JobStep.status) = step_completed.

(** A command of [processJob]'s [try] block: a fatal event ends it with its
    error, and when the event is work of a stage, that stage's step is
    marked failed with the error's text. *)
Definition orderly (w : World) (jobId : string) {A} (c : Async A) : Prop :=
  forall m,
    map Job.id (c m).2.(db).(jobs) = map Job.id m.(db).(jobs) /\
    exists evs, (c m).2.(trace) = m.(trace) ++ evs /\
                (calm w evs \/
                 exists ev e, thrown (c m).1 = Some e /\ ends_with_fatal w evs ev e /\
                   forall s, work_of s ev -> step_is_failed jobId s e (c m).2.(db)).

(** A command that does no work of stage [s] when that stage's step is
    completed, and leaves it completed unless it throws. *)
Definition skips (jobId s : string) {A} (c : Async A) : Prop :=
  forall m,
    step_is_completed jobId s m.(db) ->
    (exists evs, (c m).2.(trace) = m.(trace) ++ evs /\
                 Forall (fun ev => ~ work_of s ev) evs) /\
    (forall a, (c m).1 = Ok a -> step_is_completed jobId s (c m).2.(db)).

(** The values written to [progressPercent], in order. *)
Definition progress_of (evs : list Event) : list Z :=
  flat_map (fun ev =>
              match ev with
              | EvUpdateJob _ updates =>
                  flat_map (fun a => match a with
                                     | Job.Set_progressPercent p => [p]
                                     | _ => []
                                     end) updates
              | _ => []
              end) evs.

(** A non-decreasing sequence between [lo] and [hi]. *)
Fixpoint rises (lo hi : Z) (l : list Z) : Prop :=
  match l with
  | [] => lo <= hi
  | p :: l' => lo <= p /\ rises p hi l'
  end.

(** A command whose progress writes rise from [lo] to [hi]. *)
Definition climbs (lo hi : Z) {A} (c : Async A) : Prop :=
  forall m, exists evs, (c m).2.(trace) = m.(trace) ++ evs /\
                        rises lo hi (progress_of evs).

(** The update does not assign the primary key. *)
Definition keeps_id (updates : list Job.Assign) : bool :=
  forallb (fun a => match a with Job.Set_id _ => false | _ => true end) updates.

(** The update assigns none of the columns a step is looked up by. *)
Definition keeps_step_key (updates : list JobStep.Assign) : bool :=
  forallb (fun a => match a with
                    | JobStep.Set_id _ | JobStep.Set_jobId _ | JobStep.Set_stepType _ => false
                    | _ => true
                    end) updates.

(** [runStep] has marked its step as running and enters the stage function. *)
Definition entered (w : World) (s : string) (st : JobStep.t) (m : Machine) : Machine :=
  {| db := DatabaseStorage.updateJobStep st.(JobStep.id)
             [JobStep.Set_status step_running;
              JobStep.Set_startedAt (Some (w.(clock) m.(calls)))] m.(db);
     calls := m.(calls);
     trace := m.(trace) ++ [EvStage s];
     context := m.(context) |}.

(** [runStep] has caught [e] from the stage function and marked its step. *)
Definition marked_failed (w : World) (st : JobStep.t) (e : Thrown) (m : Machine)
    : Machine :=
  {| db := DatabaseStorage.updateJobStep st.(JobStep.id)
             [JobStep.Set_status step_failed;
              JobStep.Set_finishedAt (Some (w.(clock) m.(calls)));
              JobStep.Set_message (Some (messageOr "Step failed" e))] m.(db);
     calls := m.(calls);
     trace := m.(trace);
     context := m.(context) |}.

(** [runStep] has seen the stage function return and marked its step; the
    duration is measured from [started]. *)
Definition marked_completed (w : World) (st : JobStep.t) (started : Z) (m : Machine)
    : Machine :=
  {| db := DatabaseStorage.updateJobStep st.(JobStep.id)
             [JobStep.Set_status step_completed;
              JobStep.Set_finishedAt (Some (w.(clock) m.(calls)));
              JobStep.Set_durationMs (Some (w.(clock) m.(calls) - started))] m.(db);
     calls := m.(calls);
     trace := m.(trace);
     context := m.(context) |}.

(** The machine once [processJob] has asked for the lease. *)
Definition locked (w : World) (jobId : string) (m : Machine) : Machine :=
  {| db := (DatabaseStorage.acquireJobLock jobId w.(WORKER_ID) 120
              (w.(clock) m.(calls)) m.(db)).2;
     calls := m.(calls); trace := m.(trace); context := m.(context) |}.

(** The machine once the [finally] block has released the lease. *)
Definition released (w : World) (jobId : string) (m : Machine) : Machine :=
  {| db := DatabaseStorage.releaseJobLock jobId w.(WORKER_ID) m.(db);
     calls := m.(calls); trace := m.(trace); context := m.(context) |}.

(** What the [catch] block writes for the error [e]. *)
Definition failure_update (e : Thrown) : list Job.Assign :=
  [Job.Set_status failed;
   Job.Set_errorMessage (Some (messageOr "Unknown error occurred" e))].

(** The machine once the [catch] block has recorded [e]. *)
Definition failure_recorded (w : World) (jobId : string) (e : Thrown) (m : Machine)
    : Machine :=
  {| db := DatabaseStorage.updatedJobs jobId (failure_update e) (w.(clock) m.(calls)) m.(db);
     calls := m.(calls);
     trace := m.(trace) ++ [EvUpdateJob jobId (failure_update e)];
     context := m.(context) |}.

(** The job has ended as failed with the message of [e]. *)
Definition job_failed_with (jobId : string) (e : Thrown) (d : Store) : Prop :=
  exists j, jobRow jobId d = Some j /\
            j.(Job.status) = failed /\
            j.(Job.errorMessage) = Some (messageOr "Unknown error occurred" e).

(** The five stages of the pipeline, in order. *)
Definition stageTypes : list string :=
  ["script"; "assets_visual"; "assets_audio"; "video"; "caption"].

(** A command that writes no progress. *)
Definition still {A} (c : Async A) : Prop :=
  forall m, exists evs, (c m).2.(trace) = m.(trace) ++ evs /\ progress_of evs = [].

(** A command whose value, when it returns one, satisfies [Q]. *)
Definition returns {A} (Q : A -> Prop) (c : Async A) : Prop :=
  forall m a, (c m).1 = Ok a -> Q a.

(** The progress the scene loops write after [i] of [n] scenes, for a stage
    that starts at [base] and weighs [weight]. *)
Definition loopProgress (base weight n i : Z) : Z :=
  Math_round_ratio (base * n + weight * i) n.

(** A scene as the script generator returns it, spanning [from, to]. *)
Definition sample_scene (i : Z) (text : string) (from to : float) : Scene.t :=
  {| Scene.id := "scene-" +:+ pretty i; Scene.index := i; Scene.startTime := from;
     Scene.endTime := to; Scene.textOverlay := Some (text_of text);
     Scene.voiceSegmentText := Some (text_of text); Scene.backgroundPrompt := None;
     Scene.backgroundAssetUrl := None; Scene.audioAssetUrl := None;
     Scene.audioDurationSeconds := None |}.

(** A two-scene script of fifteen seconds. *)
Definition sample_scenes : list Scene.t :=
  [sample_scene 0 "Honey never spoils." 0%float 7.5%float;
   sample_scene 1 "Octopuses have three hearts." 7.5%float 15%float].

(** The same scenes once both asset stages have run: images, voice clips of
    2.5 seconds each, and the reconciled timings. *)
Definition sample_scenes_with_assets : list Scene.t :=
  [ {| Scene.id := "scene-0"; Scene.index := 0; Scene.startTime := 0%float;
       Scene.endTime := 2.5%float; Scene.textOverlay := Some (text_of "Honey never spoils.");
       Scene.voiceSegmentText := Some (text_of "Honey never spoils.");
       Scene.backgroundPrompt := Some "a jar of honey";
       Scene.backgroundAssetUrl := Some "/objects/generated/job-1/images/scene_0.png";
       Scene.audioAssetUrl := Some "/objects/generated/job-1/audio/voice_0.mp3";
       Scene.audioDurationSeconds := Some 2.5%float |};
    {| Scene.id := "scene-1"; Scene.index := 1; Scene.startTime := 2.5%float;
       Scene.endTime := 5%float; Scene.textOverlay := Some (text_of "Octopuses have three hearts.");
       Scene.voiceSegmentText := Some (text_of "Octopuses have three hearts.");
       Scene.backgroundPrompt := Some "an octopus";
       Scene.backgroundAssetUrl := Some "/objects/generated/job-1/images/scene_1.png";
       Scene.audioAssetUrl := Some "/objects/generated/job-1/audio/voice_1.mp3";
       Scene.audioDurationSeconds := Some 2.5%float |} ].

(** A render whose encoder calls all exit with code 0, with the given probe
    of the final file. *)
Definition sample_render (duration : float) (size : Z) : RenderIO :=
  {| out_videoUrl := "/objects/generated/job-1/final.mp4";
     out_thumbnailUrl := "/objects/generated/job-1/thumbnail.jpg";
     out_probe :=
       ProbeClosed 0 ""
         (Some {| format_duration := duration;
                  streams := [ {| codec_type := "video"; stream_width := Some 1080;
                                  stream_height := Some 1920 |};
                               {| codec_type := "audio"; stream_width := None;
                                  stream_height := None |} ] |});
     out_stat := StatSize size |}.

(** A world in which every service answers, except as the three arguments
    say: who posts a cancel request when, what image generation answers, and
    what the render leaves behind. *)
Definition sample_world (cancel : nat -> option string) (image : nat -> Outcome string)
    (render : RenderIO) : World :=
  {| WORKER_ID := "worker-1a2b3c4d";
     clock := fun t => 1000 * Z.of_nat t;
     uuid := fun n => "row-" +:+ pretty n;
     md5hex8 := fun _ => "0a1b2c3d";
     databaseError := fun why =>
       match why with
       | InvalidInteger _ => "invalid input syntax for type integer"
       | ForeignKeyViolation table _ =>
           "insert or update on table " +:+ table +:+ " violates foreign key constraint"
       end;
     cancelPosted := cancel;
     scriptReply := fun _ => Ok ("Two facts.", sample_scenes);
     imagePromptReply := fun _ => Ok "a still life";
     imageReply := image;
     uploadReply := fun t => Ok ("/objects/generated/upload-" +:+ pretty t);
     speechReply := fun _ => Ok "mp3";
     downloadReply := fun _ => Ok tt;
     ffprobeReply := fun _ => Ok 2.5%float;
     renderReply := fun _ => Ok render;
     captionReply := fun _ => Ok ("Did you know?", ["facts"]) |}.

Definition quiet_world : World :=
  sample_world (fun _ => None) (fun _ => Ok "png") (sample_render 5%float 250000).

Definition sample_step (n : nat) (stepType : string) (status : StepStatus) : JobStep.t :=
  {| JobStep.id := "step-" +:+ pretty n; JobStep.jobId := "job-1";
     JobStep.stepType := stepType; JobStep.status := status; JobStep.message := None;
     JobStep.startedAt := None; JobStep.finishedAt := None; JobStep.etaSeconds := None;
     JobStep.durationMs := None |}.

(** The five steps of the sample job, the first [done] of them completed. *)
Definition sample_steps (done : nat) : list JobStep.t :=
  imap (fun n stepType =>
          sample_step n stepType (if decide (n < done)%nat then step_completed
                                  else step_queued))
       ["script"; "assets_visual"; "assets_audio"; "video"; "caption"].

Definition machine_of (d : Store) : Machine :=
  {| db := d; calls := 0; trace := []; context := {| script := None; scenes := None |} |}.

(** The sample job as created: queued, its five steps queued. *)
Definition fresh_machine : Machine :=
  machine_of {| jobs := [sample_job]; jobSteps := sample_steps 0; assets := [];
                settings := []; inserted := 5 |}.

(** The sample job interrupted after [done] stages, as the restarted server
    finds it. *)
Definition interrupted_job (status : JobStatus) (progress : Z) (ss : list Scene.t)
    : Job.t :=
  Job.assign (Job.Set_scenes (Some ss))
    (Job.assign (Job.Set_scriptText (Some "Two facts."))
       (Job.assign (Job.Set_progressPercent progress)
          (Job.assign (Job.Set_status status) sample_job))).

Definition interrupted_machine (done : nat) (status : JobStatus) (progress : Z)
    (ss : list Scene.t) : Machine :=
  machine_of {| jobs := [interrupted_job status progress ss];
                jobSteps := sample_steps done; assets := []; settings := [];
                inserted := 5 |}.

(** A short rendering of the log: polls, stages entered, calls, and the
    progress written. *)
Definition summary (ev : Event) : string :=
  match ev with
  | EvPoll true => "poll:cancelled"
  | EvPoll false => "poll"
  | EvStage s => "stage:" +:+ s
  | EvCall t _ => "call:" +:+ pretty t
  | EvUpdateJob _ updates =>
      "update" +:+ String.concat ""
        (map (fun a => match a with
                       | Job.Set_progressPercent p => ":" +:+ pretty p
                       | _ => ""
                       end) updates)
  end.

(** The probe of the rendered file reports no positive duration, or the
    file is smaller than the floor of 10000 bytes. *)
Definition rejected_output (io : RenderIO) : Prop :=
  (exists code stderr data,
     io.(out_probe) = ProbeClosed code stderr (Some data) /\
     PrimFloat.leb data.(format_duration) 0%float = true) \/
  (exists size, io.(out_stat) = StatSize size /\ size < 10000).

(** A world whose render produces a file of zero duration. *)
Definition zero_duration_world : World :=
  sample_world (fun _ => None) (fun _ => Ok "png") (sample_render 0%float 250000).

(** A world in which the client posts the cancel request while the caption
    service, the second external call of the resumed run, is pending. *)
Definition late_cancel_world : World :=
  sample_world (fun t => if decide (t = 1%nat) then Some "job-1" else None)
    (fun _ => Ok "png") (sample_render 5%float 250000).


(** The sample job with its three asset stages completed. *)
Definition render_pending_machine : Machine :=
  interrupted_machine 3 generating_assets 55 sample_scenes_with_assets.

(** *** Runs that execute no stage *)

(** What a run that executes no stage is seen doing: polls that find no
    request, and writes to the job record. *)
Definition idle (ev : Event) : Prop :=
  match ev with
  | EvPoll false | EvUpdateJob _ _ => True
  | _ => False
  end.

(** The machine [m] of a run started at [m0] that has executed no stage so
    far: the job is there and not cancelled, the steps table is untouched,
    no external call was made and only idle events were logged. *)
Definition unstaged (jobId : string) (m0 m : Machine) : Prop :=
  (exists j, jobRow jobId m.(db) = Some j /\ j.(Job.cancelRequested) <> Some true) /\
  m.(db).(jobSteps) = m0.(db).(jobSteps) /\
  m.(calls) = m0.(calls) /\
  exists evs, m.(trace) = m0.(trace) ++ evs /\ Forall idle evs.

(** From a machine satisfying [P] the command returns a value, and [Q] holds
    of the value and the machine it leaves. *)
Definition ensures {A} (P : Machine -> Prop) (c : Async A)
    (Q : A -> Machine -> Prop) : Prop :=
  forall m, P m -> exists a, (c m).1 = Ok a /\ Q a (c m).2.

(** The job has ended completed at 100 percent. *)
Definition job_completed (jobId : string) (d : Store) : Prop :=
  exists j, jobRow jobId d = Some j /\
            j.(Job.status) = completed /\ j.(Job.progressPercent) = 100.

(** *** Scene timings *)

(** The timings of [l] are laid end to end from [start], each scene lasting
    the duration the renderer takes for it. *)
Fixpoint chained (start : float) (l : list Scene.t) : Prop :=
  match l with
  | [] => True
  | s :: l' =>
      s.(Scene.startTime) = start /\
      s.(Scene.endTime)
      = PrimFloat.add start (num_or s.(Scene.audioDurationSeconds) 5%float) /\
      chained s.(Scene.endTime) l'
  end.

(** The loop variables after the first [k] of [n] scenes were reconciled. *)
Definition reconciled (n k : nat) (st : Reconcile) : Prop :=
  length st.(rc_updatedScenes) = n /\
  chained 0%float (take k st.(rc_updatedScenes)) /\
  st.(rc_currentTime)
  = foldl PrimFloat.add 0%float (sceneDurations (take k st.(rc_updatedScenes))).

(** ** Further operations of the storage layer and of the routes *)

(** [db.delete(jobs).where(eq(jobs.id, id))].  The [job_steps] and [assets]
    tables reference [jobs.id] with [onDelete: 'cascade'] (shared/schema.ts),
    so the rows of the job go with it. *)
Definition deleteJob (id : string) (db : Store) : Store :=
  {| jobs := filter (fun j => j.(Job.id) <> id) db.(jobs);
     jobSteps := filter (fun s => s.(JobStep.jobId) <> id) db.(jobSteps);
     assets := filter (fun a => a.(asset_jobId) <> id) db.(assets);
     settings := db.(settings);
     inserted := db.(inserted) |}.

(** [DELETE /api/jobs/:id]: the status code and the store it leaves. *)
Definition deleteJobRoute (id : string) (db : Store) : Z * Store :=
  match DatabaseStorage.getJob id db with
  | None => (404, db)
  | Some _ => (204, deleteJob id db)
  end.

(** *** Reading the log: the services called *)

(** The services a stretch of the log calls, in order. *)
Definition calls_of (evs : list Event) : list Service :=
  flat_map (fun ev => match ev with
                      | EvCall _ svc => [svc]
                      | _ => []
                      end) evs.

(** [k] ffprobe runs with a timer wait between any two of them. *)
Fixpoint probe_sequence (k : nat) : list Service :=
  match k with
  | O => []
  | S O => [Svc_ffprobe]
  | S k' => Svc_ffprobe :: Svc_setTimeout :: probe_sequence k'
  end.

(** What the probe made as the external call [t] settles with: the duration
    ffprobe reports when it is positive, else an error. *)
Definition probeOutcome (w : World) (t : nat) : Outcome float :=
  match w.(ffprobeReply) t with
  | Ok dur => if PrimFloat.ltb 0%float dur then Ok dur
              else Throw (JsError "Invalid duration: 0 or negative")
  | Throw e => Throw e
  end.

(** What one call of [getAudioDuration] does, [remaining] attempts being
    left of [retries]: [k] probes, the last of which decides. *)
Definition probing (w : World) (retries remaining : nat) (m : Machine)
    (r : Outcome float * Machine) : Prop :=
  exists k evs,
    r.2.(trace) = m.(trace) ++ evs /\ calls_of evs = probe_sequence k /\
    match r.1 with
    | Ok d =>
        (1 <= k <= remaining)%nat /\ PrimFloat.ltb 0%float d = true /\
        exists t, last evs = Some (EvCall t Svc_ffprobe) /\ probeOutcome w t = Ok d
    | Throw e =>
        k = remaining /\
        if decide (remaining = O)
        then e = JsError "Audio duration detection failed"
        else exists t err,
               last evs = Some (EvCall t Svc_ffprobe) /\
               probeOutcome w t = Throw err /\
               e = JsError ("Failed to detect audio duration after "
                            +:+ pretty retries +:+ " attempts: " +:+ interpolate err)
    end.

(** A world in which ffprobe fails on every file. *)
Definition deaf_world : World :=
  {| WORKER_ID := quiet_world.(WORKER_ID); clock := quiet_world.(clock);
     uuid := quiet_world.(uuid); md5hex8 := quiet_world.(md5hex8);
     databaseError := quiet_world.(databaseError);
     cancelPosted := quiet_world.(cancelPosted);
     scriptReply := quiet_world.(scriptReply);
     imagePromptReply := quiet_world.(imagePromptReply);
     imageReply := quiet_world.(imageReply); uploadReply := quiet_world.(uploadReply);
     speechReply := quiet_world.(speechReply);
     downloadReply := quiet_world.(downloadReply);
     ffprobeReply := fun _ => Throw (JsError "ffprobe exited with code 1: ");
     renderReply := quiet_world.(renderReply);
     captionReply := quiet_world.(captionReply) |}.


(** The sample job while another worker holds its lease, which expires at
    minute one. *)
Definition leased_machine : Machine :=
  machine_of {| jobs := [Job.assign (Job.Set_leaseExpiresAt (Some 60000))
                           (Job.assign (Job.Set_lockedAt (Some 0))
                              (Job.assign (Job.Set_lockedBy (Some "worker-9f8e7d6c"))
                                 sample_job))];
                jobSteps := sample_steps 0; assets := []; settings := [];
                inserted := 5 |}.

(** The first events of a run whose job is already cancelled. *)
Definition cancelled_run_events (rev : Revision) (jobId : string) (settings : JobSettings)
    : list Event :=
  [EvUpdateJob jobId ([Job.Set_status running; Job.Set_progressPercent 0]
                      ++ etaField rev (Some (initialETA settings)));
   EvPoll true;
   EvUpdateJob jobId (failure_update (JsError "Cancelled by user"))].


(** The step [createJobStep] inserts as the [n]-th row of the database. *)
Definition queued_step (w : World) (jobId : string) (n : nat) (stepType : string)
    : JobStep.t :=
  {| JobStep.id := w.(uuid) n; JobStep.jobId := jobId; JobStep.stepType := stepType;
     JobStep.status := step_queued; JobStep.message := None; JobStep.startedAt := None;
     JobStep.finishedAt := None; JobStep.etaSeconds := None; JobStep.durationMs := None |}.

(** The five steps [initializeJobSteps] creates when [n] rows were inserted
    before. *)
Definition created_steps (w : World) (jobId : string) (n : nat) : list JobStep.t :=
  [queued_step w jobId n "script"; queued_step w jobId (S n) "assets_visual";
   queued_step w jobId (S (S n)) "assets_audio"; queued_step w jobId (S (S (S n))) "video";
   queued_step w jobId (S (S (S (S n)))) "caption"].

(** *** Steps that are done *)

(** The job's step of type [s] is completed, or the job has no such step. *)
Definition done_or_absent (jobId s : string) (db : Store) : Prop :=
  match stepOf jobId s db with
  | Some st => st.(JobStep.status) = step_completed
  | None => True
  end.

(** A command of the [try] block that, when it returns on a job that
    exists, leaves the job in existence, keeps done the steps that were, and
    has settled the steps of the stages in [settled]. *)
Definition finishes (jobId : string) (settled : list string) {A} (c : Async A) : Prop :=
  forall m a,
    is_Some (jobRow jobId m.(db)) -> (c m).1 = Ok a ->
    is_Some (jobRow jobId (c m).2.(db)) /\
    (forall s, done_or_absent jobId s m.(db) -> done_or_absent jobId s (c m).2.(db)) /\
    (forall s, In s settled -> done_or_absent jobId s (c m).2.(db)).

(** ** server/videoWorker.ts: the in-memory queue *)

(** [jobQueue] and [isProcessing], with the ids [processJob] has been called
    with so far, in order (a ghost of the model).  Between two events of the
    server, [isProcessing] holds exactly while the loop of [processQueue] is
    suspended at [await processJob(jobId)]. *)
Record Pump : Type := {
  jobQueue : list string;
  isProcessing : bool;
  started : list string
}.

(** The loop of [processQueue] from its head.  An id that is falsy (the
    empty string) is shifted and skipped; the first other id is shifted and
    [processJob] is called with it and awaited; when the queue is empty the
    loop ends and [isProcessing] is reset. *)
Fixpoint drain (queue : list string) (ran : list string) : Pump :=
  match queue with
  | [] => {| jobQueue := []; isProcessing := false; started := ran |}
  | jobId :: rest =>
      if String.eqb jobId ""
      then drain rest ran
      else {| jobQueue := rest; isProcessing := true; started := ran ++ [jobId] |}
  end.

(** [enqueueJob(jobId)]: the id is pushed unless the queue includes it, then
    [processQueue()] is called, which returns at once while the loop is
    running. *)
Definition enqueueJob (jobId : string) (p : Pump) : Pump :=
  let queue := if bool_decide (jobId ∈ p.(jobQueue)) then p.(jobQueue)
               else p.(jobQueue) ++ [jobId] in
  if p.(isProcessing)
  then {| jobQueue := queue; isProcessing := true; started := p.(started) |}
  else drain queue p.(started).

(** The awaited [processJob] has returned and the loop goes on. *)
Definition jobDone (p : Pump) : Pump :=
  if p.(isProcessing) then drain p.(jobQueue) p.(started) else p.

(** What happens to the queue: a route or the startup scan enqueues an id,
    or the job in flight ends. *)
Inductive PumpEvent : Type :=
  | Enqueued (jobId : string)
  | JobDone.

Definition pumpStep (p : Pump) (ev : PumpEvent) : Pump :=
  match ev with
  | Enqueued jobId => enqueueJob jobId p
  | JobDone => jobDone p
  end.

(** The queue when the server starts. *)
Definition idlePump : Pump := {| jobQueue := []; isProcessing := false; started := [] |}.

(** The ids [processJob] was or will be called with, in order: those started
    and those waiting (a falsy id waits but is never started). *)
Definition history (p : Pump) : list string :=
  p.(started) ++ filter (fun jobId => jobId <> "") p.(jobQueue).

(** ** server/ai.ts: [buildScenes] *)

(** An element of [parsed.segments]: a string, or an object whose [text] is
    a string or is missing. *)
Inductive Segment : Type :=
  | SegmentString (s : Text)
  | SegmentObject (text : option Text).

(** The reply of the model once parsed, as far as [buildScenes] reads it:
    [script], and the arrays [segments] and [scenes] when they are there. *)
Record ParsedScript : Type := {
  parsed_script : option Text;
  parsed_segments : option (list Segment);
  parsed_scenes : option (list Segment)
}.

(** [typeof segment === 'string' ? segment : segment.text] *)
Definition segmentText (segment : Segment) : option Text :=
  match segment with
  | SegmentString s => Some s
  | SegmentObject text => text
  end.

(** [scenes.push({...}); currentTime += avgDuration] with [avgDuration = 5];
    the variables are [scenes] and [currentTime]. *)
Definition pushScene (vars : list Scene.t * float) (overlay voice : Text)
    : list Scene.t * float :=
  (vars.1 ++ [ {| Scene.id := "scene-" +:+ pretty (S (length vars.1));
                  Scene.index := Z.of_nat (length vars.1);
                  Scene.startTime := vars.2;
                  Scene.endTime := PrimFloat.add vars.2 5%float;
                  Scene.textOverlay := Some overlay;
                  Scene.voiceSegmentText := Some voice;
                  Scene.backgroundPrompt := None;
                  Scene.backgroundAssetUrl := None;
                  Scene.audioAssetUrl := None;
                  Scene.audioDurationSeconds := None |} ],
   PrimFloat.add vars.2 5%float).

(** [text.slice(0, 100)] *)
Definition slice100 (text : Text) : Text := take 100 text.

(** [for (const segment of segments)]: one scene per segment, with
    [textOverlay: text?.slice(0, 100) || ""] and
    [voiceSegmentText: text || ""]. *)
Definition scenesOfSegments (segments : list Segment) : list Scene.t * float :=
  foldl (fun vars segment =>
           let text := segmentText segment in
           pushScene vars (text_or (slice100 <$> text) []) (text_or text []))
        ([], 0%float) segments.

(** The code units of [.], [!] and [?]. *)
Definition is_sentence_end (c : N) : bool :=
  ((c =? 46) || (c =? 33) || (c =? 63))%N.

(** The pieces of [s] between the code units [delim] holds of. *)
Fixpoint split_on (delim : N -> bool) (s : Text) : list Text :=
  match s with
  | [] => [[]]
  | c :: r =>
      if delim c then [] :: split_on delim r
      else match split_on delim r with
           | piece :: pieces => (c :: piece) :: pieces
           | [] => [[c]]
           end
  end.

(** [script.split(/[.!?]+/).filter(s => s.trim())].  Splitting at every
    single delimiter yields the pieces the regular expression yields and
    empty pieces between adjacent delimiters, which the filter drops as it
    drops every blank piece. *)
Definition sentencesOf (script : Text) : list Text :=
  filter (fun piece => trim_is_empty piece = false) (split_on is_sentence_end script).

Fixpoint trimStart (s : Text) : Text :=
  match s with
  | [] => []
  | c :: r => if is_space c then trimStart r else s
  end.

Fixpoint trimEnd (s : Text) : Text :=
  match s with
  | [] => []
  | c :: r => if trim_is_empty s then [] else c :: trimEnd r
  end.

(** [String.prototype.trim] *)
Definition trim (s : Text) : Text := trimEnd (trimStart s).

(** [pieces.join(sep)] *)
Definition join (sep : Text) (pieces : list Text) : Text :=
  match pieces with
  | [] => []
  | piece :: rest => piece ++ flat_map (fun p => sep ++ p) rest
  end.

(** [Math.ceil(sentences.length / 6)] *)
Definition chunkSizeOf (n : nat) : nat := ((n + 5) / 6)%nat.

(** The values [i] takes in [for (let i = 0; i < n; i += chunkSize)]. *)
Definition chunkStarts (n chunkSize : nat) : list nat :=
  match chunkSize with
  | O => []
  | S _ => map (fun k => (k * chunkSize)%nat) (seq 0 ((n + chunkSize - 1) / chunkSize))
  end.

(** The loop over the chunks of sentences: [sentences.slice(i, i +
    chunkSize).join('. ').trim()] becomes a scene unless it is empty. *)
Definition scenesOfSentences (sentences : list Text) : list Scene.t * float :=
  let chunkSize := chunkSizeOf (length sentences) in
  foldl (fun vars i =>
           let text :=
             trim (join (text_of ". ") (take chunkSize (drop i sentences))) in
           match text with
           | [] => vars
           | _ :: _ => pushScene vars (slice100 text) text
           end)
        ([], 0%float) (chunkStarts (length sentences) chunkSize).

(** [buildScenes(parsed, contentType)]; the content type is not used. *)
Definition buildScenes (parsed : ParsedScript) : list Scene.t :=
  let segments :=
    match parsed.(parsed_segments) with
    | Some l => l
    | None => default [] parsed.(parsed_scenes)
    end in
  if (length segments =? 0)%nat && truthy_text parsed.(parsed_script)
  then (scenesOfSentences (sentencesOf (default [] parsed.(parsed_script)))).1
  else (scenesOfSegments segments).1.

(** A scene as [buildScenes] makes the [i]-th: numbered, named, and without
    prompt, assets or measured duration yet. *)
Definition fresh_scene (i : nat) (sc : Scene.t) : Prop :=
  sc.(Scene.index) = Z.of_nat i /\
  sc.(Scene.id) = "scene-" +:+ pretty (S i) /\
  sc.(Scene.backgroundPrompt) = None /\
  sc.(Scene.backgroundAssetUrl) = None /\
  sc.(Scene.audioAssetUrl) = None /\
  sc.(Scene.audioDurationSeconds) = None.

(** The variables of the loops of [buildScenes] between two iterations. *)
Definition scenes_built (vars : list Scene.t * float) : Prop :=
  (forall i sc, vars.1 !! i = Some sc -> fresh_scene i sc) /\
  chained 0%float vars.1 /\
  vars.2 = foldl PrimFloat.add 0%float (sceneDurations vars.1).


(** A reply with two segments, the second without text. *)
Definition sample_reply : ParsedScript :=
  {| parsed_script := Some (text_of "Two facts.");
     parsed_segments := Some [SegmentString (text_of "Honey never spoils.");
                              SegmentObject None];
     parsed_scenes := None |}.

(** *** Calls of the generators *)

Definition is_generateImage (svc : Service) : bool :=
  match svc with
  | Svc_generateImage => true
  | _ => false
  end.

Definition is_generateSpeech (svc : Service) : bool :=
  match svc with
  | Svc_generateSpeech => true
  | _ => false
  end.

(** How many of the events are calls of a service [paid] holds of. *)
Definition spent (paid : Service -> bool) (evs : list Event) : nat :=
  length (List.filter paid (calls_of evs)).

(** A command that calls the services [paid] holds of at most [n] times. *)
Definition spends (paid : Service -> bool) (n : nat) {A} (c : Async A) : Prop :=
  forall m, exists evs, (c m).2.(trace) = m.(trace) ++ evs /\ (spent paid evs <= n)%nat.

(** [if (scene.backgroundAssetUrl)] and [if (scene.audioAssetUrl)] fail. *)
Definition lacksImage (scene : Scene.t) : bool :=
  negb (truthy_str scene.(Scene.backgroundAssetUrl)).

Definition lacksAudio (scene : Scene.t) : bool :=
  negb (truthy_str scene.(Scene.audioAssetUrl)).

(** The scenes a stage works on once it has reloaded them: those of the job
    record when it has some, else those already in the context. *)
Definition scenesAtHand (jobId : string) (m : Machine) : list Scene.t :=
  default [] (match jobRow jobId m.(db) ≫= Job.scenes with
              | Some ss => Some ss
              | None => m.(context).(scenes)
              end).

(** The scenes of [l] from the [from]-th, [count] of them at most, that
    [lacks] holds of. *)
Definition lacking (lacks : Scene.t -> bool) (count from : nat) (l : list Scene.t) : nat :=
  length (List.filter lacks (take count (drop from l))).

(** *** The stage a run is in *)

(** The stage functions a stretch of the log enters, in order. *)
Definition stages_of (evs : list Event) : list string :=
  flat_map (fun ev => match ev with
                      | EvStage s => [s]
                      | _ => []
                      end) evs.

(** The stage function entered last. *)
Definition last_stage (evs : list Event) : option string := last (stages_of evs).

(** How a command of the [try] block leaves the steps, [evs] being what it
    logged.  When it entered no stage function the steps table is as it
    was, and the only error it can throw is the cancellation found by a poll
    between the stages.  Otherwise, [s] being the stage entered last: when
    the command returns the step of [s] is completed; when it throws, the
    step of [s] is failed with the error's text, unless the error is the
    cancellation found by a poll after [s] was completed. *)
Definition settled (jobId : string) (r : option Thrown) (evs : list Event)
    (before after : Store) : Prop :=
  match last_stage evs, r with
  | None, None => after.(jobSteps) = before.(jobSteps)
  | None, Some e =>
      e = JsError "Cancelled by user" /\ after.(jobSteps) = before.(jobSteps)
  | Some s, None => step_is_completed jobId s after
  | Some s, Some e =>
      step_is_failed jobId s e after \/
      (e = JsError "Cancelled by user" /\ step_is_completed jobId s after)
  end.

Definition settles (jobId : string) {A} (c : Async A) : Prop :=
  forall m, exists evs,
    (c m).2.(trace) = m.(trace) ++ evs /\
    settled jobId (thrown (c m).1) evs m.(db) (c m).2.(db).

(** A command that throws nothing but the cancellation. *)
Definition throws_cancellation_only {A} (c : Async A) : Prop :=
  forall m e, thrown (c m).1 = Some e -> e = JsError "Cancelled by user".

(** *** Hearing a cancel request *)

(** The calls a stage, or the work on one scene of a loop, begins with. *)
Definition opens (svc : Service) : bool :=
  match svc with
  | Svc_generateScript | Svc_generateImagePrompt | Svc_generateSpeech
  | Svc_renderVideo | Svc_generateCaptionAndHashtags => true
  | _ => false
  end.

(** A cancel request for the job is posted while the call is pending. *)
Definition hears (w : World) (jobId : string) (ev : Event) : bool :=
  match ev with
  | EvCall t _ => bool_decide (w.(cancelPosted) t = Some jobId)
  | _ => false
  end.

(** A request was posted before the events [evs] or during one of them. *)
Definition told_after (w : World) (jobId : string) (told : bool) (evs : list Event)
    : bool :=
  told || existsb (hears w jobId) evs.

(** What the worker may do next, a request having been posted ([told]) or
    not: a poll finds exactly what was posted; a stage function is entered,
    and a stage or a scene is begun, only while nothing was posted. *)
Definition allowed (told : bool) (ev : Event) : Prop :=
  match ev with
  | EvPoll cancelled => cancelled = told
  | EvStage _ => told = false
  | EvCall _ svc => opens svc = true -> told = false
  | EvUpdateJob _ _ => True
  end.

(** Each event of [evs] is allowed by what was posted before it. *)
Fixpoint heeded (w : World) (jobId : string) (told : bool) (evs : list Event) : Prop :=
  match evs with
  | [] => True
  | ev :: evs' => allowed told ev /\ heeded w jobId (told || hears w jobId ev) evs'
  end.

(** The cancellation flag of the job as a poll reads it, while the job is
    there and in no terminal state, that is, while the cancel endpoint
    accepts a request for it. *)
Definition heard (jobId : string) (d : Store) : option bool :=
  match jobRow jobId d with
  | Some j => if terminal j.(Job.status) then None
              else Some (bool_decide (j.(Job.cancelRequested) = Some true))
  | None => None
  end.

(** The update leaves the key and the cancellation flag alone and ends no
    job. *)
Definition tame (updates : list Job.Assign) : bool :=
  forallb (fun a => match a with
                    | Job.Set_id _ | Job.Set_cancelRequested _ => false
                    | Job.Set_status s => negb (terminal s)
                    | _ => true
                    end) updates.

(** The event is a write to the job record. *)
Definition written (ev : Event) : Prop :=
  match ev with
  | EvUpdateJob _ _ => True
  | _ => False
  end.

(** A command that neither polls, nor enters a stage, nor awaits a service,
    and leaves the flag of a job in progress as it is. *)
Definition mute (jobId : string) {A} (c : Async A) : Prop :=
  forall m told,
    heard jobId m.(db) = Some told ->
    heard jobId (c m).2.(db) = Some told /\
    exists evs, (c m).2.(trace) = m.(trace) ++ evs /\ Forall written evs.

(** A command of a run on a job in progress heeds the requests posted:
    what it logs is allowed by them, and the flag it leaves is set exactly
    when one was posted.  [p] says that no request was posted when the
    command starts, [q] that none was when it returns. *)
Definition heeds (w : World) (jobId : string) (p : bool) {A} (c : Async A) (q : bool)
    : Prop :=
  forall m told,
    heard jobId m.(db) = Some told -> (p = true -> told = false) ->
    exists evs,
      (c m).2.(trace) = m.(trace) ++ evs /\
      heeded w jobId told evs /\
      heard jobId (c m).2.(db) = Some (told_after w jobId told evs) /\
      (q = true -> forall a, (c m).1 = Ok a -> told_after w jobId told evs = false).

(** The same of a command that may end the job. *)
Definition heeds_to_end (w : World) (jobId : string) (p : bool) {A} (c : Async A)
    : Prop :=
  forall m told,
    heard jobId m.(db) = Some told -> (p = true -> told = false) ->
    exists evs, (c m).2.(trace) = m.(trace) ++ evs /\ heeded w jobId told evs.

(** Every call of [evs] is made for the stage entered last, [cur] being the
    stage entered last before [evs]. *)
Fixpoint staged (cur : option string) (evs : list Event) : Prop :=
  match evs with
  | [] => True
  | ev :: evs' =>
      match ev with
      | EvCall _ svc => cur = Some (stage_of svc)
      | _ => True
      end /\
      staged (match ev with
              | EvStage s => Some s
              | _ => cur
              end) evs'
  end.

(** A command whose calls are made for the stage it entered last. *)
Definition stages {A} (c : Async A) : Prop :=
  forall m, exists evs,
    (c m).2.(trace) = m.(trace) ++ evs /\ forall cur, staged cur evs.

(** A call of a stage before the last was made and no poll has followed it
    yet ([pending] says so of the events before [ev]). *)
Definition unpolled (pending : bool) (ev : Event) : bool :=
  match ev with
  | EvPoll _ => false
  | EvCall _ svc => pending || negb (String.eqb (stage_of svc) "caption")
  | _ => pending
  end.

(** A command that, when it returns, has polled after its last call of a
    stage before the last. *)
Definition polls_last {A} (c : Async A) : Prop :=
  forall m a,
    (c m).1 = Ok a ->
    exists evs, (c m).2.(trace) = m.(trace) ++ evs /\
                forall pending, foldl unpolled pending evs = false.

(** A command whose calls, if any, are of the last stage. *)
Definition closes {A} (c : Async A) : Prop :=
  forall m, exists evs,
    (c m).2.(trace) = m.(trace) ++ evs /\ foldl unpolled false evs = false.

(** A world in which the client posts the cancel request while the script
    service, the first external call of the run, is pending. *)
Definition early_cancel_world : World :=
  sample_world (fun t => if decide (t = 0%nat) then Some "job-1" else None)
    (fun _ => Ok "png") (sample_render 5%float 250000).

(** A world in which speech generation fails for every scene. *)
Definition failing_speech_world : World :=
  {| WORKER_ID := quiet_world.(WORKER_ID); clock := quiet_world.(clock);
     uuid := quiet_world.(uuid); md5hex8 := quiet_world.(md5hex8);
     databaseError := quiet_world.(databaseError);
     cancelPosted := quiet_world.(cancelPosted);
     scriptReply := quiet_world.(scriptReply);
     imagePromptReply := quiet_world.(imagePromptReply);
     imageReply := quiet_world.(imageReply); uploadReply := quiet_world.(uploadReply);
     speechReply := fun _ => Throw (JsError "speech service unavailable");
     downloadReply := quiet_world.(downloadReply);
     ffprobeReply := quiet_world.(ffprobeReply);
     renderReply := quiet_world.(renderReply);
     captionReply := quiet_world.(captionReply) |}.

(** * Properties *)

(** ** Storage *)

Lemma filter_updated_rows (f : Job.t -> Job.t) (id : string) (l : list Job.t) :
  (forall j, (f j).(Job.id) = j.(Job.id)) ->
  filter (fun j => j.(Job.id) = id)
         (map (fun j => if bool_decide (j.(Job.id) = id) then f j else j) l)
  = map f (filter (fun j => j.(Job.id) = id) l).
Proof.
  intros Hid. induction l as [|j l IH]; [reflexivity|].
  cbn [map]. destruct (decide (j.(Job.id) = id)) as [E|N].
  - rewrite bool_decide_eq_true_2 by exact E.
    rewrite !filter_cons_True by (rewrite ?Hid; exact E).
    cbn [map]. now rewrite IH.
  - rewrite bool_decide_eq_false_2 by exact N.
    rewrite !filter_cons_False by exact N. exact IH.
Qed.

Lemma setLease_id owner now ttl j : (DatabaseStorage.setLease owner now ttl j).(Job.id) = j.(Job.id).
Proof. reflexivity. Qed.

Lemma acquire_success_inv jobId owner ttl now db :
  (DatabaseStorage.acquireJobLock jobId owner ttl now db).1 = true ->
  exists j, jobRow jobId db = Some j /\ DatabaseStorage.leaseFree j now = true /\
    DatabaseStorage.acquireJobLock jobId owner ttl now db
    = (true, with_jobs (map (fun r => if bool_decide (r.(Job.id) = jobId)
                                      then DatabaseStorage.setLease owner now ttl r else r)
                            db.(jobs)) db).
Proof.
  unfold DatabaseStorage.acquireJobLock, jobRow.
  destruct (filter _ (jobs db)) as [|j rest]; [discriminate|].
  destruct (DatabaseStorage.leaseFree j now) eqn:F; [|discriminate].
  intros _. exists j. auto.
Qed.

Lemma leaseFree_spec j now : DatabaseStorage.leaseFree j now = true <-> lease_free j now.
Proof.
  unfold DatabaseStorage.leaseFree, DatabaseStorage.leaseExpired, lease_free.
  destruct (Job.lockedBy j) as [o|]; [|tauto].
  destruct (Job.leaseExpiresAt j) as [e|].
  - rewrite Z.ltb_lt. split.
    + intros H. right. eauto.
    + intros [H|(e' & H & Hlt)]; [discriminate|]. congruence.
  - split; [discriminate|]. intros [H|(e' & H & _)]; discriminate.
Qed.

Lemma acquire_while_held jobId o1 o2 ttl t1 t2 db j :
  jobRow jobId db = Some j ->
  t2 <= t1 + DatabaseStorage.seconds ttl ->
  DatabaseStorage.acquireJobLock jobId o2 ttl t2
    (with_jobs (map (fun r => if bool_decide (r.(Job.id) = jobId)
                              then DatabaseStorage.setLease o1 t1 ttl r else r) db.(jobs)) db)
  = (false,
     with_jobs (map (fun r => if bool_decide (r.(Job.id) = jobId)
                              then DatabaseStorage.setLease o1 t1 ttl r else r) db.(jobs)) db).
Proof.
  unfold jobRow, DatabaseStorage.acquireJobLock. intros Hrow Hle.
  cbn [jobs with_jobs].
  rewrite (filter_updated_rows (DatabaseStorage.setLease o1 t1 ttl)) by apply setLease_id.
  destruct (filter _ (jobs db)) as [|j0 rest]; [discriminate|].
  cbn [map]. unfold DatabaseStorage.leaseFree, DatabaseStorage.leaseExpired. cbn.
  destruct (Z.ltb_spec (t1 + DatabaseStorage.seconds ttl) t2); [lia|reflexivity].
Qed.

(** C2. A lease is granted only on a job whose lease is free (none recorded,
    or expired); granting it records the owner, the time and the expiry
    [now + ttl] on the job in the same transition; and of two acquisitions
    of one job, the second no later than the expiry the first would set, at
    most one succeeds, exactly one when the lease was free at the first. *)
Theorem acquire_at_most_one_owner (db : Store) (jobId o1 o2 : string) (ttl t1 t2 : Z) :
  t2 <= t1 + DatabaseStorage.seconds ttl ->
  let first := DatabaseStorage.acquireJobLock jobId o1 ttl t1 db in
  let second := DatabaseStorage.acquireJobLock jobId o2 ttl t2 first.2 in
  (first.1 = true -> exists j, jobRow jobId db = Some j /\ lease_free j t1) /\
  (first.1 = true ->
   forall j, j ∈ first.2.(jobs) -> j.(Job.id) = jobId -> lease_held j o1 t1 ttl) /\
  (first.1 && second.1 = false) /\
  ((exists j, jobRow jobId db = Some j /\ lease_free j t1) ->
   first.1 = true /\ second.1 = false).
Proof.
  intros Httl first second.
  assert (Hsucc : first.1 = true -> second.1 = false).
  { intros Hf. destruct (acquire_success_inv _ _ _ _ _ Hf) as (j & Hrow & _ & Heq).
    subst second. fold first in Heq. rewrite Heq. cbn [snd].
    now rewrite (acquire_while_held jobId o1 o2 ttl t1 t2 db j Hrow Httl). }
  repeat split.
  - intros Hf. destruct (acquire_success_inv _ _ _ _ _ Hf) as (j & Hrow & Hfree & _).
    exists j. split; [exact Hrow|]. now apply leaseFree_spec.
  - destruct (acquire_success_inv _ _ _ _ _ H) as (j0 & _ & _ & Heq).
    fold first in Heq. rewrite Heq in H0. cbn [snd with_jobs jobs] in H0.
    apply list_elem_of_In, in_map_iff in H0. destruct H0 as (r & Hr & _).
    destruct (decide (Job.id r = jobId)) as [E|N].
    + rewrite bool_decide_eq_true_2 in Hr by exact E. now subst j.
    + rewrite bool_decide_eq_false_2 in Hr by exact N. congruence.
  - destruct (acquire_success_inv _ _ _ _ _ H) as (j0 & _ & _ & Heq).
    fold first in Heq. rewrite Heq in H0. cbn [snd with_jobs jobs] in H0.
    apply list_elem_of_In, in_map_iff in H0. destruct H0 as (r & Hr & _).
    destruct (decide (Job.id r = jobId)) as [E|N].
    + rewrite bool_decide_eq_true_2 in Hr by exact E. now subst j.
    + rewrite bool_decide_eq_false_2 in Hr by exact N. congruence.
  - destruct (acquire_success_inv _ _ _ _ _ H) as (j0 & _ & _ & Heq).
    fold first in Heq. rewrite Heq in H0. cbn [snd with_jobs jobs] in H0.
    apply list_elem_of_In, in_map_iff in H0. destruct H0 as (r & Hr & _).
    destruct (decide (Job.id r = jobId)) as [E|N].
    + rewrite bool_decide_eq_true_2 in Hr by exact E. now subst j.
    + rewrite bool_decide_eq_false_2 in Hr by exact N. congruence.
  - destruct (first.1) eqn:Hf; [|reflexivity]. now rewrite Hsucc.
  - destruct H as (j & Hrow & Hfree). apply leaseFree_spec in Hfree.
    subst first. unfold DatabaseStorage.acquireJobLock. unfold jobRow in Hrow.
    destruct (filter _ (jobs db)) as [|j0 rest]; [discriminate|].
    cbn in Hrow. injection Hrow as ->. now rewrite Hfree.
  - apply Hsucc. destruct H as (j & Hrow & Hfree). apply leaseFree_spec in Hfree.
    subst first. unfold DatabaseStorage.acquireJobLock. unfold jobRow in Hrow.
    destruct (filter _ (jobs db)) as [|j0 rest]; [discriminate|].
    cbn in Hrow. injection Hrow as ->. now rewrite Hfree.
Qed.

(** The witness: two workers race for the freshly created sample job one
    second apart under the worker's two-minute lease. *)
Lemma acquire_at_most_one_owner_witness :
  let first := DatabaseStorage.acquireJobLock "job-1" "worker-a" 120 1000 sample_db in
  let second := DatabaseStorage.acquireJobLock "job-1" "worker-b" 120 2000 first.2 in
  first.1 = true /\ second.1 = false.
Proof.
  apply (acquire_at_most_one_owner sample_db "job-1" "worker-a" "worker-b" 120 1000 2000).
  - vm_compute. discriminate.
  - exists sample_job. split; [reflexivity|]. left. reflexivity.
Defined.

(** ** The cancel endpoint *)

Lemma Forall2_map_same {A} (P : A -> A -> Prop) (f : A -> A) (l : list A) :
  (forall x, P x (f x)) -> Forall2 P l (map f l).
Proof. intros H. induction l; constructor; auto. Qed.

(** C9, as the code has it.  A request for an unknown job is answered 404 and
    one for a completed or failed job 400, the store staying as it was;
    any other request is answered 200 and sets [cancelRequested] on the job,
    stamps its [updatedAt] with the current time, and leaves every other
    column of the job, every other job and every other table as they were. *)
Theorem cancel_sets_flag_and_stamp (id : string) (now : Z) (db : Store) :
  match DatabaseStorage.getJob id db with
  | None => cancelJob id now db = (404, db)
  | Some j =>
      if terminal j.(row).(Job.status)
      then cancelJob id now db = (400, db)
      else (cancelJob id now db).1 = 200 /\
           cancel_touches (flag_set_and_stamped now) id db (cancelJob id now db).2
  end.
Proof.
  unfold cancelJob. destruct (DatabaseStorage.getJob id db) as [j|]; [|reflexivity].
  destruct (Job.status (row j)); cbn [terminal fst snd]; try reflexivity;
    (split; [reflexivity|]);
    (split; [|repeat split; reflexivity]);
    cbn [DatabaseStorage.updatedJobs with_jobs jobs];
    apply Forall2_map_same; intros x; destruct (bool_decide _);
    try reflexivity; repeat split; reflexivity.
Qed.

(** C9, as stated, fails on the sample job: after the request its
    [updatedAt] is the time of the request, so the row is not the old one
    with only the flag set. *)
Lemma cancel_only_flag_counterexample :
  (cancelJob "job-1" 5000 sample_db).1 = 200 /\
  ~ cancel_touches only_flag_set "job-1" sample_db (cancelJob "job-1" 5000 sample_db).2.
Proof.
  split; [reflexivity|]. intros [H _]. vm_compute in H.
  inversion H as [|? ? ? ? Hrow _]; subst. discriminate Hrow.
Qed.

(** ** The integrity verifier *)

Lemma integrity_rejects_nonpositive_duration code stderr data stat :
  PrimFloat.leb data.(format_duration) 0%float = true ->
  (checkVideoIntegrity (ProbeClosed code stderr (Some data)) stat).(valid) = false.
Proof.
  intros H. unfold checkVideoIntegrity. destruct (negb (code =? 0)); [reflexivity|].
  now rewrite H.
Qed.

Lemma integrity_rejects_small_file run size :
  size < 10000 -> (checkVideoIntegrity run (StatSize size)).(valid) = false.
Proof.
  intros H. unfold checkVideoIntegrity. destruct run as [msg|code stderr [data|]];
    [reflexivity| |destruct (negb (code =? 0)); reflexivity].
  destruct (negb (code =? 0)); [reflexivity|].
  destruct (PrimFloat.leb _ _); [reflexivity|].
  destruct (Z.ltb_spec size 10000); [reflexivity|lia].
Qed.

(** Every rejection carries an error text. *)
Lemma integrity_error_text run stat :
  (checkVideoIntegrity run stat).(valid) = false ->
  exists msg, (checkVideoIntegrity run stat).(error) = Some msg.
Proof.
  unfold checkVideoIntegrity. destruct run as [msg|code stderr [data|]]; cbn; eauto.
  - destruct (negb (code =? 0)); cbn; eauto.
    destruct (PrimFloat.leb _ _); cbn; eauto.
    destruct stat as [size|]; cbn; eauto.
    destruct (size <? 10000); cbn; eauto. discriminate.
  - destruct (negb (code =? 0)); cbn; eauto.
Qed.

(** C5.  The verifier accepts a ten-second file of 50 kB whose only stream is
    a 640x480 video stream: the missing audio stream and the resolution are
    reported, not checked. *)
Theorem integrity_ignores_audio_and_resolution :
  checkVideoIntegrity silent_small_probe (StatSize 50000)
  = {| valid := true; error := None; ic_duration := Some 10%float;
       hasAudio := Some false; width := Some 640; height := Some 480 |}.
Proof. reflexivity. Qed.

(** ** The worker: what a stage may do *)

Lemma bind_run {A B} (c : Async A) (k : A -> Async B) (m : Machine) :
  bind c k m = match c m with
               | (Ok a, m') => k a m'
               | (Throw e, m') => (Throw e, m')
               end.
Proof. reflexivity. Qed.

Lemma calm_app w evs1 evs2 : calm w evs1 -> calm w evs2 -> calm w (evs1 ++ evs2).
Proof. unfold calm. intros. now apply Forall_app. Qed.

Lemma ends_with_fatal_app w evs1 evs2 ev e :
  calm w evs1 -> ends_with_fatal w evs2 ev e -> ends_with_fatal w (evs1 ++ evs2) ev e.
Proof.
  intros H1 (pre & -> & Hpre & Hev). exists (evs1 ++ pre).
  split; [now rewrite app_assoc|]. split; [now apply calm_app|exact Hev].
Qed.

Lemma stage_frame_refl m : stage_frame m m.
Proof. split; reflexivity. Qed.

Lemma stage_frame_trans m1 m2 m3 :
  stage_frame m1 m2 -> stage_frame m2 m3 -> stage_frame m1 m3.
Proof. intros [A1 B1] [A2 B2]. split; congruence. Qed.

Section StagePass.

Variable w : World.
Variable s : string.

Lemma quiet_graceful {A} (c : Async A) : quiet w s c -> graceful w s c.
Proof.
  intros H m. destruct (H m) as (F & evs & T & W & C).
  split; [exact F|]. exists evs. auto.
Qed.

Lemma quiet_ret {A} (a : A) : quiet w s (ret a).
Proof.
  intros m. split; [apply stage_frame_refl|]. exists []. cbn.
  rewrite app_nil_r. repeat split; constructor.
Qed.

Lemma quiet_throw {A} (e : Thrown) : quiet w s (@throw A e).
Proof.
  intros m. split; [apply stage_frame_refl|]. exists []. cbn.
  rewrite app_nil_r. repeat split; constructor.
Qed.

Lemma quiet_bind {A B} (c : Async A) (k : A -> Async B) :
  quiet w s c -> (forall a, quiet w s (k a)) -> quiet w s (bind c k).
Proof.
  intros Hc Hk m. rewrite bind_run.
  destruct (Hc m) as (F & evs & T & W & C). destruct (c m) as [[a|e] m1]; cbn in *.
  - destruct (Hk a m1) as (F2 & evs2 & T2 & W2 & C2).
    split; [eapply stage_frame_trans; eauto|].
    exists (evs ++ evs2). rewrite T2, T, app_assoc.
    repeat split; [now apply Forall_app|now apply calm_app].
  - split; [exact F|]. exists evs. auto.
Qed.

Lemma quiet_catch {A} (c : Async A) (h : Thrown -> Async A) :
  quiet w s c -> (forall e, quiet w s (h e)) -> quiet w s (try_catch c h).
Proof.
  intros Hc Hh m. unfold try_catch.
  destruct (Hc m) as (F & evs & T & W & C). destruct (c m) as [[a|e] m1]; cbn in *.
  - split; [exact F|]. exists evs. auto.
  - destruct (Hh e m1) as (F2 & evs2 & T2 & W2 & C2).
    split; [eapply stage_frame_trans; eauto|].
    exists (evs ++ evs2). rewrite T2, T, app_assoc.
    repeat split; [now apply Forall_app|now apply calm_app].
Qed.

Lemma quiet_for_loop {St} (body : nat -> St -> Async St) (count from : nat) (st : St) :
  (forall i x, quiet w s (body i x)) -> quiet w s (for_loop count from body st).
Proof.
  intros Hb. revert from st. induction count as [|count IH]; intros from st; cbn.
  - apply quiet_ret.
  - apply quiet_bind; [apply Hb|]. intros x. apply IH.
Qed.

Lemma graceful_bind {A B} (c : Async A) (k : A -> Async B) :
  graceful w s c -> (forall a, graceful w s (k a)) -> graceful w s (bind c k).
Proof.
  intros Hc Hk m. rewrite bind_run.
  destruct (Hc m) as (F & evs & T & W & C). destruct (c m) as [[a|e] m1]; cbn in *.
  - destruct C as [C|(ev & e & Habs & _)]; [|discriminate].
    destruct (Hk a m1) as (F2 & evs2 & T2 & W2 & C2).
    split; [eapply stage_frame_trans; eauto|].
    exists (evs ++ evs2). rewrite T2, T, app_assoc.
    repeat split; [now apply Forall_app|].
    destruct C2 as [C2|(ev & e & R & E)].
    + left. now apply calm_app.
    + right. exists ev, e. split; [exact R|]. now apply ends_with_fatal_app.
  - split; [exact F|]. exists evs. split; [exact T|]. split; [exact W|exact C].
Qed.

(** A [catch] that swallows the error must guard a quiet block. *)
Lemma graceful_catch {A} (c : Async A) (h : Thrown -> Async A) :
  quiet w s c -> (forall e, graceful w s (h e)) -> graceful w s (try_catch c h).
Proof.
  intros Hc Hh m. unfold try_catch.
  destruct (Hc m) as (F & evs & T & W & C). destruct (c m) as [[a|e] m1]; cbn in *.
  - split; [exact F|]. exists evs. auto.
  - destruct (Hh e m1) as (F2 & evs2 & T2 & W2 & C2).
    split; [eapply stage_frame_trans; eauto|].
    exists (evs ++ evs2). rewrite T2, T, app_assoc.
    repeat split; [now apply Forall_app|].
    destruct C2 as [C2|(ev & e' & R & E)].
    + left. now apply calm_app.
    + right. exists ev, e'. split; [exact R|]. now apply ends_with_fatal_app.
Qed.

Lemma graceful_finally_nothing {A} (c : Async A) :
  graceful w s c -> graceful w s (try_finally c (ret tt)).
Proof.
  intros Hc m. unfold try_finally. specialize (Hc m).
  destruct (c m) as [r m1]; cbn in *. exact Hc.
Qed.

Lemma graceful_for_loop {St} (body : nat -> St -> Async St) (count from : nat) (st : St) :
  (forall i x, graceful w s (body i x)) -> graceful w s (for_loop count from body st).
Proof.
  intros Hb. revert from st. induction count as [|count IH]; intros from st; cbn.
  - apply quiet_graceful, quiet_ret.
  - apply graceful_bind; [apply Hb|]. intros x. apply IH.
Qed.

(** *** Primitives *)

Lemma quiet_log ev : within s ev -> fatal w ev = None -> quiet w s (log ev).
Proof.
  intros W F m. split; [split; reflexivity|]. exists [ev]. cbn.
  repeat split; repeat constructor; assumption.
Qed.

Lemma quiet_getContext : quiet w s getContext.
Proof.
  intros m. split; [apply stage_frame_refl|]. exists []. cbn.
  rewrite app_nil_r. repeat split; constructor.
Qed.

Lemma quiet_setContext c : quiet w s (setContext c).
Proof.
  intros m. split; [split; reflexivity|]. exists []. cbn.
  rewrite app_nil_r. repeat split; constructor.
Qed.

Lemma quiet_readDb {A} (f : Store -> A) : quiet w s (readDb f).
Proof.
  intros m. split; [apply stage_frame_refl|]. exists []. cbn.
  rewrite app_nil_r. repeat split; constructor.
Qed.

Lemma quiet_writeDb (f : Store -> Store) :
  (forall d, (f d).(jobSteps) = d.(jobSteps) /\
             map Job.id (f d).(jobs) = map Job.id d.(jobs)) ->
  quiet w s (writeDb f).
Proof.
  intros Hf m. split; [exact (Hf m.(db))|]. exists []. cbn.
  rewrite app_nil_r. repeat split; constructor.
Qed.

Lemma quiet_awaitWrite (statement : Store -> Written) :
  (forall d d', statement d = Stored d' ->
                d'.(jobSteps) = d.(jobSteps) /\
                map Job.id d'.(jobs) = map Job.id d.(jobs)) ->
  quiet w s (awaitWrite w statement).
Proof.
  intros Hf m. unfold awaitWrite.
  destruct (statement (db m)) as [d'|why] eqn:E; cbn [fst snd].
  - split; [exact (Hf _ _ E)|]. exists []. cbn.
    rewrite app_nil_r. repeat split; constructor.
  - split; [apply stage_frame_refl|]. exists []. cbn.
    rewrite app_nil_r. repeat split; constructor.
Qed.

Lemma quiet_Date_now : quiet w s (Date_now w).
Proof.
  intros m. split; [apply stage_frame_refl|]. exists []. cbn.
  rewrite app_nil_r. repeat split; constructor.
Qed.

End StagePass.

(** *** The storage layer keeps the frame *)

Lemma foldl_assign_id (updates : list Job.Assign) (j : Job.t) :
  keeps_id updates = true ->
  (foldl (fun r a => Job.assign a r) j updates).(Job.id) = j.(Job.id).
Proof.
  revert j. induction updates as [|a updates IH]; intros j H; [reflexivity|].
  cbn in H. apply andb_true_iff in H as [Ha H]. cbn [foldl]. rewrite IH by exact H.
  destruct a; try reflexivity. discriminate.
Qed.

Lemma applyJobUpdates_id updates now j :
  keeps_id updates = true ->
  (DatabaseStorage.applyJobUpdates updates now j).(Job.id) = j.(Job.id).
Proof.
  intros H. unfold DatabaseStorage.applyJobUpdates. apply foldl_assign_id.
  unfold keeps_id in *. rewrite forallb_app, H. reflexivity.
Qed.

Lemma map_id_updated_rows (f : Job.t -> Job.t) (id : string) (l : list Job.t) :
  (forall j, (f j).(Job.id) = j.(Job.id)) ->
  map Job.id (map (fun j => if bool_decide (j.(Job.id) = id) then f j else j) l)
  = map Job.id l.
Proof.
  intros Hid. induction l as [|j l IH]; [reflexivity|]. cbn [map]. rewrite IH.
  destruct (bool_decide _); [rewrite Hid|]; reflexivity.
Qed.

Lemma updateJob_frame id updates now d :
  keeps_id updates = true ->
  (DatabaseStorage.updatedJobs id updates now d).(jobSteps) = d.(jobSteps) /\
  map Job.id (DatabaseStorage.updatedJobs id updates now d).(jobs) = map Job.id d.(jobs).
Proof.
  intros H. split; [reflexivity|]. cbn.
  apply map_id_updated_rows. intros j. now apply applyJobUpdates_id.
Qed.

Lemma updateJob_stored id updates now d d' :
  DatabaseStorage.updateJob id updates now d = Stored d' ->
  d' = DatabaseStorage.updatedJobs id updates now d.
Proof.
  unfold DatabaseStorage.updateJob. destruct (head _); [discriminate|]. now intros [= <-].
Qed.

Lemma createAsset_stored uuid a now d d' :
  DatabaseStorage.createAsset uuid a now d = Stored d' ->
  d' = DatabaseStorage.insertedAsset uuid a now d.
Proof.
  unfold DatabaseStorage.createAsset. destruct (filter _ _); [discriminate|].
  now intros [= <-].
Qed.

(** An update whose values the columns take goes through. *)
Lemma storage_updateJob_run w id updates (m : Machine) :
  head (omap DatabaseStorage.misfit updates) = None ->
  storage_updateJob w id updates m
  = (Ok tt, {| db := DatabaseStorage.updatedJobs id updates (w.(clock) m.(calls)) m.(db);
               calls := m.(calls);
               trace := m.(trace) ++ [EvUpdateJob id updates];
               context := m.(context) |}).
Proof.
  intros H. unfold storage_updateJob, Date_now, awaitWrite, DatabaseStorage.updateJob.
  rewrite !bind_run. cbn beta iota. cbn [db]. rewrite H. reflexivity.
Qed.

(** An update goes through, or is refused and leaves the machine as it was. *)
Lemma storage_updateJob_cases w id updates (m : Machine) :
  storage_updateJob w id updates m
  = (Ok tt, {| db := DatabaseStorage.updatedJobs id updates (w.(clock) m.(calls)) m.(db);
               calls := m.(calls);
               trace := m.(trace) ++ [EvUpdateJob id updates];
               context := m.(context) |}) \/
  exists e, storage_updateJob w id updates m = (Throw e, m).
Proof.
  destruct (head (omap DatabaseStorage.misfit updates)) as [value|] eqn:H.
  - right. unfold storage_updateJob, Date_now, awaitWrite, DatabaseStorage.updateJob.
    rewrite !bind_run. cbn beta iota. cbn [db]. rewrite H. eauto.
  - left. now apply storage_updateJob_run.
Qed.

Ltac taken :=
  first [ reflexivity
        | match goal with |- context [etaField ?r _] => destruct r end; reflexivity ].

Lemma cancelJob_frame id now d :
  (cancelJob id now d).2.(jobSteps) = d.(jobSteps) /\
  map Job.id (cancelJob id now d).2.(jobs) = map Job.id d.(jobs).
Proof.
  unfold cancelJob. destruct (DatabaseStorage.getJob id d) as [j|]; [|auto].
  destruct (Job.status (row j)); cbn [snd]; auto; now apply updateJob_frame.
Qed.

Lemma updateLastProgress_frame id now d :
  (DatabaseStorage.updateLastProgress id now d).(jobSteps) = d.(jobSteps) /\
  map Job.id (DatabaseStorage.updateLastProgress id now d).(jobs) = map Job.id d.(jobs).
Proof. split; [reflexivity|]. cbn. now apply map_id_updated_rows. Qed.

Lemma releaseJobLock_frame id owner d :
  (DatabaseStorage.releaseJobLock id owner d).(jobSteps) = d.(jobSteps) /\
  map Job.id (DatabaseStorage.releaseJobLock id owner d).(jobs) = map Job.id d.(jobs).
Proof. split; [reflexivity|]. cbn. now apply map_id_updated_rows. Qed.

Lemma setSetting_frame k v now d :
  (DatabaseStorage.setSetting k v now d).(jobSteps) = d.(jobSteps) /\
  map Job.id (DatabaseStorage.setSetting k v now d).(jobs) = map Job.id d.(jobs).
Proof.
  unfold DatabaseStorage.setSetting.
  destruct (DatabaseStorage.getSetting k d); split; reflexivity.
Qed.

Section StagePrimitives.

Variable w : World.
Variable s : string.

Lemma quiet_external {A} svc (reply : nat -> Outcome A) :
  stage_of svc = s -> (forall t, fatal w (EvCall t svc) = None) ->
  quiet w s (external w svc reply).
Proof.
  intros Hs Hf m. split.
  - unfold external; cbn. destruct (cancelPosted w (calls m)); [|split; reflexivity].
    apply cancelJob_frame.
  - exists [EvCall (calls m) svc]. cbn.
    repeat split; repeat constructor; [exact Hs|apply Hf].
Qed.

Lemma graceful_external {A} svc (reply : nat -> Outcome A) :
  stage_of svc = s -> (forall t, fatal w (EvCall t svc) = thrown (reply t)) ->
  graceful w s (external w svc reply).
Proof.
  intros Hs Hf m. split.
  - unfold external; cbn. destruct (cancelPosted w (calls m)); [|split; reflexivity].
    apply cancelJob_frame.
  - exists [EvCall (calls m) svc]. cbn.
    repeat split; [repeat constructor; exact Hs|].
    specialize (Hf (calls m)). destruct (reply (calls m)) as [a|e]; cbn in *.
    + left. repeat constructor. exact Hf.
    + right. exists (EvCall (calls m) svc), e. split; [reflexivity|].
      exists []. repeat split; [constructor|exact Hf].
Qed.

Lemma quiet_storage_getJob id : quiet w s (storage_getJob id).
Proof. apply quiet_readDb. Qed.

Lemma quiet_storage_updateJob id updates :
  keeps_id updates = true -> quiet w s (storage_updateJob w id updates).
Proof.
  intros H. unfold storage_updateJob.
  apply quiet_bind; [apply quiet_Date_now|]. intros now.
  apply quiet_bind.
  { apply quiet_awaitWrite. intros d d' E. apply updateJob_stored in E as ->.
    now apply updateJob_frame. }
  intros _. apply quiet_log; reflexivity.
Qed.

Lemma quiet_storage_updateLastProgress id : quiet w s (storage_updateLastProgress w id).
Proof.
  unfold storage_updateLastProgress.
  apply quiet_bind; [apply quiet_Date_now|]. intros now.
  apply quiet_writeDb. intros d. apply updateLastProgress_frame.
Qed.

Lemma quiet_storage_createAsset a : quiet w s (storage_createAsset w a).
Proof.
  unfold storage_createAsset.
  apply quiet_bind; [apply quiet_Date_now|]. intros now.
  apply quiet_awaitWrite. intros d d' E. apply createAsset_stored in E as ->.
  split; reflexivity.
Qed.

Lemma quiet_storage_getAssetByPath id path : quiet w s (storage_getAssetByPath id path).
Proof. apply quiet_readDb. Qed.

Lemma quiet_setContextScenes ss : quiet w s (setContextScenes ss).
Proof.
  unfold setContextScenes. apply quiet_bind; [apply quiet_getContext|].
  intros c. apply quiet_setContext.
Qed.

Lemma quiet_reloadScenes id : quiet w s (reloadScenes id).
Proof.
  unfold reloadScenes. apply quiet_bind; [apply quiet_storage_getJob|]. intros j.
  destruct (j ≫= _); [apply quiet_setContextScenes|apply quiet_ret].
Qed.

Lemma quiet_sceneAt ss i : quiet w s (sceneAt ss i).
Proof. unfold sceneAt. destruct (ss !! i); [apply quiet_ret|apply quiet_throw]. Qed.

Lemma quiet_calculateETA start num den : quiet w s (calculateETA w start num den).
Proof.
  unfold calculateETA. apply quiet_bind; [apply quiet_Date_now|]. intros now.
  destruct (num <=? 0); [apply quiet_ret|].
  destruct (_ <? 100); apply quiet_ret.
Qed.

Lemma graceful_throwIfCancelled id : graceful w s (throwIfCancelled id).
Proof.
  intros m. unfold throwIfCancelled, isCancelled.
  rewrite !bind_run. cbn.
  match goal with |- context [EvPoll ?b] => set (cancelled := b) end.
  destruct cancelled; cbn.
  - split; [split; reflexivity|]. exists [EvPoll true].
    repeat split; [repeat constructor|]. right.
    exists (EvPoll true), (JsError "Cancelled by user"). split; [reflexivity|].
    exists []. repeat split. constructor.
  - split; [split; reflexivity|]. exists [EvPoll false].
    repeat split; [repeat constructor|]. left. repeat constructor.
Qed.

End StagePrimitives.

(** *** The stage functions *)

Lemma quiet_probeDurationOnce w : quiet w "assets_audio" (probeDurationOnce w).
Proof.
  unfold probeDurationOnce.
  apply quiet_bind; [apply quiet_external; [reflexivity|intros; reflexivity]|].
  intros dur. destruct (PrimFloat.ltb _ _); [apply quiet_ret|apply quiet_throw].
Qed.

Lemma quiet_getAudioDuration_from w remaining attempt retries :
  quiet w "assets_audio" (getAudioDuration_from w remaining attempt retries).
Proof.
  revert attempt. induction remaining as [|remaining IH]; intros attempt; cbn.
  - apply quiet_throw.
  - apply quiet_catch; [apply quiet_probeDurationOnce|]. intros err.
    destruct (bool_decide _); [apply quiet_throw|].
    apply quiet_bind; [apply quiet_external; [reflexivity|intros; reflexivity]|].
    intros _. apply IH.
Qed.

Lemma quiet_getAudioDuration w retries :
  quiet w "assets_audio" (getAudioDuration w retries).
Proof. apply quiet_getAudioDuration_from. Qed.

Lemma keeps_id_with_eta rev updates eta :
  keeps_id updates = true -> keeps_id (updates ++ etaField rev eta) = true.
Proof.
  intros H. unfold keeps_id in *. rewrite forallb_app, H. now destruct rev.
Qed.

(** A render is followed by the check of its output, and a rejected output
    raises the error the log attributes to the render. *)
Lemma graceful_checked_render {B} w ss (k : RenderResult -> Async B) :
  (forall result, graceful w "video" (k result)) ->
  graceful w "video"
    (result <- renderVideo w ss ;;
     (if negb result.(integrityCheck).(valid)
      then throw (JsError ("Video integrity check failed: "
                           +:+ from_option id "undefined"
                                 result.(integrityCheck).(error)))
      else ret tt) ;;
     k result).
Proof.
  intros Hk m. unfold renderVideo. rewrite !bind_run.
  assert (F0 : stage_frame m (external w Svc_renderVideo (renderReply w) m).2).
  { unfold external; cbn. destruct (cancelPosted w (calls m)); [|split; reflexivity].
    apply cancelJob_frame. }
  set (ev := EvCall (calls m) Svc_renderVideo).
  assert (T0 : trace (external w Svc_renderVideo (renderReply w) m).2 = trace m ++ [ev])
    by reflexivity.
  assert (Hout : (external w Svc_renderVideo (renderReply w) m).1 = renderReply w (calls m))
    by reflexivity.
  destruct (external w Svc_renderVideo (renderReply w) m) as [r m1]. cbn in F0, T0, Hout.
  subst r.
  assert (Hfatal : fatal w ev = match renderReply w (calls m) with
                                | Throw e => Some e
                                | Ok io => integrityError io
                                end) by reflexivity.
  destruct (renderReply w (calls m)) as [io|e].
  - cbn [ret]. rewrite !bind_run. cbn [ret integrityCheck].
    unfold integrityError in Hfatal. cbn zeta in Hfatal.
    destruct (valid (checkVideoIntegrity (out_probe io) (out_stat io))) eqn:V;
      cbv beta iota delta [negb ret throw].
    + match goal with |- context [k ?r m1] => specialize (Hk r m1); set (res := k r m1) in * end.
      destruct Hk as (F & evs & T & W & C).
      split; [eapply stage_frame_trans; eauto|].
      exists ([ev] ++ evs). rewrite T, T0, app_assoc.
      assert (C0 : calm w [ev]) by (repeat constructor; exact Hfatal).
      repeat split; [constructor; [reflexivity|exact W]|].
      destruct C as [C|(ev' & e' & R & E)].
      * left. now apply calm_app.
      * right. exists ev', e'. split; [exact R|]. now apply ends_with_fatal_app.
    + cbn [fst snd]. split; [exact F0|]. exists [ev]. rewrite T0.
      repeat split; [repeat constructor|]. right. eexists ev, _.
      split; [reflexivity|]. exists []. repeat split; [constructor|exact Hfatal].
  - cbn. split; [exact F0|]. exists [ev]. rewrite T0.
    repeat split; [repeat constructor|]. right. exists ev, e.
    split; [reflexivity|]. exists []. repeat split; [constructor|exact Hfatal].
Qed.

Ltac quiet_leaf :=
  lazymatch goal with
  | |- quiet _ _ (ret _) => apply quiet_ret
  | |- quiet _ _ (throw _) => apply quiet_throw
  | |- quiet _ _ getContext => apply quiet_getContext
  | |- quiet _ _ (setContext _) => apply quiet_setContext
  | |- quiet _ _ (setContextScenes _) => apply quiet_setContextScenes
  | |- quiet _ _ (readDb _) => apply quiet_readDb
  | |- quiet _ _ (Date_now _) => apply quiet_Date_now
  | |- quiet _ _ (storage_getJob _) => apply quiet_storage_getJob
  | |- quiet _ _ (storage_getAssetByPath _ _) => apply quiet_storage_getAssetByPath
  | |- quiet _ _ (storage_updateLastProgress _ _) =>
      apply quiet_storage_updateLastProgress
  | |- quiet _ _ (storage_createAsset _ _) => apply quiet_storage_createAsset
  | |- quiet _ _ (reloadScenes _) => apply quiet_reloadScenes
  | |- quiet _ _ (sceneAt _ _) => apply quiet_sceneAt
  | |- quiet _ _ (calculateETA _ _ _ _) => apply quiet_calculateETA
  | |- quiet _ _ (getAudioDuration _ _) => apply quiet_getAudioDuration
  | |- quiet _ _ (storage_updateJob _ _ _) =>
      apply quiet_storage_updateJob;
      first [ reflexivity | apply keeps_id_with_eta; reflexivity ]
  | |- quiet _ _ (external _ _ _) =>
      apply quiet_external; [ reflexivity | intros; reflexivity ]
  | |- _ => match goal with H : _ |- _ => solve [ apply H ] end
  end.

Ltac graceful_leaf :=
  lazymatch goal with
  | |- graceful _ _ (throwIfCancelled _) => apply graceful_throwIfCancelled
  | |- graceful _ _ (external _ _ _) =>
      first [ apply graceful_external; [ reflexivity | intros; reflexivity ]
            | apply quiet_graceful; quiet_leaf ]
  | |- _ =>
      first [ match goal with H : _ |- _ => solve [ apply H ] end
            | apply quiet_graceful; quiet_leaf ]
  end.

Ltac stage_walk :=
  cbv zeta;
  lazymatch goal with
  | |- graceful _ _ (bind (renderVideo _ _) _) =>
      apply graceful_checked_render; intros ?; stage_walk
  | |- quiet _ _ (bind _ _) => apply quiet_bind; [ stage_walk | intros ?; stage_walk ]
  | |- graceful _ _ (bind _ _) =>
      apply graceful_bind; [ stage_walk | intros ?; stage_walk ]
  | |- quiet _ _ (try_catch _ _) =>
      apply quiet_catch; [ stage_walk | intros ?; stage_walk ]
  | |- graceful _ _ (try_catch _ _) =>
      apply graceful_catch; [ stage_walk | intros ?; stage_walk ]
  | |- graceful _ _ (try_finally _ (ret tt)) =>
      apply graceful_finally_nothing; stage_walk
  | |- quiet _ _ (for_loop _ _ _ _) => apply quiet_for_loop; intros ? ?; stage_walk
  | |- graceful _ _ (for_loop _ _ _ _) =>
      apply graceful_for_loop; intros ? ?; stage_walk
  | |- quiet _ _ (if ?b then _ else _) => destruct b; stage_walk
  | |- graceful _ _ (if ?b then _ else _) => destruct b; stage_walk
  | |- quiet _ _ (match ?x with _ => _ end) => destruct x; stage_walk
  | |- graceful _ _ (match ?x with _ => _ end) => destruct x; stage_walk
  | |- quiet _ _ _ => quiet_leaf
  | |- graceful _ _ _ => graceful_leaf
  end.

Section Stages.

Variable w : World.
Variable rev : Revision.
Variable jobId : string.
Variable settings : JobSettings.
Variable jobStartTime : Z.

Lemma graceful_stage_script :
  graceful w "script" (stage_script w rev jobId settings jobStartTime).
Proof. unfold stage_script. stage_walk. Qed.

Lemma graceful_visual_iteration i ss :
  graceful w "assets_visual" (visual_iteration w rev jobId jobStartTime i ss).
Proof. unfold visual_iteration. stage_walk. Qed.

Lemma graceful_stage_assets_visual :
  graceful w "assets_visual" (stage_assets_visual w rev jobId settings jobStartTime).
Proof.
  unfold stage_assets_visual. pose proof graceful_visual_iteration. stage_walk.
Qed.

Lemma graceful_audio_iteration voice i ss :
  graceful w "assets_audio" (audio_iteration w rev jobId voice jobStartTime i ss).
Proof. unfold audio_iteration. stage_walk. Qed.

Lemma quiet_reconcile_iteration i st :
  quiet w "assets_audio" (reconcile_iteration w jobId i st).
Proof.
  unfold reconcile_iteration. apply quiet_bind; [apply quiet_sceneAt|]. intros scene.
  apply quiet_bind; [|intros ?; apply quiet_ret].
  destruct (truthy_str _); [|apply quiet_ret].
  intros m. unfold try_finally.
  match goal with |- context [try_catch ?c ?h] =>
    assert (Q : quiet w "assets_audio" (try_catch c h)) by stage_walk end.
  specialize (Q m). destruct (try_catch _ _ m) as [r m1]. exact Q.
Qed.

Lemma graceful_stage_assets_audio :
  graceful w "assets_audio" (stage_assets_audio w rev jobId settings jobStartTime).
Proof.
  unfold stage_assets_audio. pose proof graceful_audio_iteration.
  pose proof (fun i st => quiet_graceful _ _ _ (quiet_reconcile_iteration i st)).
  stage_walk.
Qed.

Lemma graceful_stage_video : graceful w "video" (stage_video w rev jobId settings).
Proof. unfold stage_video. stage_walk. Qed.

Lemma graceful_stage_caption : graceful w "caption" (stage_caption w rev jobId settings).
Proof. unfold stage_caption. stage_walk. Qed.

End Stages.

(** ** The step runner *)

Lemma foldl_step_assign_key (updates : list JobStep.Assign) (st : JobStep.t) :
  keeps_step_key updates = true ->
  let st' := foldl (fun r a => JobStep.assign a r) st updates in
  st'.(JobStep.id) = st.(JobStep.id) /\
  st'.(JobStep.jobId) = st.(JobStep.jobId) /\
  st'.(JobStep.stepType) = st.(JobStep.stepType).
Proof.
  revert st. induction updates as [|a updates IH]; intros st H; [cbn; auto|].
  cbn in H. apply andb_true_iff in H as [Ha H]. cbn [foldl].
  destruct (IH (JobStep.assign a st) H) as (I1 & I2 & I3).
  cbn zeta. rewrite I1, I2, I3. destruct a; try discriminate; auto.
Qed.

Lemma find_filter_updated (g : JobStep.t -> JobStep.t) (jobId s : string)
    (l : list JobStep.t) :
  (forall st, (g st).(JobStep.jobId) = st.(JobStep.jobId) /\
              (g st).(JobStep.stepType) = st.(JobStep.stepType)) ->
  find (fun st => String.eqb st.(JobStep.stepType) s)
       (filter (fun st => st.(JobStep.jobId) = jobId) (map g l))
  = g <$> find (fun st => String.eqb st.(JobStep.stepType) s)
               (filter (fun st => st.(JobStep.jobId) = jobId) l).
Proof.
  intros Hg. induction l as [|st l IH]; [reflexivity|]. cbn [map].
  destruct (Hg st) as [G1 G2].
  destruct (decide (st.(JobStep.jobId) = jobId)) as [E|N].
  - rewrite !filter_cons_True by (rewrite ?G1; exact E). cbn [find].
    rewrite G2. destruct (String.eqb _ s); [reflexivity|exact IH].
  - rewrite !filter_cons_False by (rewrite ?G1; exact N). exact IH.
Qed.

Lemma stepOf_updateJobStep jobId s id updates d :
  keeps_step_key updates = true ->
  stepOf jobId s (DatabaseStorage.updateJobStep id updates d)
  = (fun st => if bool_decide (st.(JobStep.id) = id)
               then foldl (fun r a => JobStep.assign a r) st updates else st)
    <$> stepOf jobId s d.
Proof.
  intros H. unfold stepOf, DatabaseStorage.getJobSteps, DatabaseStorage.updateJobStep.
  cbn [jobSteps with_jobSteps]. apply find_filter_updated. intros st.
  destruct (bool_decide _); [|auto].
  destruct (foldl_step_assign_key updates st H) as (_ & I2 & I3). auto.
Qed.

Lemma stepOf_frame jobId s (m m' : Machine) :
  stage_frame m m' -> stepOf jobId s m'.(db) = stepOf jobId s m.(db).
Proof.
  intros [F _]. unfold stepOf, DatabaseStorage.getJobSteps. now rewrite F.
Qed.

Lemma updateJobStep_ids id updates d :
  map Job.id (DatabaseStorage.updateJobStep id updates d).(jobs) = map Job.id d.(jobs).
Proof. reflexivity. Qed.

(** The step [runStep] looks up is the job's step of that type, when the
    job exists. *)
Lemma runStep_lookup jobId s d :
  (DatabaseStorage.getJob jobId d ≫=
     (fun j => find (fun st => String.eqb st.(JobStep.stepType) s) j.(steps)))
  = match DatabaseStorage.getJob jobId d with
    | Some _ => stepOf jobId s d
    | None => None
    end.
Proof.
  unfold DatabaseStorage.getJob, stepOf.
  destruct (filter _ (jobs d)); reflexivity.
Qed.

Section StepRunner.

Variable w : World.
Variable jobId : string.
Variable s : string.
Variable fn : Async unit.

(** A step that is missing, or already completed, makes [runStep] return at
    once: the machine is left exactly as it was. *)
Lemma runStep_returns_at_once (m : Machine) :
  match stepOf jobId s m.(db) with
  | Some st => st.(JobStep.status) = step_completed
  | None => True
  end ->
  runStep w jobId s fn m = (Ok tt, m).
Proof.
  intros H. unfold runStep, storage_getJob, readDb. rewrite bind_run.
  cbn beta iota. rewrite runStep_lookup.
  destruct (DatabaseStorage.getJob jobId (db m)); [|reflexivity].
  destruct (stepOf jobId s (db m)) as [st|]; [|reflexivity].
  now rewrite H.
Qed.

Lemma quiet_saveStepTiming contentType durationMs :
  quiet w s (saveStepTiming w contentType s durationMs).
Proof.
  unfold saveStepTiming, storage_getSetting, storage_setSetting. cbv zeta.
  apply quiet_bind; [apply quiet_readDb|]. intros existing.
  apply quiet_bind; [apply quiet_Date_now|]. intros now.
  apply quiet_writeDb. intros d. apply setSetting_frame.
Qed.

Lemma saveStepTiming_returns contentType durationMs (m : Machine) :
  (saveStepTiming w contentType s durationMs m).1 = Ok tt.
Proof. reflexivity. Qed.

(** Otherwise the stage function is entered and its outcome recorded. *)
Lemma runStep_runs (m : Machine) (jw : JobWithSteps) (st : JobStep.t) :
  DatabaseStorage.getJob jobId m.(db) = Some jw ->
  stepOf jobId s m.(db) = Some st ->
  st.(JobStep.status) <> step_completed ->
  runStep w jobId s fn m
  = match fn (entered w s st m) with
    | (Ok _, m2) =>
        saveStepTiming w jw.(row).(Job.contentType) s
          (w.(clock) m2.(calls) - w.(clock) m.(calls))
          (marked_completed w st (w.(clock) m.(calls)) m2)
    | (Throw e, m2) => (Throw e, marked_failed w st e m2)
    end.
Proof.
  intros Hjob Hstep Hstatus. unfold runStep, storage_getJob, readDb.
  rewrite bind_run. cbn beta iota. rewrite runStep_lookup, Hjob, Hstep.
  assert (Hrun : forall X : Async unit,
             match st.(JobStep.status) with
             | step_completed => ret tt
             | _ => X
             end = X) by (intros X; destruct (JobStep.status st); congruence).
  rewrite Hrun. clear Hrun.
  unfold try_catch, Date_now, storage_updateJobStep, writeDb, log, entered,
    marked_failed, marked_completed.
  rewrite !bind_run. cbn [db calls trace context].
  match goal with |- context [fn ?x] => destruct (fn x) as [[[]|e] m2] end;
    [|reflexivity].
  rewrite !bind_run. cbn [db calls trace context from_option].
  match goal with |- context [saveStepTiming w ?a ?b ?c ?d] =>
    pose proof (saveStepTiming_returns a c d) as R;
    destruct (saveStepTiming w a b c d) as [[[]|e] m3] end;
    [reflexivity|discriminate R].
Qed.


Lemma runStep_without_job (m : Machine) :
  DatabaseStorage.getJob jobId m.(db) = None -> runStep w jobId s fn m = (Ok tt, m).
Proof.
  intros H. unfold runStep, storage_getJob, readDb. rewrite bind_run.
  cbn beta iota. now rewrite runStep_lookup, H.
Qed.

(** The three ways [runStep] can go. *)
Lemma runStep_cases (m : Machine) :
  runStep w jobId s fn m = (Ok tt, m) \/
  exists jw st,
    DatabaseStorage.getJob jobId m.(db) = Some jw /\
    stepOf jobId s m.(db) = Some st /\
    runStep w jobId s fn m
    = match fn (entered w s st m) with
      | (Ok _, m2) =>
          saveStepTiming w jw.(row).(Job.contentType) s
            (w.(clock) m2.(calls) - w.(clock) m.(calls))
            (marked_completed w st (w.(clock) m.(calls)) m2)
      | (Throw e, m2) => (Throw e, marked_failed w st e m2)
      end.
Proof.
  destruct (DatabaseStorage.getJob jobId (db m)) as [jw|] eqn:Hjob;
    [|left; now apply runStep_without_job].
  destruct (stepOf jobId s (db m)) as [st|] eqn:Hstep;
    [|left; apply runStep_returns_at_once; now rewrite Hstep].
  assert (D : st.(JobStep.status) = step_completed \/
              st.(JobStep.status) <> step_completed)
    by (destruct (JobStep.status st); auto; right; discriminate).
  destruct D as [E|N].
  - left. apply runStep_returns_at_once. now rewrite Hstep.
  - right. exists jw, st. split; [reflexivity|]. split; [reflexivity|].
    now apply runStep_runs.
Qed.

End StepRunner.

(** ** The [try] block of [processJob] *)

Lemma within_work s s' ev : within s ev -> work_of s' ev -> s' = s.
Proof. destruct ev; cbn; intros; congruence || contradiction. Qed.

Lemma ends_with_fatal_last w evs ev e :
  ends_with_fatal w evs ev e -> ev ∈ evs.
Proof. intros (pre & -> & _). apply list_elem_of_In, in_app_iff. right. now left. Qed.

Lemma stepOf_after_failure w jobId s st e (m0 m2 : Machine) :
  stepOf jobId s m0.(db) = Some st ->
  stage_frame (entered w s st m0) m2 ->
  step_is_failed jobId s e (marked_failed w st e m2).(db).
Proof.
  intros Hstep F. unfold step_is_failed, marked_failed. cbn [db].
  rewrite stepOf_updateJobStep by reflexivity.
  rewrite (stepOf_frame _ _ _ _ F). unfold entered. cbn [db].
  rewrite stepOf_updateJobStep by reflexivity. rewrite Hstep. cbn [fmap option_fmap option_map].
  rewrite (bool_decide_eq_true_2 (JobStep.id st = JobStep.id st)) by reflexivity.
  cbn [foldl]. eexists. split; [reflexivity|].
  rewrite bool_decide_eq_true_2 by reflexivity. split; reflexivity.
Qed.

Lemma stepOf_after_sibling w jobId s s' st st' started (m0 m2 : Machine) :
  stepOf jobId s' m0.(db) = Some st' ->
  st'.(JobStep.status) = step_completed ->
  stage_frame (entered w s st m0) m2 ->
  step_is_completed jobId s' (marked_completed w st started m2).(db).
Proof.
  intros Hstep Hdone F. unfold step_is_completed, marked_completed. cbn [db].
  rewrite stepOf_updateJobStep by reflexivity.
  rewrite (stepOf_frame _ _ _ _ F). unfold entered. cbn [db].
  rewrite stepOf_updateJobStep by reflexivity. rewrite Hstep. cbn [fmap option_fmap option_map].
  eexists. split; [reflexivity|].
  destruct (decide (JobStep.id st' = JobStep.id st)) as [E|N].
  - rewrite (bool_decide_eq_true_2 (JobStep.id st' = JobStep.id st)) by exact E.
    cbn [foldl]. rewrite bool_decide_eq_true_2 by exact E. reflexivity.
  - rewrite (bool_decide_eq_false_2 (JobStep.id st' = JobStep.id st)) by exact N.
    rewrite bool_decide_eq_false_2 by exact N. exact Hdone.
Qed.

Lemma stepOf_after_completion w jobId s st started (m0 m2 : Machine) :
  stepOf jobId s m0.(db) = Some st ->
  stage_frame (entered w s st m0) m2 ->
  exists st',
    stepOf jobId s (marked_completed w st started m2).(db) = Some st' /\
    st'.(JobStep.status) = step_completed /\
    st'.(JobStep.startedAt) = Some (w.(clock) m0.(calls)) /\
    st'.(JobStep.finishedAt) = Some (w.(clock) m2.(calls)) /\
    st'.(JobStep.durationMs) = Some (w.(clock) m2.(calls) - started) /\
    st'.(JobStep.message) = st.(JobStep.message).
Proof.
  intros Hstep F. unfold marked_completed. cbn [db].
  rewrite stepOf_updateJobStep by reflexivity.
  rewrite (stepOf_frame _ _ _ _ F). unfold entered. cbn [db].
  rewrite stepOf_updateJobStep by reflexivity. rewrite Hstep.
  cbn [fmap option_fmap option_map].
  rewrite (bool_decide_eq_true_2 (JobStep.id st = JobStep.id st)) by reflexivity.
  cbn [foldl]. eexists. split; [reflexivity|].
  rewrite bool_decide_eq_true_2 by reflexivity. repeat split; reflexivity.
Qed.

Section TryBlock.

Variable w : World.
Variable jobId : string.

Lemma orderly_bind {A B} (c : Async A) (k : A -> Async B) :
  orderly w jobId c -> (forall a, orderly w jobId (k a)) -> orderly w jobId (bind c k).
Proof.
  intros Hc Hk m. rewrite bind_run.
  destruct (Hc m) as (I & evs & T & C). destruct (c m) as [[a|e] m1]; cbn [fst snd] in *.
  - destruct C as [C|(ev & e & Habs & _)]; [|discriminate].
    destruct (Hk a m1) as (I2 & evs2 & T2 & C2).
    split; [congruence|]. exists (evs ++ evs2). rewrite T2, T, app_assoc.
    split; [reflexivity|]. destruct C2 as [C2|(ev & e & R & E & S)].
    + left. now apply calm_app.
    + right. exists ev, e. split; [exact R|]. split; [|exact S].
      now apply ends_with_fatal_app.
  - split; [exact I|]. exists evs. split; [exact T|exact C].
Qed.

(** A command that is graceful whatever the stage does no stage's work. *)
Lemma boundary_orderly {A} (c : Async A) :
  (forall s, graceful w s c) -> orderly w jobId c.
Proof.
  intros H m. destruct (H "script" m) as ((_ & I) & evs & T & W & C).
  destruct (H "video" m) as (_ & evs' & T' & W' & _).
  assert (evs' = evs) by (rewrite T in T'; now apply app_inv_head in T'). subst evs'.
  split; [exact I|]. exists evs. split; [exact T|].
  destruct C as [C|(ev & e & R & E)]; [now left|]. right. exists ev, e.
  split; [exact R|]. split; [exact E|]. intros s Hwork.
  apply ends_with_fatal_last in E.
  pose proof (proj1 (Forall_forall _ _) W ev E) as W1.
  pose proof (proj1 (Forall_forall _ _) W' ev E) as W2.
  pose proof (within_work _ _ _ W1 Hwork). pose proof (within_work _ _ _ W2 Hwork).
  congruence.
Qed.

Lemma orderly_runStep s fn :
  graceful w s fn -> orderly w jobId (runStep w jobId s fn).
Proof.
  intros G m.
  destruct (runStep_cases w jobId s fn m) as [E|(jw & st & Hjob & Hstep & E)]; rewrite E.
  - split; [reflexivity|]. exists []. cbn. rewrite app_nil_r.
    split; [reflexivity|]. left. constructor.
  - destruct (G (entered w s st m)) as (F & evs & T & W & C).
    destruct (fn (entered w s st m)) as [[[]|e] m2]; cbn [fst snd] in *.
    + destruct C as [C|(ev & e & R & _)]; [|discriminate].
      match goal with |- context [saveStepTiming w ?a s ?c ?d] =>
        destruct (quiet_saveStepTiming w s a c d) as ((_ & I') & evs' & T' & _ & C') end.
      split; [rewrite I'; exact (proj2 F)|].
      exists ([EvStage s] ++ evs ++ evs'). rewrite T'. cbn [marked_completed trace].
      rewrite T. cbn [entered trace]. rewrite <- !app_assoc.
      split; [reflexivity|]. left.
      apply calm_app; [repeat constructor|now apply calm_app].
    + split; [exact (proj2 F)|]. exists ([EvStage s] ++ evs).
      cbn [marked_failed trace]. rewrite T. cbn [entered trace]. rewrite <- app_assoc.
      split; [reflexivity|].
      assert (C0 : calm w [EvStage s]) by (repeat constructor).
      destruct C as [C|(ev & e' & R & E')]; [left; now apply calm_app|].
      right. cbn in R. injection R as <-. exists ev, e. split; [reflexivity|].
      split; [now apply ends_with_fatal_app|]. intros s' Hwork.
      apply ends_with_fatal_last in E'.
      pose proof (proj1 (Forall_forall _ _) W ev E') as W1.
      rewrite (within_work _ _ _ W1 Hwork).
      now apply (stepOf_after_failure w jobId s st e m m2).
Qed.

Lemma skips_bind s {A B} (c : Async A) (k : A -> Async B) :
  skips jobId s c -> (forall a, skips jobId s (k a)) -> skips jobId s (bind c k).
Proof.
  intros Hc Hk m Hdone. rewrite bind_run.
  destruct (Hc m Hdone) as ((evs & T & W) & K).
  destruct (c m) as [[a|e] m1]; cbn [fst snd] in *.
  - destruct (Hk a m1 (K a eq_refl)) as ((evs2 & T2 & W2) & K2).
    split; [|exact K2]. exists (evs ++ evs2). rewrite T2, T, app_assoc.
    split; [reflexivity|now apply Forall_app].
  - split; [|discriminate]. exists evs. auto.
Qed.

Lemma boundary_skips s {A} (c : Async A) :
  (forall s', graceful w s' c) -> skips jobId s c.
Proof.
  intros H m (st & Hstep & Hdone).
  destruct (H "script" m) as (F & evs & T & W & _).
  destruct (H "video" m) as (_ & evs' & T' & W' & _).
  assert (evs' = evs) by (rewrite T in T'; now apply app_inv_head in T'). subst evs'.
  split.
  - exists evs. split; [exact T|]. apply Forall_forall. intros ev Hin Hwork.
    pose proof (proj1 (Forall_forall _ _) W ev Hin) as W1.
    pose proof (proj1 (Forall_forall _ _) W' ev Hin) as W2.
    pose proof (within_work _ _ _ W1 Hwork). pose proof (within_work _ _ _ W2 Hwork).
    congruence.
  - intros _ _. exists st. now rewrite (stepOf_frame _ _ _ _ F).
Qed.

Lemma skips_runStep s s' fn :
  (s' <> s -> graceful w s' fn) -> skips jobId s (runStep w jobId s' fn).
Proof.
  intros G m (st & Hstep & Hdone).
  destruct (decide (s' = s)) as [->|N].
  - rewrite runStep_returns_at_once by (now rewrite Hstep).
    split; [|intros _ _; now exists st]. exists []. cbn. now rewrite app_nil_r.
  - specialize (G N).
    destruct (runStep_cases w jobId s' fn m) as [E|(jw & st' & Hjob & Hstep' & E)];
      rewrite E.
    + split; [|intros _ _; now exists st]. exists []. cbn. now rewrite app_nil_r.
    + destruct (G (entered w s' st' m)) as (F & evs & T & W & _).
      assert (Hoff : Forall (fun ev => ~ work_of s ev) ([EvStage s'] ++ evs)).
      { apply Forall_app. split; [repeat constructor; exact N|].
        apply Forall_forall. intros ev Hin Hwork.
        pose proof (proj1 (Forall_forall _ _) W ev Hin) as W1.
        pose proof (within_work _ _ _ W1 Hwork). congruence. }
      destruct (fn (entered w s' st' m)) as [[[]|e] m2]; cbn [fst snd] in *.
      * match goal with |- context [saveStepTiming w ?a s' ?c ?d] =>
          destruct (quiet_saveStepTiming w s' a c d) as (F' & evs' & T' & W' & _) end.
        split.
        -- exists (([EvStage s'] ++ evs) ++ evs'). rewrite T'. cbn [marked_completed trace].
           rewrite T. cbn [entered trace]. rewrite <- !app_assoc.
           split; [reflexivity|]. rewrite app_assoc. apply Forall_app. split; [exact Hoff|].
           apply Forall_forall. intros ev Hin Hwork.
           pose proof (proj1 (Forall_forall _ _) W' ev Hin) as W1.
           pose proof (within_work _ _ _ W1 Hwork). congruence.
        -- intros _ _. unfold step_is_completed. rewrite (stepOf_frame _ _ _ _ F').
           now apply (stepOf_after_sibling w jobId s' s st' st _ m m2).
      * split; [|discriminate]. exists ([EvStage s'] ++ evs).
        cbn [marked_failed trace]. rewrite T. cbn [entered trace].
        rewrite <- app_assoc. split; [reflexivity|exact Hoff].
Qed.

End TryBlock.

Ltac boundary_leaf :=
  intros ?; first [ graceful_leaf | stage_walk ].

Ltac stage_lemma :=
  lazymatch goal with
  | |- graceful _ _ (stage_script _ _ _ _ _) => apply graceful_stage_script
  | |- graceful _ _ (stage_assets_visual _ _ _ _ _) => apply graceful_stage_assets_visual
  | |- graceful _ _ (stage_assets_audio _ _ _ _ _) => apply graceful_stage_assets_audio
  | |- graceful _ _ (stage_video _ _ _ _) => apply graceful_stage_video
  | |- graceful _ _ (stage_caption _ _ _ _) => apply graceful_stage_caption
  end.

Ltac try_walk :=
  cbv zeta;
  lazymatch goal with
  | |- orderly _ _ (bind _ _) => apply orderly_bind; [ try_walk | intros ?; try_walk ]
  | |- skips _ _ (bind _ _) => apply skips_bind; [ try_walk | intros ?; try_walk ]
  | |- orderly _ _ (match ?x with _ => _ end) => destruct x; try_walk
  | |- skips _ _ (match ?x with _ => _ end) => destruct x; try_walk
  | |- orderly _ _ (runStep _ _ _ _) =>
      apply orderly_runStep; stage_lemma
  | |- skips _ _ (runStep _ _ _ _) =>
      apply skips_runStep; intros _; stage_lemma
  | |- orderly _ _ _ => apply boundary_orderly; boundary_leaf
  | |- skips _ _ _ =>
      match goal with w : World |- _ => apply (boundary_skips w) end; boundary_leaf
  end.

Lemma orderly_processJob_try w rev jobId jobStartTime :
  orderly w jobId (processJob_try w rev jobId jobStartTime).
Proof. unfold processJob_try. try_walk. Qed.

Lemma skips_processJob_try w rev jobId s jobStartTime :
  skips jobId s (processJob_try w rev jobId jobStartTime).
Proof. unfold processJob_try. try_walk. Qed.

(** ** processJob *)

Lemma processJob_run w rev jobId (m : Machine) :
  processJob w rev jobId m
  = if (DatabaseStorage.acquireJobLock jobId w.(WORKER_ID) 120
          (w.(clock) m.(calls)) m.(db)).1
    then match processJob_try w rev jobId (w.(clock) m.(calls)) (locked w jobId m) with
         | (Ok _, m1) => (Ok tt, released w jobId m1)
         | (Throw e, m1) => (Ok tt, released w jobId (failure_recorded w jobId e m1))
         end
    else (Ok tt, locked w jobId m).
Proof.
  unfold processJob, storage_acquireJobLock, LEASE_SECONDS. rewrite bind_run.
  fold (locked w jobId m).
  destruct (DatabaseStorage.acquireJobLock _ _ _ _ _).1; cbn [negb]; [|reflexivity].
  unfold Date_now. rewrite bind_run. cbn beta iota.
  unfold try_finally, try_catch, storage_releaseJobLock, writeDb.
  change (calls (locked w jobId m)) with (calls m).
  destruct (processJob_try w rev jobId _ (locked w jobId m)) as [[[]|e] m1];
    reflexivity.
Qed.

Lemma jobRow_is_Some id d : is_Some (jobRow id d) <-> In id (map Job.id d.(jobs)).
Proof.
  unfold jobRow. induction (jobs d) as [|j l IH]; cbn [map In].
  - split; [intros [? H]; discriminate|tauto].
  - destruct (decide (j.(Job.id) = id)) as [E|N].
    + rewrite filter_cons_True by exact E. cbn. split; eauto.
    + rewrite filter_cons_False by exact N. rewrite IH. tauto.
Qed.

Lemma jobRow_persists id d d' :
  map Job.id d'.(jobs) = map Job.id d.(jobs) ->
  is_Some (jobRow id d) -> is_Some (jobRow id d').
Proof. intros H. rewrite !jobRow_is_Some. now rewrite H. Qed.

Lemma head_map {A B} (f : A -> B) (l : list A) : head (map f l) = f <$> head l.
Proof. destruct l; reflexivity. Qed.

Lemma jobRow_updated (f : Job.t -> Job.t) id d :
  (forall j, (f j).(Job.id) = j.(Job.id)) ->
  jobRow id (with_jobs (map (fun j => if bool_decide (j.(Job.id) = id)
                                      then f j else j) d.(jobs)) d)
  = f <$> jobRow id d.
Proof.
  intros H. unfold jobRow. cbn [jobs with_jobs].
  rewrite filter_updated_rows by exact H. apply head_map.
Qed.

Lemma jobRow_updateJob id updates now d :
  keeps_id updates = true ->
  jobRow id (DatabaseStorage.updatedJobs id updates now d)
  = DatabaseStorage.applyJobUpdates updates now <$> jobRow id d.
Proof.
  intros H. unfold DatabaseStorage.updatedJobs. apply jobRow_updated.
  intros j. now apply applyJobUpdates_id.
Qed.

Lemma acquired_row_exists id owner ttl now d :
  (DatabaseStorage.acquireJobLock id owner ttl now d).1 = true ->
  is_Some (jobRow id (DatabaseStorage.acquireJobLock id owner ttl now d).2).
Proof.
  intros H. destruct (acquire_success_inv _ _ _ _ _ H) as (j & Hrow & _ & E).
  rewrite E. cbn [snd]. rewrite jobRow_updated by reflexivity. now rewrite Hrow.
Qed.

Lemma acquire_keeps_steps id owner ttl now d :
  (DatabaseStorage.acquireJobLock id owner ttl now d).2.(jobSteps) = d.(jobSteps).
Proof.
  unfold DatabaseStorage.acquireJobLock. destruct (filter _ (jobs d)); [reflexivity|].
  destruct (DatabaseStorage.leaseFree _ _); reflexivity.
Qed.

Lemma job_failed_after_catch w jobId e (m1 : Machine) :
  is_Some (jobRow jobId m1.(db)) ->
  job_failed_with jobId e (released w jobId (failure_recorded w jobId e m1)).(db).
Proof.
  intros [j Hj]. unfold job_failed_with, released, failure_recorded. cbn [db].
  unfold DatabaseStorage.releaseJobLock. rewrite jobRow_updated by reflexivity.
  rewrite jobRow_updateJob by reflexivity. rewrite Hj. cbn [fmap option_fmap option_map].
  eexists. split; [reflexivity|]. split; reflexivity.
Qed.

(** Every fatal event of a run is its last but one, followed by the record of
    the failure only; the job ends failed with the error's message, and when
    the event is work of a stage that stage's step is failed with it. *)
Lemma fatal_event_fails_job w rev jobId (m : Machine) evs ev e :
  trace (processJob w rev jobId m).2 = trace m ++ evs ->
  ev ∈ evs -> fatal w ev = Some e ->
  (exists pre, evs = pre ++ [ev; EvUpdateJob jobId (failure_update e)] /\ calm w pre) /\
  job_failed_with jobId e (processJob w rev jobId m).2.(db) /\
  (forall s, work_of s ev -> step_is_failed jobId s e (processJob w rev jobId m).2.(db)).
Proof.
  rewrite processJob_run. intros T Hin Hfatal.
  destruct (DatabaseStorage.acquireJobLock _ _ _ _ _).1 eqn:Hlock.
  2:{ cbn in T. rewrite <- (app_nil_r (trace m)) in T at 1.
      apply app_inv_head in T. subst evs. now apply elem_of_nil in Hin. }
  destruct (orderly_processJob_try w rev jobId (clock w (calls m)) (locked w jobId m))
    as (I & evs1 & T1 & C).
  destruct (processJob_try w rev jobId _ (locked w jobId m)) as [[[]|e0] m1];
    cbn [fst snd] in *.
  - change (trace (locked w jobId m)) with (trace m) in T1.
    change (trace (released w jobId m1)) with (trace m1) in T.
    rewrite T1 in T. apply app_inv_head in T. subst evs1.
    destruct C as [C|(ev' & e' & R & _)]; [|discriminate].
    pose proof (proj1 (Forall_forall _ _) C ev Hin) as Hnone. congruence.
  - change (trace (locked w jobId m)) with (trace m) in T1.
    change (trace (released w jobId (failure_recorded w jobId e0 m1)))
      with (trace m1 ++ [EvUpdateJob jobId (failure_update e0)]) in T.
    rewrite T1, <- app_assoc in T. apply app_inv_head in T. subst evs.
    apply elem_of_app in Hin. rewrite list_elem_of_singleton in Hin.
    destruct Hin as [Hin| ->]; [|discriminate].
    destruct C as [C|(ev' & e' & R & (pre & -> & Cpre & Hev') & Hstep)].
    { pose proof (proj1 (Forall_forall _ _) C ev Hin) as Hnone. congruence. }
    cbn in R. injection R as <-.
    apply elem_of_app in Hin. rewrite list_elem_of_singleton in Hin.
    destruct Hin as [Hin| ->].
    { pose proof (proj1 (Forall_forall _ _) Cpre ev Hin) as Hnone. congruence. }
    assert (e0 = e) by congruence. subst e0.
    split; [|split].
    + exists pre. rewrite <- app_assoc. split; [reflexivity|exact Cpre].
    + apply job_failed_after_catch. eapply jobRow_persists; [exact I|].
      now apply acquired_row_exists.
    + intros s Hwork. exact (Hstep s Hwork).
Qed.

(** ** Idempotent resume *)

(** C1.  When the step of stage [s] is completed, [runStep] for that stage
    returns at once and leaves the machine exactly as it was, whatever the
    stage function (which is not entered: the log is unchanged); and a run
    of [processJob] on such a job enters no stage function and makes no
    external call of stage [s]. *)
Theorem completed_step_is_skipped w rev jobId s (fn : Async unit) (m : Machine) :
  step_is_completed jobId s m.(db) ->
  runStep w jobId s fn m = (Ok tt, m) /\
  exists evs, trace (processJob w rev jobId m).2 = trace m ++ evs /\
              Forall (fun ev => ~ work_of s ev) evs.
Proof.
  intros Hdone. split.
  - destruct Hdone as (st & Hstep & Hst). apply runStep_returns_at_once.
    now rewrite Hstep.
  - rewrite processJob_run.
    destruct (DatabaseStorage.acquireJobLock _ _ _ _ _).1.
    2:{ exists []. cbn. now rewrite app_nil_r. }
    assert (Hlocked : step_is_completed jobId s (db (locked w jobId m))).
    { destruct Hdone as (st & Hstep & Hst). exists st. split; [|exact Hst].
      unfold stepOf, DatabaseStorage.getJobSteps, locked. cbn [db].
      rewrite acquire_keeps_steps. exact Hstep. }
    destruct (skips_processJob_try w rev jobId s (clock w (calls m)) _ Hlocked)
      as ((evs & T & W) & _).
    destruct (processJob_try w rev jobId _ (locked w jobId m)) as [[[]|e] m1];
      cbn [fst snd] in *.
    + exists evs. split; [exact T|exact W].
    + exists (evs ++ [EvUpdateJob jobId (failure_update e)]).
      cbn [released failure_recorded trace]. rewrite T, <- app_assoc.
      split; [reflexivity|]. apply Forall_app. split; [exact W|].
      repeat constructor. intros [].
Qed.

(** The witness: the sample job with its three asset stages completed; the
    script stage is skipped. *)
Lemma completed_step_is_skipped_witness :
  runStep quiet_world "job-1" "script" (throw (JsError "entered")) render_pending_machine
  = (Ok tt, render_pending_machine) /\
  exists evs,
    trace (processJob quiet_world Rev2 "job-1" render_pending_machine).2
    = trace render_pending_machine ++ evs /\
    Forall (fun ev => ~ work_of "script" ev) evs.
Proof.
  apply (completed_step_is_skipped quiet_world Rev2 "job-1" "script").
  eexists. split; reflexivity.
Defined.

(** ** Integrity gate *)

(** C3.  A render whose encoder calls all succeed but whose output has no
    positive duration, or is smaller than 10000 bytes, is rejected by
    [checkVideoIntegrity]; in every run of [processJob] that makes such a
    render, the video step and the job end failed with the message of the
    rejection, hence not completed. *)
Theorem rejected_render_fails_video_stage w rev jobId (m : Machine) t io evs :
  w.(renderReply) t = Ok io ->
  rejected_output io ->
  trace (processJob w rev jobId m).2 = trace m ++ evs ->
  EvCall t Svc_renderVideo ∈ evs ->
  (checkVideoIntegrity io.(out_probe) io.(out_stat)).(valid) = false /\
  exists e, integrityError io = Some e /\
            job_failed_with jobId e (processJob w rev jobId m).2.(db) /\
            step_is_failed jobId "video" e (processJob w rev jobId m).2.(db).
Proof.
  intros Hreply Hbad T Hin.
  assert (V : (checkVideoIntegrity io.(out_probe) io.(out_stat)).(valid) = false).
  { destruct Hbad as [(code & stderr & data & -> & Hd)|(size & -> & Hs)].
    - now apply integrity_rejects_nonpositive_duration.
    - now apply integrity_rejects_small_file. }
  split; [exact V|].
  assert (Hfatal : exists e, integrityError io = Some e /\
                             fatal w (EvCall t Svc_renderVideo) = Some e).
  { cbn. rewrite Hreply. unfold integrityError. cbn zeta. rewrite V. eauto. }
  destruct Hfatal as (e & He & Hfatal). exists e. split; [exact He|].
  destruct (fatal_event_fails_job w rev jobId m evs _ e T Hin Hfatal) as (_ & J & S).
  split; [exact J|]. now apply S.
Qed.

(** The witness: the sample job reaches its render, which yields a file of
    zero duration. *)
Lemma rejected_render_fails_video_stage_witness :
  (checkVideoIntegrity (sample_render 0%float 250000).(out_probe)
     (sample_render 0%float 250000).(out_stat)).(valid) = false /\
  exists e, integrityError (sample_render 0%float 250000) = Some e /\
    job_failed_with "job-1" e
      (processJob zero_duration_world Rev2 "job-1" render_pending_machine).2.(db) /\
    step_is_failed "job-1" "video" e
      (processJob zero_duration_world Rev2 "job-1" render_pending_machine).2.(db).
Proof.
  apply (rejected_render_fails_video_stage zero_duration_world Rev2 "job-1"
           render_pending_machine 0%nat (sample_render 0%float 250000)
           (trace (processJob zero_duration_world Rev2 "job-1" render_pending_machine).2)).
  - reflexivity.
  - left. eexists _, _, _. split; reflexivity.
  - vm_compute. reflexivity.
  - vm_compute. repeat first [ apply list_elem_of_here | apply list_elem_of_further ].
Defined.

(** ** Error propagation *)

Lemma stages_of_app evs1 evs2 : stages_of (evs1 ++ evs2) = stages_of evs1 ++ stages_of evs2.
Proof. unfold stages_of. apply flat_map_app. Qed.

Lemma last_stage_app evs1 evs2 :
  last_stage (evs1 ++ evs2)
  = match last_stage evs2 with
    | Some s => Some s
    | None => last_stage evs1
    end.
Proof.
  unfold last_stage. rewrite stages_of_app.
  destruct (stages_of evs2) as [|s l] using rev_ind.
  - now rewrite app_nil_r.
  - rewrite app_assoc, !last_snoc. reflexivity.
Qed.

(** The events of one stage enter no other. *)
Lemma stages_of_within s evs : Forall (within s) evs -> Forall (eq s) (stages_of evs).
Proof.
  induction 1 as [|ev evs W _ IH]; [constructor|].
  destruct ev; cbn in *; auto.
Qed.

Lemma last_stage_entered s evs :
  Forall (within s) evs -> last_stage (EvStage s :: evs) = Some s.
Proof.
  intros W. apply stages_of_within in W. unfold last_stage.
  change (stages_of (EvStage s :: evs)) with (s :: stages_of evs).
  induction W as [|s' l <- _ IH]; [reflexivity|].
  destruct l; [reflexivity|exact IH].
Qed.

(** What is graceful in two stages enters none. *)
Lemma last_stage_boundary evs :
  Forall (within "script") evs -> Forall (within "video") evs -> last_stage evs = None.
Proof.
  intros W1 W2. apply stages_of_within in W1, W2. unfold last_stage.
  destruct (stages_of evs) as [|s l]; [reflexivity|].
  apply Forall_cons in W1 as [<- _]. apply Forall_cons in W2 as [? _]. discriminate.
Qed.

Lemma step_is_completed_steps jobId s d d' :
  d'.(jobSteps) = d.(jobSteps) -> step_is_completed jobId s d -> step_is_completed jobId s d'.
Proof.
  intros E. unfold step_is_completed, stepOf, DatabaseStorage.getJobSteps. now rewrite E.
Qed.

Lemma step_is_failed_steps jobId s e d d' :
  d'.(jobSteps) = d.(jobSteps) -> step_is_failed jobId s e d -> step_is_failed jobId s e d'.
Proof.
  intros E. unfold step_is_failed, stepOf, DatabaseStorage.getJobSteps. now rewrite E.
Qed.


Section Settling.

Variable w : World.
Variable jobId : string.

Lemma settles_bind {A B} (c : Async A) (k : A -> Async B) :
  settles jobId c -> (forall a, settles jobId (k a)) -> settles jobId (bind c k).
Proof.
  intros Hc Hk m. rewrite bind_run. destruct (Hc m) as (evs1 & T1 & S1).
  destruct (c m) as [[a|e] m1]; cbn [fst snd thrown] in *; [|exists evs1; auto].
  destruct (Hk a m1) as (evs2 & T2 & S2). exists (evs1 ++ evs2).
  rewrite T2, T1, app_assoc. split; [reflexivity|].
  unfold settled in *. rewrite last_stage_app.
  destruct (last_stage evs2) as [s2|]; [exact S2|].
  destruct (last_stage evs1) as [s1|].
  - destruct (thrown (k a m1).1) as [e|].
    + destruct S2 as [C E]. right. split; [exact C|].
      now apply (step_is_completed_steps _ _ _ _ E).
    + now apply (step_is_completed_steps _ _ _ _ S2).
  - destruct (thrown (k a m1).1) as [e|].
    + destruct S2 as [C E]. split; [exact C|congruence].
    + congruence.
Qed.

(** A command that is graceful whatever the stage enters none and leaves
    the steps alone. *)
Lemma boundary_settles {A} (c : Async A) :
  (forall s, graceful w s c) -> throws_cancellation_only c -> settles jobId c.
Proof.
  intros H C m. destruct (H "script" m) as ((F & _) & evs & T & W & _).
  destruct (H "video" m) as (_ & evs' & T' & W' & _).
  assert (evs' = evs) by (rewrite T in T'; now apply app_inv_head in T'). subst evs'.
  exists evs. split; [exact T|]. unfold settled.
  rewrite (last_stage_boundary evs W W'). specialize (C m).
  destruct (thrown (c m).1) as [e|]; [split; [now apply C|exact F]|exact F].
Qed.

(** [runStep] enters its stage and no other, and leaves the step completed
    when the stage function returns, failed with the error's text when it
    throws. *)
Lemma settles_runStep s fn : graceful w s fn -> settles jobId (runStep w jobId s fn).
Proof.
  intros G m.
  destruct (runStep_cases w jobId s fn m) as [E|(jw & st & Hjob & Hstep & E)]; rewrite E.
  - exists []. cbn [fst snd thrown]. rewrite app_nil_r. split; reflexivity.
  - destruct (G (entered w s st m)) as (F & evs & T & W & _).
    destruct (fn (entered w s st m)) as [[[]|e] m2]; cbn [fst snd] in *.
    + match goal with |- context [saveStepTiming w ?a s ?c ?d] =>
        pose proof (saveStepTiming_returns w s a c d) as R;
        destruct (quiet_saveStepTiming w s a c d) as (F' & evs' & T' & W' & _);
        set (m3 := saveStepTiming w a s c d) in * end.
      exists (EvStage s :: evs ++ evs'). rewrite T'. cbn [marked_completed trace].
      rewrite T. cbn [entered trace]. rewrite <- !app_assoc. split; [reflexivity|].
      unfold settled. rewrite last_stage_entered by (now apply Forall_app).
      rewrite R. cbn [thrown].
      apply (step_is_completed_steps _ _ _ _ (proj1 F')).
      destruct (stepOf_after_completion w jobId s st (clock w (calls m)) m m2 Hstep F)
        as (st' & E' & D & _). now exists st'.
    + exists (EvStage s :: evs). cbn [marked_failed trace]. rewrite T.
      cbn [entered trace]. rewrite <- app_assoc. split; [reflexivity|].
      unfold settled. rewrite last_stage_entered by exact W. cbn [thrown]. left.
      now apply (stepOf_after_failure w jobId s st e m m2).
Qed.

Lemma throwIfCancelled_throws : throws_cancellation_only (throwIfCancelled jobId).
Proof.
  intros m e. unfold throwIfCancelled, isCancelled. rewrite !bind_run. cbn.
  match goal with |- context [if ?b then _ else _] => destruct b end; cbn.
  - now intros [= <-].
  - discriminate.
Qed.

End Settling.

Ltac settle_walk :=
  cbv zeta;
  lazymatch goal with
  | |- settles _ (bind _ _) =>
      apply settles_bind; [ settle_walk | intros ?; settle_walk ]
  | |- settles _ (match ?x with _ => _ end) => destruct x; settle_walk
  | |- settles _ (runStep ?w _ _ _) => apply (settles_runStep w); stage_lemma
  | |- settles _ (throwIfCancelled _) =>
      match goal with w : World |- _ => apply (boundary_settles w) end;
      [ boundary_leaf | apply throwIfCancelled_throws ]
  | |- settles _ (storage_updateJob _ _ _) =>
      match goal with w : World |- _ => apply (boundary_settles w) end;
      [ boundary_leaf
      | intros ? ?; rewrite storage_updateJob_run by taken; discriminate ]
  | |- settles _ _ =>
      match goal with w : World |- _ => apply (boundary_settles w) end;
      [ boundary_leaf | intros ? ?; discriminate ]
  end.

Lemma settles_processJob_try w rev jobId jobStartTime :
  settles jobId (processJob_try w rev jobId jobStartTime).
Proof. unfold processJob_try. settle_walk. Qed.



(** What the witness comes to: the error is the rejection of the render, the
    stage entered last is the video stage, and its step is failed with it. *)
Lemma rejected_render_settled :
  let run := processJob zero_duration_world Rev2 "job-1" render_pending_machine in
  let e := JsError "Video integrity check failed: No duration detected" in
  thrown (processJob_try zero_duration_world Rev2 "job-1" 0
            (locked zero_duration_world "job-1" render_pending_machine)).1 = Some e /\
  exists pre,
    trace run.2 = pre ++ [EvUpdateJob "job-1" (failure_update e)] /\
    last_stage pre = Some "video" /\
    step_is_failed "job-1" "video" e run.2.(db).
Proof.
  split; [vm_compute; reflexivity|].
  exists [EvUpdateJob "job-1" [Job.Set_status running; Job.Set_progressPercent 0;
                               Job.Set_etaSeconds (Some 423)];
          EvPoll false; EvPoll false; EvPoll false; EvPoll false; EvStage "video";
          EvUpdateJob "job-1" [Job.Set_status rendering_video];
          EvCall 0 Svc_renderVideo].
  split; [vm_compute; reflexivity|]. split; [reflexivity|].
  eexists. split; [vm_compute; reflexivity|]. split; reflexivity.
Qed.



(** The same of speech generation: it fails for every scene of the sample
    job, the errors are caught inside the audio stage, and every step and
    the job end completed. *)
Lemma swallowed_speech_error_example :
  let m' := (processJob failing_speech_world Rev2 "job-1" fresh_machine).2 in
  (exists t, EvCall t Svc_generateSpeech ∈ m'.(trace)) /\
  Forall (fun st => st.(JobStep.status) = step_completed) m'.(db).(jobSteps) /\
  exists j, jobRow "job-1" m'.(db) = Some j /\
            j.(Job.status) = completed /\ j.(Job.errorMessage) = None.
Proof.
  split; [|split].
  - exists 7%nat. vm_compute.
    repeat first [ apply list_elem_of_here | apply list_elem_of_further ].
  - vm_compute. repeat constructor.
  - eexists. split; [vm_compute; reflexivity|]. split; reflexivity.
Qed.
(** ** Progress *)

Lemma rises_le lo hi l : rises lo hi l -> lo <= hi.
Proof.
  revert lo. induction l as [|p l IH]; intros lo; cbn; [auto|].
  intros [H1 H2]. specialize (IH _ H2). lia.
Qed.

Lemma rises_app lo mid hi l1 l2 :
  rises lo mid l1 -> rises mid hi l2 -> rises lo hi (l1 ++ l2).
Proof.
  revert lo. induction l1 as [|p l1 IH]; intros lo; cbn.
  - intros H1 H2. destruct l2 as [|q l2]; cbn in *; [lia|].
    destruct H2. split; [lia|assumption].
  - intros [H1 H2] H3. split; [exact H1|]. now apply IH.
Qed.

Lemma rises_bounds lo hi l :
  rises lo hi l -> StronglySorted Z.le l /\ Forall (fun p => lo <= p <= hi) l.
Proof.
  revert lo. induction l as [|p l IH]; intros lo; cbn.
  - intros _. split; constructor.
  - intros [H1 H2]. destruct (IH _ H2) as [S B]. pose proof (rises_le _ _ _ H2).
    split.
    + constructor; [exact S|]. eapply Forall_impl; [exact B|]. cbn. intros; lia.
    + constructor; [lia|]. eapply Forall_impl; [exact B|]. cbn. intros; lia.
Qed.

Lemma progress_of_app evs1 evs2 :
  progress_of (evs1 ++ evs2) = progress_of evs1 ++ progress_of evs2.
Proof. unfold progress_of. apply flat_map_app. Qed.

Lemma loopProgress_start base weight n : 0 < n -> loopProgress base weight n 0 = base.
Proof.
  intros Hn. unfold loopProgress, Math_round_ratio.
  replace (2 * (base * n + weight * 0) + n) with (base * (2 * n) + n) by lia.
  rewrite Z.div_add_l by lia. rewrite Z.div_small by lia. lia.
Qed.

Lemma loopProgress_end base weight n :
  0 < n -> loopProgress base weight n n = base + weight.
Proof.
  intros Hn. unfold loopProgress, Math_round_ratio.
  replace (2 * (base * n + weight * n) + n) with ((base + weight) * (2 * n) + n) by lia.
  rewrite Z.div_add_l by lia. rewrite Z.div_small by lia. lia.
Qed.

Lemma loopProgress_mono base weight n i j :
  0 <= weight -> 0 < n -> i <= j ->
  loopProgress base weight n i <= loopProgress base weight n j.
Proof.
  intros Hw Hn Hij. unfold loopProgress, Math_round_ratio.
  apply Z.div_le_mono; [lia|]. nia.
Qed.

Section Progress.

Variable w : World.

Lemma still_ret {A} (a : A) : still (ret a).
Proof. intros m. exists []. cbn. now rewrite app_nil_r. Qed.

Lemma still_throw {A} (e : Thrown) : still (@throw A e).
Proof. intros m. exists []. cbn. now rewrite app_nil_r. Qed.

Lemma still_bind {A B} (c : Async A) (k : A -> Async B) :
  still c -> (forall a, still (k a)) -> still (bind c k).
Proof.
  intros Hc Hk m. rewrite bind_run. destruct (Hc m) as (evs & T & P).
  destruct (c m) as [[a|e] m1]; cbn [fst snd] in *.
  - destruct (Hk a m1) as (evs2 & T2 & P2). exists (evs ++ evs2).
    rewrite T2, T, app_assoc, progress_of_app, P, P2. auto.
  - exists evs. auto.
Qed.

Lemma still_catch {A} (c : Async A) (h : Thrown -> Async A) :
  still c -> (forall e, still (h e)) -> still (try_catch c h).
Proof.
  intros Hc Hh m. unfold try_catch. destruct (Hc m) as (evs & T & P).
  destruct (c m) as [[a|e] m1]; cbn [fst snd] in *.
  - exists evs. auto.
  - destruct (Hh e m1) as (evs2 & T2 & P2). exists (evs ++ evs2).
    rewrite T2, T, app_assoc, progress_of_app, P, P2. auto.
Qed.

Lemma still_finally_nothing {A} (c : Async A) : still c -> still (try_finally c (ret tt)).
Proof.
  intros Hc m. unfold try_finally. specialize (Hc m).
  destruct (c m) as [r m1]; cbn in *. exact Hc.
Qed.

Lemma still_for_loop {St} (body : nat -> St -> Async St) (count from : nat) (st : St) :
  (forall i x, still (body i x)) -> still (for_loop count from body st).
Proof.
  intros Hb. revert from st. induction count as [|count IH]; intros from st; cbn.
  - apply still_ret.
  - apply still_bind; [apply Hb|]. intros x. apply IH.
Qed.

Lemma still_silent {A} (c : Async A) :
  (forall m, (c m).2.(trace) = m.(trace)) -> still c.
Proof. intros H m. exists []. rewrite H, app_nil_r. auto. Qed.

Lemma still_awaitWrite (statement : Store -> Written) : still (awaitWrite w statement).
Proof.
  apply still_silent. intros m. unfold awaitWrite.
  now destruct (statement (db m)).
Qed.

Lemma still_log ev : progress_of [ev] = [] -> still (log ev).
Proof. intros H m. exists [ev]. auto. Qed.

Lemma still_external {A} svc (reply : nat -> Outcome A) : still (external w svc reply).
Proof. intros m. exists [EvCall (calls m) svc]. auto. Qed.

Lemma progress_of_update id updates :
  progress_of [EvUpdateJob id updates]
  = flat_map (fun a => match a with
                       | Job.Set_progressPercent p => [p]
                       | _ => []
                       end) updates.
Proof. cbn. now rewrite app_nil_r. Qed.

Lemma progress_of_update_eta rev id updates eta :
  progress_of [EvUpdateJob id (updates ++ etaField rev eta)]
  = progress_of [EvUpdateJob id updates].
Proof.
  rewrite !progress_of_update, flat_map_app. destruct rev; cbn; now rewrite app_nil_r.
Qed.

Lemma still_storage_updateJob id updates :
  progress_of [EvUpdateJob id updates] = [] -> still (storage_updateJob w id updates).
Proof.
  intros H m. destruct (storage_updateJob_cases w id updates m) as [E|(e & E)]; rewrite E.
  - exists [EvUpdateJob id updates]. auto.
  - exists []. cbn. now rewrite app_nil_r.
Qed.

Lemma climbs_storage_updateJob lo hi id updates p :
  progress_of [EvUpdateJob id updates] = [p] -> lo <= p <= hi ->
  climbs lo hi (storage_updateJob w id updates).
Proof.
  intros H Hp m. destruct (storage_updateJob_cases w id updates m) as [E|(e & E)]; rewrite E.
  - exists [EvUpdateJob id updates]. split; [reflexivity|]. rewrite H. cbn. lia.
  - exists []. cbn. rewrite app_nil_r. split; [reflexivity|]. lia.
Qed.

Lemma still_climbs lo hi {A} (c : Async A) : still c -> lo <= hi -> climbs lo hi c.
Proof. intros H Hle m. destruct (H m) as (evs & T & P). exists evs. now rewrite P. Qed.

Lemma climbs_bind lo mid hi {A B} (c : Async A) (k : A -> Async B) :
  climbs lo mid c -> mid <= hi -> (forall a, climbs mid hi (k a)) ->
  climbs lo hi (bind c k).
Proof.
  intros Hc Hle Hk m. rewrite bind_run. destruct (Hc m) as (evs & T & R).
  destruct (c m) as [[a|e] m1]; cbn [fst snd] in *.
  - destruct (Hk a m1) as (evs2 & T2 & R2). exists (evs ++ evs2).
    rewrite T2, T, app_assoc, progress_of_app. split; [reflexivity|].
    eapply rises_app; eauto.
  - exists evs. split; [exact T|]. rewrite <- (app_nil_r (progress_of evs)).
    eapply rises_app; [exact R|exact Hle].
Qed.

Lemma climbs_bind_returns lo mid hi {A B} (Q : A -> Prop) (c : Async A)
    (k : A -> Async B) :
  returns Q c -> climbs lo mid c -> mid <= hi ->
  (forall a, Q a -> climbs mid hi (k a)) ->
  climbs lo hi (bind c k).
Proof.
  intros Hq Hc Hle Hk m. rewrite bind_run. destruct (Hc m) as (evs & T & R).
  specialize (Hq m).
  destruct (c m) as [[a|e] m1]; cbn [fst snd] in *.
  - destruct (Hk a (Hq a eq_refl) m1) as (evs2 & T2 & R2). exists (evs ++ evs2).
    rewrite T2, T, app_assoc, progress_of_app. split; [reflexivity|].
    eapply rises_app; eauto.
  - exists evs. split; [exact T|]. rewrite <- (app_nil_r (progress_of evs)).
    eapply rises_app; [exact R|exact Hle].
Qed.

Lemma returns_ret {A} (Q : A -> Prop) (a : A) : Q a -> returns Q (ret a).
Proof. intros H m a' [= <-]. exact H. Qed.

Lemma returns_bind {A B} (Q : B -> Prop) (c : Async A) (k : A -> Async B) :
  (forall a, returns Q (k a)) -> returns Q (bind c k).
Proof.
  intros Hk m b. rewrite bind_run. destruct (c m) as [[a|e] m1]; cbn; [apply Hk|].
  discriminate.
Qed.

Lemma returns_bind_with {A B} (Q1 : A -> Prop) (Q : B -> Prop) (c : Async A)
    (k : A -> Async B) :
  returns Q1 c -> (forall a, Q1 a -> returns Q (k a)) -> returns Q (bind c k).
Proof.
  intros Hc Hk m b. rewrite bind_run. specialize (Hc m).
  destruct (c m) as [[a|e] m1]; cbn in *; [apply Hk; now apply Hc|].
  discriminate.
Qed.

Lemma returns_throw {A} (Q : A -> Prop) (e : Thrown) : returns Q (throw e).
Proof. intros m a. discriminate. Qed.

Lemma returns_catch {A} (Q : A -> Prop) (c : Async A) (h : Thrown -> Async A) :
  returns Q c -> (forall e, returns Q (h e)) -> returns Q (try_catch c h).
Proof.
  intros Hc Hh m a. unfold try_catch. specialize (Hc m).
  destruct (c m) as [[a'|e] m1]; cbn in *; [exact (Hc a)|apply Hh].
Qed.

End Progress.

Ltac head_of t :=
  lazymatch t with
  | ?f _ => head_of f
  | _ => t
  end.

Ltac still_walk :=
  cbv zeta;
  lazymatch goal with
  | |- still (bind _ _) => apply still_bind; [ still_walk | intros ?; still_walk ]
  | |- still (try_catch _ _) => apply still_catch; [ still_walk | intros ?; still_walk ]
  | |- still (try_finally _ (ret tt)) => apply still_finally_nothing; still_walk
  | |- still (for_loop _ _ _ _) => apply still_for_loop; intros ? ?; still_walk
  | |- still (if ?b then _ else _) => destruct b; still_walk
  | |- still (match ?x with _ => _ end) => destruct x; still_walk
  | |- still (ret _) => apply still_ret
  | |- still (throw _) => apply still_throw
  | |- still (log _) => apply still_log; reflexivity
  | |- still (external _ _ _) => apply still_external
  | |- still (storage_updateJob _ _ _) =>
      apply still_storage_updateJob;
      first [ reflexivity | rewrite progress_of_update_eta; reflexivity ]
  | |- still (getContext) => apply still_silent; intros ?; reflexivity
  | |- still (setContext _) => apply still_silent; intros ?; reflexivity
  | |- still (readDb _) => apply still_silent; intros ?; reflexivity
  | |- still (writeDb _) => apply still_silent; intros ?; reflexivity
  | |- still (awaitWrite _ _) => apply still_awaitWrite
  | |- still (Date_now _) => apply still_silent; intros ?; reflexivity
  | |- still ?c =>
      first [ match goal with H : _ |- _ => solve [ apply H ] end
            | let h := head_of c in unfold h; still_walk ]
  end.

Section ProgressOfStages.

Variable w : World.
Variable rev : Revision.
Variable jobId : string.
Variable settings : JobSettings.
Variable jobStartTime : Z.

Lemma still_getAudioDuration_from remaining attempt retries :
  still (getAudioDuration_from w remaining attempt retries).
Proof.
  revert attempt. induction remaining as [|remaining IH]; intros attempt; cbn.
  - apply still_throw.
  - apply still_catch; [unfold probeDurationOnce; still_walk|]. intros err.
    destruct (bool_decide _); [apply still_throw|].
    apply still_bind; [apply still_external|]. intros _. apply IH.
Qed.

Lemma still_getAudioDuration retries : still (getAudioDuration w retries).
Proof. apply still_getAudioDuration_from. Qed.

Lemma still_reconcile_iteration i st : still (reconcile_iteration w jobId i st).
Proof.
  pose proof still_getAudioDuration. unfold reconcile_iteration. still_walk.
Qed.

Lemma still_throwIfCancelled : still (throwIfCancelled jobId).
Proof. still_walk. Qed.

Lemma weights_nonneg :
  0 <= (STEP_WEIGHTS rev).(w_script) /\
  0 <= (STEP_WEIGHTS rev).(w_assets_visual) /\
  0 <= (STEP_WEIGHTS rev).(w_assets_audio) /\
  0 <= (STEP_WEIGHTS rev).(w_video) /\
  (STEP_WEIGHTS rev).(w_script) + (STEP_WEIGHTS rev).(w_assets_visual)
  + (STEP_WEIGHTS rev).(w_assets_audio) + (STEP_WEIGHTS rev).(w_video) = 95.
Proof. destruct rev; cbn; lia. Qed.

Lemma climbs_stage_script :
  climbs 0 (STEP_WEIGHTS rev).(w_script) (stage_script w rev jobId settings jobStartTime).
Proof.
  pose proof weights_nonneg as (W1 & _). unfold stage_script.
  apply (climbs_bind 0 0); [apply still_climbs; [still_walk|lia]|lia|]. intros result.
  apply (climbs_bind 0 0); [apply still_climbs; [still_walk|lia]|lia|]. intros _.
  apply (climbs_bind 0 0); [apply still_climbs; [still_walk|lia]|lia|]. intros eta.
  apply (climbs_bind 0 (w_script (STEP_WEIGHTS rev))); [|lia|].
  - eapply climbs_storage_updateJob;
      [rewrite progress_of_update_eta; reflexivity|lia].
  - intros _. apply still_climbs; [still_walk|lia].
Qed.

(** The end of an iteration of a scene loop: the progress after [i + 1] of
    the scenes is written. *)
Lemma climbs_iteration_end lo base weight (n i : nat) (us : list Scene.t) :
  length us = n ->
  lo <= loopProgress base weight (Z.of_nat n) (Z.of_nat i + 1) ->
  climbs lo (loopProgress base weight (Z.of_nat n) (Z.of_nat i + 1))
    (eta <- calculateETA w jobStartTime
              (base * Z.of_nat (length us) + weight * (Z.of_nat i + 1))
              (Z.of_nat (length us)) ;;
     storage_updateJob w jobId
       ([Job.Set_progressPercent
           (Math_round_ratio (base * Z.of_nat (length us) + weight * (Z.of_nat i + 1))
              (Z.of_nat (length us)));
         Job.Set_scenes (Some us)] ++ etaField rev eta) ;;
     storage_updateLastProgress w jobId ;;
     ret us).
Proof.
  intros -> Hle.
  apply (climbs_bind lo lo); [apply still_climbs; [still_walk|lia]|exact Hle|].
  intros eta.
  eapply (climbs_bind lo _); [|reflexivity|].
  - eapply climbs_storage_updateJob;
      [rewrite progress_of_update_eta; reflexivity|].
    unfold loopProgress in *. lia.
  - intros _. apply still_climbs; [still_walk|reflexivity].
Qed.

Ltac returns_walk :=
  cbv zeta;
  lazymatch goal with
  | |- returns _ (bind _ _) => apply returns_bind; intros ?; returns_walk
  | |- returns _ (try_catch _ _) =>
      apply returns_catch; [ returns_walk | intros ?; returns_walk ]
  | |- returns _ (if ?b then _ else _) => destruct b; returns_walk
  | |- returns _ (match ?x with _ => _ end) => destruct x; returns_walk
  | |- returns _ (throw _) => apply returns_throw
  | |- returns _ (ret _) =>
      apply returns_ret; rewrite ?length_alter; first [ reflexivity | assumption ]
  end.

Ltac climb_past :=
  cbv zeta;
  lazymatch goal with
  | |- climbs ?lo ?hi (bind _ _) =>
      apply (climbs_bind lo lo hi);
      [ apply still_climbs; [ still_walk | lia ] | assumption | intros ? ]
  end.

Lemma visual_iteration_spec (n i : nat) (ss : list Scene.t) :
  let lp := loopProgress (STEP_WEIGHTS rev).(w_script)
              (STEP_WEIGHTS rev).(w_assets_visual) (Z.of_nat n) in
  length ss = n -> (0 < n)%nat ->
  returns (fun ss' => length ss' = n) (visual_iteration w rev jobId jobStartTime i ss) /\
  climbs (lp (Z.of_nat i)) (lp (Z.of_nat i + 1))
    (visual_iteration w rev jobId jobStartTime i ss).
Proof.
  intros lp Hlen Hn. pose proof weights_nonneg as (_ & W2 & _).
  assert (Hle : lp (Z.of_nat i) <= lp (Z.of_nat i + 1))
    by (apply loopProgress_mono; lia).
  unfold visual_iteration. split.
  - apply returns_bind. intros _. apply returns_bind. intros scene.
    destruct (truthy_str _); [now apply returns_ret|].
    apply returns_bind. intros imagePrompt. cbv zeta.
    apply returns_bind. intros existingAsset.
    apply (returns_bind_with (fun us => length us = n)); [returns_walk|].
    intros us Hus. returns_walk.
  - climb_past. climb_past.
    destruct (truthy_str _); [apply still_climbs; [still_walk|exact Hle]|].
    climb_past. cbv zeta. climb_past.
    apply (climbs_bind_returns (lp (Z.of_nat i)) (lp (Z.of_nat i)) _
             (fun us => length us = n));
      [returns_walk|apply still_climbs; [still_walk|lia]|exact Hle|].
    intros us Hus. apply (climbs_iteration_end _ _ _ n i us Hus Hle).
Qed.

Lemma audio_iteration_spec voice (n i : nat) (ss : list Scene.t) :
  let lp := loopProgress
              ((STEP_WEIGHTS rev).(w_script) + (STEP_WEIGHTS rev).(w_assets_visual))
              (STEP_WEIGHTS rev).(w_assets_audio) (Z.of_nat n) in
  length ss = n -> (0 < n)%nat ->
  returns (fun ss' => length ss' = n)
    (audio_iteration w rev jobId voice jobStartTime i ss) /\
  climbs (lp (Z.of_nat i)) (lp (Z.of_nat i + 1))
    (audio_iteration w rev jobId voice jobStartTime i ss).
Proof.
  intros lp Hlen Hn. pose proof weights_nonneg as (_ & _ & W3 & _).
  assert (Hle : lp (Z.of_nat i) <= lp (Z.of_nat i + 1))
    by (apply loopProgress_mono; lia).
  unfold audio_iteration. split.
  - apply returns_bind. intros _. apply returns_bind. intros scene. cbv zeta.
    destruct (truthy_str _); [now apply returns_ret|].
    apply (returns_bind_with (fun us => length us = n)); [returns_walk|].
    intros us Hus. returns_walk.
  - climb_past. climb_past. cbv zeta.
    destruct (truthy_str _); [apply still_climbs; [still_walk|exact Hle]|].
    apply (climbs_bind_returns (lp (Z.of_nat i)) (lp (Z.of_nat i)) _
             (fun us => length us = n));
      [returns_walk|apply still_climbs; [still_walk|lia]|exact Hle|].
    intros us Hus. apply (climbs_iteration_end _ _ _ n i us Hus Hle).
Qed.

(** A scene loop over [n] scenes, [todo] of them still to do, takes the
    progress from that after [from] scenes to that after all of them. *)
Lemma climbs_scene_loop base weight (body : nat -> list Scene.t -> Async (list Scene.t))
    (n : nat) :
  0 <= weight -> (0 < n)%nat ->
  (forall i ss, length ss = n ->
     returns (fun ss' => length ss' = n) (body i ss) /\
     climbs (loopProgress base weight (Z.of_nat n) (Z.of_nat i))
            (loopProgress base weight (Z.of_nat n) (Z.of_nat i + 1)) (body i ss)) ->
  forall todo from ss,
    length ss = n -> (from + todo = n)%nat ->
    climbs (loopProgress base weight (Z.of_nat n) (Z.of_nat from))
           (loopProgress base weight (Z.of_nat n) (Z.of_nat n))
           (for_loop todo from body ss).
Proof.
  intros Hw Hn Hbody todo. induction todo as [|todo IH]; intros from ss Hlen Hsum; cbn.
  - replace from with n by lia. apply still_climbs; [apply still_ret|lia].
  - destruct (Hbody from ss Hlen) as [Hret Hclimb].
    eapply (climbs_bind_returns _ _ _ (fun ss' => length ss' = n));
      [exact Hret|exact Hclimb|apply loopProgress_mono; lia|].
    intros ss' Hlen'. replace (Z.of_nat from + 1) with (Z.of_nat (S from)) by lia.
    apply IH; [exact Hlen'|lia].
Qed.

Lemma climbs_stage_assets_visual :
  climbs (STEP_WEIGHTS rev).(w_script)
         ((STEP_WEIGHTS rev).(w_script) + (STEP_WEIGHTS rev).(w_assets_visual))
         (stage_assets_visual w rev jobId settings jobStartTime).
Proof.
  pose proof weights_nonneg as (_ & W2 & _).
  assert (Hle : w_script (STEP_WEIGHTS rev)
                <= w_script (STEP_WEIGHTS rev) + w_assets_visual (STEP_WEIGHTS rev))
    by lia.
  unfold stage_assets_visual. climb_past. climb_past. climb_past.
  destruct (scenes _) as [[|s0 ss]|]; try (apply still_climbs; [still_walk|lia]).
  set (all := s0 :: ss). set (n := length all).
  assert (Hn : (0 < n)%nat) by (subst n all; cbn; lia).
  eapply (climbs_bind _ _); [|reflexivity|].
  - pose proof (climbs_scene_loop (w_script (STEP_WEIGHTS rev))
                  (w_assets_visual (STEP_WEIGHTS rev))
                  (visual_iteration w rev jobId jobStartTime) n W2 Hn
                  (fun i ss' Hlen => visual_iteration_spec n i ss' Hlen Hn)
                  n 0%nat all eq_refl eq_refl) as Hloop.
    change (Z.of_nat 0) with 0 in Hloop.
    rewrite loopProgress_start, loopProgress_end in Hloop by lia. exact Hloop.
  - intros us. apply still_climbs; [still_walk|lia].
Qed.

Lemma climbs_stage_assets_audio :
  climbs ((STEP_WEIGHTS rev).(w_script) + (STEP_WEIGHTS rev).(w_assets_visual))
         ((STEP_WEIGHTS rev).(w_script) + (STEP_WEIGHTS rev).(w_assets_visual)
          + (STEP_WEIGHTS rev).(w_assets_audio))
         (stage_assets_audio w rev jobId settings jobStartTime).
Proof.
  pose proof weights_nonneg as (_ & _ & W3 & _).
  pose proof still_reconcile_iteration as Hrec.
  set (base := w_script (STEP_WEIGHTS rev) + w_assets_visual (STEP_WEIGHTS rev)).
  assert (Hle : base <= base + w_assets_audio (STEP_WEIGHTS rev)) by lia.
  unfold stage_assets_audio. climb_past. climb_past. climb_past.
  destruct (scenes _) as [[|s0 ss]|]; try (apply still_climbs; [still_walk|lia]).
  destruct (truthy_str _); [|apply still_climbs; [still_walk|lia]]. cbv zeta.
  set (all := s0 :: ss). set (n := length all).
  assert (Hn : (0 < n)%nat) by (subst n all; cbn; lia).
  eapply (climbs_bind _ _); [|reflexivity|].
  - match goal with |- context [audio_iteration w rev jobId ?voice jobStartTime] =>
      pose proof (climbs_scene_loop base (w_assets_audio (STEP_WEIGHTS rev))
                    (audio_iteration w rev jobId voice jobStartTime) n W3 Hn
                    (fun i ss' Hlen => audio_iteration_spec voice n i ss' Hlen Hn)
                    n 0%nat all eq_refl eq_refl) as Hloop end.
    change (Z.of_nat 0) with 0 in Hloop.
    rewrite loopProgress_start, loopProgress_end in Hloop by lia. exact Hloop.
  - intros us. apply still_climbs; [still_walk|lia].
Qed.

Lemma climbs_stage_video :
  climbs ((STEP_WEIGHTS rev).(w_script) + (STEP_WEIGHTS rev).(w_assets_visual)
          + (STEP_WEIGHTS rev).(w_assets_audio)) 95
         (stage_video w rev jobId settings).
Proof.
  pose proof weights_nonneg as (_ & _ & _ & W4 & W5).
  set (base := w_script (STEP_WEIGHTS rev) + w_assets_visual (STEP_WEIGHTS rev)
               + w_assets_audio (STEP_WEIGHTS rev)).
  assert (Hle : base <= 95) by (subst base; lia).
  unfold stage_video. climb_past. climb_past. climb_past.
  destruct (scenes _) as [[|s0 ss]|]; try (apply still_climbs; [still_walk|lia]).
  climb_past. climb_past. climb_past. climb_past. cbv zeta.
  eapply (climbs_bind _ 95); [|reflexivity|].
  - eapply climbs_storage_updateJob;
      [rewrite progress_of_update_eta; reflexivity|]. subst base. lia.
  - intros _. apply still_climbs; [still_walk|lia].
Qed.

Lemma climbs_stage_caption : climbs 95 100 (stage_caption w rev jobId settings).
Proof.
  assert (Hle : 95 <= 100) by lia.
  unfold stage_caption. climb_past. climb_past. climb_past. cbv zeta.
  destruct (truthy_str _); [|apply still_climbs; [still_walk|lia]].
  climb_past.
  eapply (climbs_bind _ 100); [|reflexivity|].
  - eapply climbs_storage_updateJob;
      [rewrite progress_of_update_eta; reflexivity|]. lia.
  - intros _. apply still_climbs; [still_walk|lia].
Qed.

Lemma climbs_runStep lo hi s fn :
  lo <= hi -> climbs lo hi fn -> climbs lo hi (runStep w jobId s fn).
Proof.
  intros Hle Hfn m.
  destruct (runStep_cases w jobId s fn m) as [E|(jw & st & Hjob & Hstep & E)]; rewrite E.
  - exists []. cbn. rewrite app_nil_r. auto.
  - destruct (Hfn (entered w s st m)) as (evs & T & R).
    destruct (fn (entered w s st m)) as [[[]|e] m2]; cbn [fst snd] in *.
    + exists ([EvStage s] ++ evs). split; [|exact R].
      match goal with |- context [saveStepTiming w ?a s ?c ?d] =>
        change (trace (saveStepTiming w a s c d).2) with (trace m2) end.
      rewrite T. cbn [entered trace]. now rewrite <- app_assoc.
    + exists ([EvStage s] ++ evs). split; [|exact R].
      cbn [marked_failed trace]. rewrite T. cbn [entered trace]. now rewrite <- app_assoc.
Qed.

End ProgressOfStages.

(** *** Progress over one run of [processJob] *)

Section ProgressOfRun.

Variable w : World.
Variable rev : Revision.
Variable jobId : string.

Lemma climbs_catch lo hi {A} (c : Async A) (h : Thrown -> Async A) :
  climbs lo hi c -> (forall e, still (h e)) -> climbs lo hi (try_catch c h).
Proof.
  intros Hc Hh m. unfold try_catch. destruct (Hc m) as (evs & T & R).
  destruct (c m) as [[a|e] m1]; cbn [fst snd] in *.
  - exists evs. auto.
  - destruct (Hh e m1) as (evs2 & T2 & P2). exists (evs ++ evs2).
    rewrite T2, T, app_assoc, progress_of_app, P2, app_nil_r. auto.
Qed.

Lemma climbs_finally lo hi {A} (c : Async A) (cleanup : Async unit) :
  climbs lo hi c -> still cleanup -> climbs lo hi (try_finally c cleanup).
Proof.
  intros Hc Hf m. unfold try_finally. destruct (Hc m) as (evs & T & R).
  destruct (c m) as [r m1]; cbn [fst snd] in *.
  destruct (Hf m1) as (evs2 & T2 & P2).
  destruct (cleanup m1) as [[u|e] m2]; cbn [fst snd] in *;
    exists (evs ++ evs2);
    rewrite T2, T, app_assoc, progress_of_app, P2, app_nil_r; auto.
Qed.

Ltac pass_boundary p :=
  apply (climbs_bind p p); [ apply still_climbs; [ still_walk | lia ] | lia | intros _ ].

Lemma climbs_processJob_try jobStartTime :
  climbs 0 100 (processJob_try w rev jobId jobStartTime).
Proof.
  pose proof (weights_nonneg rev) as (W1 & W2 & W3 & W4 & W5).
  unfold processJob_try.
  apply (climbs_bind 0 0); [apply still_climbs; [still_walk|lia]|lia|].
  intros [job|]; [|apply still_climbs; [apply still_ret|lia]]. cbv zeta.
  set (settings := Job.settings (row job)).
  set (w1 := w_script (STEP_WEIGHTS rev)) in *.
  set (w2 := w_assets_visual (STEP_WEIGHTS rev)) in *.
  set (w3 := w_assets_audio (STEP_WEIGHTS rev)) in *.
  pass_boundary 0.
  apply (climbs_bind 0 0);
    [eapply climbs_storage_updateJob; [rewrite progress_of_update_eta; reflexivity|lia]
    |lia|]. intros _.
  pass_boundary 0. pass_boundary 0.
  apply (climbs_bind 0 w1);
    [apply climbs_runStep; [lia|apply climbs_stage_script]|lia|]. intros _.
  pass_boundary w1.
  apply (climbs_bind w1 (w1 + w2));
    [apply climbs_runStep; [lia|apply climbs_stage_assets_visual]|lia|]. intros _.
  pass_boundary (w1 + w2).
  apply (climbs_bind (w1 + w2) (w1 + w2 + w3));
    [apply climbs_runStep; [lia|apply climbs_stage_assets_audio]|lia|]. intros _.
  pass_boundary (w1 + w2 + w3).
  apply (climbs_bind (w1 + w2 + w3) 95);
    [apply climbs_runStep; [lia|apply climbs_stage_video]|lia|]. intros _.
  pass_boundary 95.
  apply (climbs_bind 95 100);
    [apply climbs_runStep; [lia|apply climbs_stage_caption]|lia|]. intros _.
  eapply climbs_storage_updateJob; [reflexivity|lia].
Qed.

Lemma climbs_processJob : climbs 0 100 (processJob w rev jobId).
Proof.
  unfold processJob.
  apply (climbs_bind 0 0); [|lia|].
  - apply still_climbs; [|lia]. intros m. exists []. split; [|reflexivity].
    cbn. now rewrite app_nil_r.
  - intros lockAcquired. destruct (negb lockAcquired).
    + apply still_climbs; [apply still_ret|lia].
    + apply (climbs_bind 0 0); [apply still_climbs; [still_walk|lia]|lia|].
      intros jobStartTime. apply climbs_finally; [|still_walk].
      apply climbs_catch; [apply climbs_processJob_try|].
      intros e. unfold processJob_catch. still_walk.
Qed.

End ProgressOfRun.

(** C8, as amended.  Within one run of [processJob], whatever the services
    answer and whether the job is new or resumed, the values the run writes
    to [progressPercent] are non-decreasing and stay within 0 and 100. *)
Theorem progress_rises_within_run (w : World) (rev : Revision) (jobId : string)
    (m : Machine) :
  exists evs,
    (processJob w rev jobId m).2.(trace) = m.(trace) ++ evs /\
    StronglySorted Z.le (progress_of evs) /\
    Forall (fun p => 0 <= p <= 100) (progress_of evs).
Proof.
  destruct (climbs_processJob w rev jobId m) as (evs & T & R).
  exists evs. split; [exact T|]. now apply rises_bounds.
Qed.

(** C8, as stated, fails on a resumed job: the sample job was interrupted at
    55 percent with three steps completed; the run that resumes it first
    writes 0, and the job then ends completed. *)
Lemma resumed_progress_drops_counterexample :
  let m := render_pending_machine in
  let m' := (processJob quiet_world Rev2 "job-1" m).2 in
  (exists j, jobRow "job-1" m.(db) = Some j /\
             j.(Job.status) = generating_assets /\ j.(Job.progressPercent) = 55) /\
  progress_of m'.(trace) = [0; 95; 100; 100] /\
  (exists j', jobRow "job-1" m'.(db) = Some j' /\ j'.(Job.status) = completed) /\
  ~ StronglySorted Z.le (55 :: progress_of m'.(trace)).
Proof.
  assert (E : progress_of
                (trace (processJob quiet_world Rev2 "job-1" render_pending_machine).2)
              = [0; 95; 100; 100]) by (vm_compute; reflexivity).
  cbv zeta. rewrite E.
  split; [eexists; split; [vm_compute; reflexivity|]; split; reflexivity|].
  split; [reflexivity|].
  split; [eexists; split; [vm_compute; reflexivity|]; reflexivity|].
  intros H. apply StronglySorted_inv in H as [_ H].
  apply Forall_inv in H. lia.
Qed.
(** ** Jobs without step records *)

Section NoStage.

Variable w : World.
Variable rev : Revision.
Variable jobId : string.
Variable m0 : Machine.

Hypothesis no_steps : DatabaseStorage.getJobSteps jobId m0.(db) = [].

Lemma ensures_ret {A} (P : Machine -> Prop) (Q : A -> Machine -> Prop) (a : A) :
  (forall m, P m -> Q a m) -> ensures P (ret a) Q.
Proof. intros H m Hm. exists a. split; [reflexivity|]. now apply H. Qed.

Lemma ensures_bind {A B} (P : Machine -> Prop) (Q : A -> Machine -> Prop)
    (R : B -> Machine -> Prop) (c : Async A) (k : A -> Async B) :
  ensures P c Q -> (forall a, ensures (Q a) (k a) R) -> ensures P (bind c k) R.
Proof.
  intros Hc Hk m Hm. rewrite bind_run. destruct (Hc m Hm) as (a & E & Ha).
  destruct (c m) as [r m1]. cbn [fst snd] in *. subst r. now apply Hk.
Qed.

Lemma ensures_pre {A} (P P' : Machine -> Prop) (Q : A -> Machine -> Prop) (c : Async A) :
  (forall m, P m -> P' m) -> ensures P' c Q -> ensures P c Q.
Proof. intros H Hc m Hm. apply Hc, H, Hm. Qed.

Lemma ensures_post {A} (P : Machine -> Prop) (Q Q' : A -> Machine -> Prop) (c : Async A) :
  ensures P c Q' -> (forall a m, Q' a m -> Q a m) -> ensures P c Q.
Proof. intros Hc H m Hm. destruct (Hc m Hm) as (a & E & Ha). eauto. Qed.

(** A write that maps [f] over the rows of the job and logs idle events. *)
Lemma unstaged_row_update (f : Job.t -> Job.t) evs m c :
  (forall j, (f j).(Job.id) = j.(Job.id)) ->
  (forall j, (f j).(Job.cancelRequested) = j.(Job.cancelRequested)) ->
  Forall idle evs ->
  unstaged jobId m0 m ->
  let m' := {| db := with_jobs
                       (map (fun j => if bool_decide (j.(Job.id) = jobId)
                                      then f j else j) m.(db).(jobs)) m.(db);
               calls := m.(calls); trace := m.(trace) ++ evs; context := c |} in
  unstaged jobId m0 m' /\ jobRow jobId m'.(db) = f <$> jobRow jobId m.(db).
Proof.
  intros Hid Hflag Hidle ((j & Hrow & Hj) & Hsteps & Hcalls & evs0 & T & I) m'.
  assert (E : jobRow jobId m'.(db) = f <$> jobRow jobId m.(db))
    by (now apply jobRow_updated).
  split; [|exact E]. split; [|split; [|split]].
  - exists (f j). rewrite E, Hrow. split; [reflexivity|]. now rewrite Hflag.
  - exact Hsteps.
  - exact Hcalls.
  - exists (evs0 ++ evs). cbn [m' trace]. rewrite T, app_assoc.
    split; [reflexivity|]. now apply Forall_app.
Qed.

Lemma getJob_of_row id d j :
  jobRow id d = Some j ->
  DatabaseStorage.getJob id d
  = Some {| row := j; steps := DatabaseStorage.getJobSteps id d;
            job_assets := DatabaseStorage.getAssets id d |}.
Proof.
  unfold jobRow, DatabaseStorage.getJob.
  destruct (filter _ (jobs d)); [discriminate|]. cbn. now intros [= ->].
Qed.

Lemma ensures_storage_getJob :
  ensures (unstaged jobId m0) (storage_getJob jobId)
    (fun r m => unstaged jobId m0 m /\ is_Some r).
Proof.
  intros m H. pose proof H as ((j & Hrow & _) & _).
  exists (DatabaseStorage.getJob jobId m.(db)). split; [reflexivity|].
  split; [exact H|]. rewrite (getJob_of_row _ _ _ Hrow). eauto.
Qed.

Lemma ensures_setContext c :
  ensures (unstaged jobId m0) (setContext c) (fun _ => unstaged jobId m0).
Proof. intros m H. exists tt. split; [reflexivity|exact H]. Qed.

Lemma ensures_storage_updateJob updates :
  head (omap DatabaseStorage.misfit updates) = None ->
  keeps_id updates = true ->
  (forall now j, (DatabaseStorage.applyJobUpdates updates now j).(Job.cancelRequested)
                 = j.(Job.cancelRequested)) ->
  ensures (unstaged jobId m0) (storage_updateJob w jobId updates)
    (fun _ m => unstaged jobId m0 m /\
                exists now j, jobRow jobId m.(db)
                              = Some (DatabaseStorage.applyJobUpdates updates now j)).
Proof.
  intros Hfit Hid Hflag m H. exists tt. rewrite storage_updateJob_run by exact Hfit.
  split; [reflexivity|]. cbn [snd].
  destruct (unstaged_row_update
              (DatabaseStorage.applyJobUpdates updates (w.(clock) m.(calls)))
              [EvUpdateJob jobId updates] m m.(context)
              (fun j => applyJobUpdates_id _ _ j Hid) (Hflag _)
              ltac:(repeat constructor) H) as [H' E].
  split; [exact H'|]. destruct H as ((j & Hrow & _) & _).
  exists (w.(clock) m.(calls)), j. etransitivity; [exact E|]. now rewrite Hrow.
Qed.

Lemma ensures_storage_updateLastProgress :
  ensures (unstaged jobId m0) (storage_updateLastProgress w jobId)
    (fun _ => unstaged jobId m0).
Proof.
  intros m H. exists tt. split; [reflexivity|].
  destruct (unstaged_row_update
              (Job.assign (Job.Set_lastProgressAt (Some (w.(clock) m.(calls)))))
              [] m m.(context) (fun j => eq_refl) (fun j => eq_refl)
              ltac:(constructor) H) as [H' _].
  destruct H' as (R & S & C & evs & T & I). split; [exact R|].
  split; [exact S|]. split; [exact C|]. exists evs. split; [|exact I].
  cbn [trace] in T. rewrite app_nil_r in T. exact T.
Qed.

Lemma ensures_throwIfCancelled :
  ensures (unstaged jobId m0) (throwIfCancelled jobId) (fun _ => unstaged jobId m0).
Proof.
  intros m H. pose proof H as ((j & Hrow & Hj) & Hsteps & Hcalls & evs & T & I).
  assert (E : throwIfCancelled jobId m
              = (Ok tt, {| db := m.(db); calls := m.(calls);
                           trace := m.(trace) ++ [EvPoll false];
                           context := m.(context) |})).
  { unfold throwIfCancelled, isCancelled, storage_getJob, readDb.
    rewrite !bind_run. rewrite (getJob_of_row _ _ _ Hrow). cbn [row].
    rewrite bool_decide_eq_false_2 by exact Hj. reflexivity. }
  exists tt. rewrite E. split; [reflexivity|]. cbn [snd].
  split; [eauto|]. split; [exact Hsteps|]. split; [exact Hcalls|].
  exists (evs ++ [EvPoll false]). cbn [trace]. rewrite T, app_assoc.
  split; [reflexivity|]. apply Forall_app. split; [exact I|]. repeat constructor.
Qed.

Lemma ensures_runStep s fn :
  ensures (unstaged jobId m0) (runStep w jobId s fn) (fun _ => unstaged jobId m0).
Proof.
  intros m H. exists tt. rewrite runStep_returns_at_once; [split; [reflexivity|exact H]|].
  destruct H as (_ & Hsteps & _). unfold stepOf, DatabaseStorage.getJobSteps.
  rewrite Hsteps. unfold DatabaseStorage.getJobSteps in no_steps.
  now rewrite no_steps.
Qed.

Lemma ensures_seq {A B} (P : Machine -> Prop) (R : B -> Machine -> Prop)
    (c : Async A) (k : Async B) :
  ensures P c (fun _ => P) -> ensures P k R -> ensures P (bind c (fun _ => k)) R.
Proof. intros Hc Hk. eapply ensures_bind; [exact Hc|]. intros a. exact Hk. Qed.

Lemma ensures_processJob_try jobStartTime :
  ensures (unstaged jobId m0) (processJob_try w rev jobId jobStartTime)
    (fun _ m => unstaged jobId m0 m /\ job_completed jobId m.(db)).
Proof.
  unfold processJob_try.
  eapply ensures_bind; [apply ensures_storage_getJob|].
  intros [job|]; [|intros m [_ [? [=]]]]. cbv zeta.
  apply (ensures_pre _ (unstaged jobId m0)); [now intros m [H _]|].
  apply ensures_seq; [apply ensures_setContext|].
  apply ensures_seq.
  { eapply ensures_post;
      [apply ensures_storage_updateJob; [destruct rev; reflexivity|destruct rev; reflexivity|]
      |intros _ m [H _]; exact H].
    intros now j. destruct rev; reflexivity. }
  apply ensures_seq; [apply ensures_storage_updateLastProgress|].
  apply ensures_seq; [apply ensures_throwIfCancelled|].
  apply ensures_seq; [apply ensures_runStep|].
  apply ensures_seq; [apply ensures_throwIfCancelled|].
  apply ensures_seq; [apply ensures_runStep|].
  apply ensures_seq; [apply ensures_throwIfCancelled|].
  apply ensures_seq; [apply ensures_runStep|].
  apply ensures_seq; [apply ensures_throwIfCancelled|].
  apply ensures_seq; [apply ensures_runStep|].
  apply ensures_seq; [apply ensures_throwIfCancelled|].
  apply ensures_seq; [apply ensures_runStep|].
  eapply ensures_post;
    [apply ensures_storage_updateJob; [reflexivity|reflexivity|reflexivity]|].
  intros _ m [H (now & j & E)]. split; [exact H|].
  eexists. split; [exact E|]. split; reflexivity.
Qed.

End NoStage.

Lemma unstaged_locked w jobId m j :
  jobRow jobId m.(db) = Some j ->
  lease_free j (w.(clock) m.(calls)) ->
  j.(Job.cancelRequested) <> Some true ->
  (DatabaseStorage.acquireJobLock jobId w.(WORKER_ID) 120
     (w.(clock) m.(calls)) m.(db)).1 = true /\
  unstaged jobId m (locked w jobId m).
Proof.
  intros Hrow Hfree Hflag. apply leaseFree_spec in Hfree.
  assert (E : DatabaseStorage.acquireJobLock jobId w.(WORKER_ID) 120
                (w.(clock) m.(calls)) m.(db)
              = (true, with_jobs
                         (map (fun r => if bool_decide (r.(Job.id) = jobId)
                                        then DatabaseStorage.setLease w.(WORKER_ID)
                                               (w.(clock) m.(calls)) 120 r
                                        else r) m.(db).(jobs)) m.(db))).
  { unfold DatabaseStorage.acquireJobLock. unfold jobRow in Hrow.
    destruct (filter _ (jobs (db m))) as [|j' rest]; [discriminate|].
    cbn in Hrow. injection Hrow as ->. now rewrite Hfree. }
  split; [now rewrite E|]. unfold locked, unstaged. rewrite E. cbn [snd db calls trace].
  split; [|split; [reflexivity|split; [reflexivity|]]].
  - rewrite jobRow_updated by reflexivity. rewrite Hrow.
    eexists. split; [reflexivity|exact Hflag].
  - exists []. rewrite app_nil_r. split; [reflexivity|constructor].
Qed.

(** C10.  A step type for which the job has no step record is passed over:
    [runStep] returns at once, whatever the stage function, and leaves the
    machine as it is.  So a job none of whose steps was ever created, whose
    lease is free and which is not cancelled, runs through [processJob]
    without entering a stage or calling a service, and ends completed at
    100 percent. *)
Theorem missing_step_is_passed_over (w : World) (rev : Revision) (jobId s : string)
    (fn : Async unit) (m1 m : Machine) (j : Job.t) :
  stepOf jobId s m1.(db) = None ->
  jobRow jobId m.(db) = Some j ->
  lease_free j (w.(clock) m.(calls)) ->
  j.(Job.cancelRequested) <> Some true ->
  DatabaseStorage.getJobSteps jobId m.(db) = [] ->
  runStep w jobId s fn m1 = (Ok tt, m1) /\
  (processJob w rev jobId m).1 = Ok tt /\
  (processJob w rev jobId m).2.(db).(jobSteps) = m.(db).(jobSteps) /\
  (processJob w rev jobId m).2.(calls) = m.(calls) /\
  (exists evs, (processJob w rev jobId m).2.(trace) = m.(trace) ++ evs /\
               Forall idle evs) /\
  job_completed jobId (processJob w rev jobId m).2.(db).
Proof.
  intros Hnone Hrow Hfree Hflag Hsteps. split.
  { apply runStep_returns_at_once. now rewrite Hnone. }
  destruct (unstaged_locked w jobId m j Hrow Hfree Hflag) as [Hacq Hlocked].
  rewrite processJob_run, Hacq.
  destruct (ensures_processJob_try w rev jobId m Hsteps (w.(clock) m.(calls))
              _ Hlocked) as ([] & E & (_ & S & C & T) & (j' & Hj' & Hst & Hp)).
  destruct (processJob_try w rev jobId _ (locked w jobId m)) as [r m2].
  cbn [fst snd] in *. subst r. cbn [fst snd released db calls trace].
  split; [reflexivity|]. split; [exact S|]. split; [exact C|]. split; [exact T|].
  unfold job_completed, DatabaseStorage.releaseJobLock.
  rewrite jobRow_updated by reflexivity. rewrite Hj'.
  eexists. split; [reflexivity|]. split; [exact Hst|exact Hp].
Qed.

Lemma missing_step_is_passed_over_witness :
  let m := machine_of sample_db in
  runStep quiet_world "job-1" "script" (throw (JsError "entered")) m = (Ok tt, m) /\
  (processJob quiet_world Rev2 "job-1" m).1 = Ok tt /\
  (processJob quiet_world Rev2 "job-1" m).2.(db).(jobSteps) = m.(db).(jobSteps) /\
  (processJob quiet_world Rev2 "job-1" m).2.(calls) = m.(calls) /\
  (exists evs, (processJob quiet_world Rev2 "job-1" m).2.(trace) = m.(trace) ++ evs /\
               Forall idle evs) /\
  job_completed "job-1" (processJob quiet_world Rev2 "job-1" m).2.(db).
Proof.
  apply (missing_step_is_passed_over quiet_world Rev2 "job-1" "script" _
           (machine_of sample_db) (machine_of sample_db) sample_job).
  - reflexivity.
  - reflexivity.
  - left. reflexivity.
  - discriminate.
  - reflexivity.
Defined.

(** ** Scene timings *)

Lemma chained_app start l1 l2 :
  chained start (l1 ++ l2)
  <-> chained start l1 /\
      chained (foldl PrimFloat.add start (sceneDurations l1)) l2.
Proof.
  revert start. induction l1 as [|s l1 IH]; intros start; cbn; [tauto|].
  rewrite IH. split.
  - intros (H1 & H2 & H3 & H4). rewrite <- H2. tauto.
  - intros ((H1 & H2 & H3) & H4). rewrite <- H2 in H4. tauto.
Qed.

Lemma chained_adjacent start l i a b :
  chained start l -> l !! i = Some a -> l !! S i = Some b ->
  a.(Scene.endTime) = b.(Scene.startTime).
Proof.
  revert start i. induction l as [|s l IH]; intros start i H Ha Hb; [discriminate|].
  destruct H as (_ & _ & H). destruct i as [|i].
  - injection Ha as ->. destruct l as [|s' l]; [discriminate|].
    injection Hb as ->. destruct H as (H & _). now rewrite H.
  - exact (IH _ i H Ha Hb).
Qed.

Lemma chained_last start l s :
  chained start l -> last l = Some s ->
  s.(Scene.endTime) = foldl PrimFloat.add start (sceneDurations l).
Proof.
  revert start. induction l as [|s0 l IH]; intros start H Hl; [discriminate|].
  destruct H as (H1 & H2 & H3). destruct l as [|s1 l].
  - injection Hl as ->. exact H2.
  - cbn [sceneDurations map foldl]. rewrite <- H2. now apply IH.
Qed.

Section Reconciliation.

Variable w : World.
Variable jobId : string.

Lemma returns_finally_nothing {A} (Q : A -> Prop) (c : Async A) :
  returns Q c -> returns Q (try_finally c (ret tt)).
Proof.
  intros Hc m a. unfold try_finally. specialize (Hc m a).
  destruct (c m) as [r m1]. exact Hc.
Qed.

Lemma returns_for_loop {St} (Inv : nat -> St -> Prop) (body : nat -> St -> Async St) :
  (forall i st, Inv i st -> returns (Inv (S i)) (body i st)) ->
  forall todo from st,
    Inv from st -> returns (Inv (from + todo)%nat) (for_loop todo from body st).
Proof.
  intros Hbody todo. induction todo as [|todo IH]; intros from st H; cbn [for_loop].
  - apply returns_ret. now rewrite Nat.add_0_r.
  - eapply returns_bind_with; [apply Hbody, H|]. intros st' H'.
    replace (from + S todo)%nat with (S from + todo)%nat by lia. now apply IH.
Qed.

Lemma reconcile_iteration_spec (n i : nat) (st : Reconcile) :
  reconciled n i st -> returns (reconciled n (S i)) (reconcile_iteration w jobId i st).
Proof.
  intros (Hlen & Hchain & Htime). unfold reconcile_iteration, sceneAt.
  destruct (rc_updatedScenes st !! i) as [scene|] eqn:Hi;
    [|intros m a; discriminate].
  apply returns_bind. intros scene'.
  apply (returns_bind_with
           (fun detected => exists d, detected.1
              = alter (Scene.assign (Scene.Set_audioDurationSeconds (Some d))) i
                      st.(rc_updatedScenes))).
  { destruct (truthy_str _); [|apply returns_ret; eauto].
    apply returns_finally_nothing, returns_catch.
    - apply returns_bind. intros _. apply returns_bind. intros d.
      apply returns_ret. eauto.
    - intros err. cbv zeta. destruct (_ <=? _); [apply returns_throw|].
      apply returns_ret. eauto. }
  intros detected (d & Hd). cbv zeta. apply returns_ret. rewrite Hd.
  rewrite list_lookup_alter_eq, Hi.
  change (Some scene ≫= _) with (Some d) ||
    change ((_ <$> Some scene) ≫= Scene.audioDurationSeconds) with (Some d).
  set (t := rc_currentTime st) in *. set (dur := num_or (Some d) 5%float).
  set (s' := Scene.assign (Scene.Set_endTime (PrimFloat.add t dur))
               (Scene.assign (Scene.Set_startTime t)
                  (Scene.assign (Scene.Set_audioDurationSeconds (Some d)) scene))).
  unfold reconciled. cbn [rc_updatedScenes rc_currentTime].
  assert (Htake : take (S i)
                    (alter (Scene.assign (Scene.Set_endTime (PrimFloat.add t dur))) i
                       (alter (Scene.assign (Scene.Set_startTime t)) i
                          (alter (Scene.assign (Scene.Set_audioDurationSeconds (Some d)))
                             i (rc_updatedScenes st))))
                  = take i (rc_updatedScenes st) ++ [s']).
  { erewrite take_S_r by (rewrite !list_lookup_alter_eq, Hi; reflexivity).
    now rewrite !take_alter_ge by lia. }
  rewrite Htake. split; [now rewrite !length_alter|]. split.
  - apply chained_app. split; [exact Hchain|]. rewrite <- Htime.
    repeat split; reflexivity.
  - unfold sceneDurations in *. rewrite map_app, foldl_app, <- Htime. reflexivity.
Qed.

(** The reconciliation loop over [n] scenes, when it returns, has laid the
    timings of all of them end to end from 0, and [currentTime] is the total
    duration the renderer computes for them. *)
Lemma reconcile_loop_spec (ss : list Scene.t) :
  returns (fun st => length st.(rc_updatedScenes) = length ss /\
                     chained 0%float st.(rc_updatedScenes) /\
                     st.(rc_currentTime) = totalDuration st.(rc_updatedScenes))
    (for_loop (length ss) 0 (reconcile_iteration w jobId)
       {| rc_updatedScenes := ss; rc_currentTime := 0%float;
          rc_consecutiveFailures := 0 |}).
Proof.
  intros m st H.
  assert (H0 : reconciled (length ss) 0
                 {| rc_updatedScenes := ss; rc_currentTime := 0%float;
                    rc_consecutiveFailures := 0 |}) by (repeat split).
  destruct (returns_for_loop (reconciled (length ss)) (reconcile_iteration w jobId)
              (reconcile_iteration_spec (length ss)) (length ss) 0%nat _ H0 m st H)
    as (Hlen & Hchain & Htime).
  cbn [Nat.add] in *. rewrite <- Hlen, firstn_all in Hchain, Htime.
  split; [exact Hlen|]. split; [exact Hchain|exact Htime].
Qed.

End Reconciliation.

(** What the loop leaves, in the words of the timing invariant: the first
    scene starts at 0, every scene ends where the next one starts, and the
    last one ends at the total duration the renderer computes. *)
Lemma reconcile_loop_timings (w : World) (jobId : string) (ss : list Scene.t) :
  returns (fun st =>
             (forall s, head st.(rc_updatedScenes) = Some s ->
                        s.(Scene.startTime) = 0%float) /\
             (forall i a b, st.(rc_updatedScenes) !! i = Some a ->
                            st.(rc_updatedScenes) !! S i = Some b ->
                            a.(Scene.endTime) = b.(Scene.startTime)) /\
             (forall s, last st.(rc_updatedScenes) = Some s ->
                        s.(Scene.endTime) = totalDuration st.(rc_updatedScenes)))
    (for_loop (length ss) 0 (reconcile_iteration w jobId)
       {| rc_updatedScenes := ss; rc_currentTime := 0%float;
          rc_consecutiveFailures := 0 |}).
Proof.
  intros m st H. destruct (reconcile_loop_spec w jobId ss m st H) as (_ & Hchain & _).
  split; [|split].
  - intros s Hs. destruct (rc_updatedScenes st) as [|s0 l]; [discriminate|].
    injection Hs as ->. now destruct Hchain.
  - intros i a b. now apply (chained_adjacent 0%float).
  - intros s Hs. now apply (chained_last 0%float).
Qed.

(** *** A resumed job *)

(** C7, the code at the failing input.  The sample job is resumed after its
    script step completed, its two scenes carrying the script generator's
    timings (0 to 7.5 and 7.5 to 15 seconds).  [context.script] is not
    reloaded, so the audio stage runs neither the voice-over loop nor the
    reconciliation and its step still completes; the video step then records
    a total duration of 10 seconds while the last scene ends at 15. *)
Theorem resumed_job_keeps_scripted_timings :
  let m := interrupted_machine 1 generating_script 10 sample_scenes in
  let m' := (processJob quiet_world Rev2 "job-1" m).2 in
  step_is_completed "job-1" "assets_audio" m'.(db) /\
  exists j ss final total,
    jobRow "job-1" m'.(db) = Some j /\
    j.(Job.status) = completed /\
    j.(Job.scenes) = Some ss /\
    Forall (fun s => s.(Scene.audioAssetUrl) = None
                     /\ s.(Scene.audioDurationSeconds) = None) ss /\
    last ss = Some final /\
    j.(Job.durationSeconds) = Some total /\
    final.(Scene.endTime) = 15%float /\
    total = 10%float /\
    PrimFloat.eqb final.(Scene.endTime) total = false.
Proof.
  cbv zeta. split.
  - eexists. split; [vm_compute; reflexivity|reflexivity].
  - eexists _, _, _, _. split; [vm_compute; reflexivity|].
    split; [reflexivity|]. split; [reflexivity|].
    split; [repeat constructor|]. split; [reflexivity|].
    split; [reflexivity|]. split; [reflexivity|]. split; reflexivity.
Qed.
(** ** Cancellation *)

(** *** Requests posted while a run is under way *)

Lemma told_after_app w jobId told evs1 evs2 :
  told_after w jobId told (evs1 ++ evs2)
  = told_after w jobId (told_after w jobId told evs1) evs2.
Proof. unfold told_after. now rewrite existsb_app, orb_assoc. Qed.

Lemma heeded_app w jobId told evs1 evs2 :
  heeded w jobId told (evs1 ++ evs2) <->
  heeded w jobId told evs1 /\ heeded w jobId (told_after w jobId told evs1) evs2.
Proof.
  revert told. induction evs1 as [|ev evs1 IH]; intros told.
  - unfold told_after. cbn. rewrite orb_false_r. tauto.
  - cbn [app heeded]. rewrite IH. unfold told_after. cbn [existsb].
    rewrite orb_assoc. tauto.
Qed.

(** Once a request is posted, every event is one allowed after it. *)
Lemma heeded_told w jobId evs :
  heeded w jobId true evs -> Forall (allowed true) evs.
Proof. induction evs as [|ev evs IH]; [constructor|]. intros [A H]. auto. Qed.

Lemma heeded_written w jobId told evs :
  Forall written evs -> heeded w jobId told evs /\ told_after w jobId told evs = told.
Proof.
  unfold told_after. induction 1 as [|ev evs W _ [IH1 IH2]].
  - cbn. now rewrite orb_false_r.
  - destruct ev; try contradiction. cbn. rewrite orb_false_r. auto.
Qed.

(** *** The flag under the writes of the worker *)

Lemma heard_jobs jobId d d' : d'.(jobs) = d.(jobs) -> heard jobId d' = heard jobId d.
Proof. intros E. unfold heard, jobRow. now rewrite E. Qed.

Lemma tame_keeps_id updates : tame updates = true -> keeps_id updates = true.
Proof.
  unfold tame, keeps_id. induction updates as [|a l IH]; [reflexivity|]. cbn.
  intros H. apply andb_true_iff in H as [Ha H]. rewrite IH by exact H.
  destruct a; try reflexivity; discriminate.
Qed.

Lemma foldl_assign_tame (updates : list Job.Assign) (j : Job.t) :
  tame updates = true -> terminal j.(Job.status) = false ->
  terminal (foldl (fun r a => Job.assign a r) j updates).(Job.status) = false /\
  (foldl (fun r a => Job.assign a r) j updates).(Job.cancelRequested)
  = j.(Job.cancelRequested).
Proof.
  revert j. induction updates as [|a l IH]; intros j H T; [auto|].
  cbn in H. apply andb_true_iff in H as [Ha H]. cbn [foldl].
  destruct (IH (Job.assign a j) H) as [I1 I2].
  - destruct a; try exact T; try discriminate. cbn. now apply negb_true_iff.
  - split; [exact I1|]. rewrite I2. destruct a; try reflexivity; discriminate.
Qed.

Lemma heard_applied (f : Job.t -> Job.t) jobId d told :
  (forall j, (f j).(Job.id) = j.(Job.id)) ->
  (forall j, terminal j.(Job.status) = false ->
             terminal (f j).(Job.status) = false /\
             (f j).(Job.cancelRequested) = j.(Job.cancelRequested)) ->
  heard jobId d = Some told ->
  heard jobId (with_jobs (map (fun j => if bool_decide (j.(Job.id) = jobId)
                                        then f j else j) d.(jobs)) d) = Some told.
Proof.
  intros Hid Hf. unfold heard. rewrite jobRow_updated by exact Hid.
  destruct (jobRow jobId d) as [j|]; [|discriminate]. cbn [fmap option_fmap option_map].
  destruct (terminal (Job.status j)) eqn:T; [discriminate|].
  destruct (Hf j T) as [-> ->]. auto.
Qed.

Lemma heard_updatedJobs jobId updates now d told :
  tame updates = true ->
  heard jobId d = Some told ->
  heard jobId (DatabaseStorage.updatedJobs jobId updates now d) = Some told.
Proof.
  intros H. unfold DatabaseStorage.updatedJobs. apply heard_applied.
  - intros j. apply applyJobUpdates_id. now apply tame_keeps_id.
  - intros j T. unfold DatabaseStorage.applyJobUpdates. apply foldl_assign_tame; [|exact T].
    unfold tame in *. now rewrite forallb_app, H.
Qed.

Lemma heard_updateLastProgress jobId now d told :
  heard jobId d = Some told ->
  heard jobId (DatabaseStorage.updateLastProgress jobId now d) = Some told.
Proof.
  unfold DatabaseStorage.updateLastProgress. apply heard_applied; [reflexivity|].
  intros j T. auto.
Qed.

Lemma jobRow_other (f : Job.t -> Job.t) id jobId d :
  (forall j, (f j).(Job.id) = j.(Job.id)) -> id <> jobId ->
  jobRow jobId (with_jobs (map (fun j => if bool_decide (j.(Job.id) = id)
                                         then f j else j) d.(jobs)) d)
  = jobRow jobId d.
Proof.
  intros Hid N. unfold jobRow. cbn [jobs with_jobs]. f_equal.
  induction (jobs d) as [|j l IH]; [reflexivity|]. cbn [map].
  destruct (decide (j.(Job.id) = id)) as [E|E].
  - rewrite bool_decide_eq_true_2 by exact E.
    rewrite !filter_cons_False by (rewrite ?Hid; congruence). exact IH.
  - rewrite bool_decide_eq_false_2 by exact E.
    destruct (decide (j.(Job.id) = jobId)) as [E'|E'].
    + rewrite !filter_cons_True by exact E'. now rewrite IH.
    + rewrite !filter_cons_False by exact E'. exact IH.
Qed.

(** A cancel request sets the flag of the job it names, which is in
    progress, and of no other. *)
Lemma heard_cancelJob id jobId now d told :
  heard jobId d = Some told ->
  heard jobId (cancelJob id now d).2 = Some (told || bool_decide (id = jobId)).
Proof.
  intros H. destruct (decide (id = jobId)) as [->|N].
  - rewrite bool_decide_eq_true_2 by reflexivity. rewrite orb_true_r.
    unfold heard in H. destruct (jobRow jobId d) as [j|] eqn:Hrow; [|discriminate].
    destruct (terminal (Job.status j)) eqn:T; [discriminate|].
    unfold cancelJob. rewrite (getJob_of_row _ _ _ Hrow). cbn [row].
    assert (E : DatabaseStorage.updateJob jobId [Job.Set_cancelRequested (Some true)] now d
                = Stored (DatabaseStorage.updatedJobs jobId
                            [Job.Set_cancelRequested (Some true)] now d))
      by reflexivity.
    rewrite E.
    assert (G : heard jobId (DatabaseStorage.updatedJobs jobId
                               [Job.Set_cancelRequested (Some true)] now d) = Some true).
    { unfold heard. rewrite jobRow_updateJob by reflexivity. rewrite Hrow.
      cbn [fmap option_fmap option_map]. cbn. now rewrite T. }
    destruct (Job.status j); try discriminate; exact G.
  - rewrite bool_decide_eq_false_2 by exact N. rewrite orb_false_r.
    rewrite <- H. unfold heard.
    assert (R : jobRow jobId (cancelJob id now d).2 = jobRow jobId d);
      [|now rewrite R].
    unfold cancelJob. destruct (DatabaseStorage.getJob id d) as [jw|]; [|reflexivity].
    assert (G : jobRow jobId (DatabaseStorage.updatedJobs id
                                [Job.Set_cancelRequested (Some true)] now d)
                = jobRow jobId d).
    { unfold DatabaseStorage.updatedJobs. apply jobRow_other; [|exact N]. reflexivity. }
    destruct (Job.status (row jw)); try reflexivity; exact G.
Qed.

(** *** Commands that do not touch the flag *)

Section Muting.

Variable w : World.
Variable jobId : string.

Lemma mute_still {A} (c : Async A) :
  (forall m, (c m).2.(db) = m.(db) /\ (c m).2.(trace) = m.(trace)) -> mute jobId c.
Proof.
  intros H m told Hh. destruct (H m) as [-> ->]. split; [exact Hh|].
  exists []. rewrite app_nil_r. split; [reflexivity|constructor].
Qed.

Lemma mute_bind {A B} (c : Async A) (k : A -> Async B) :
  mute jobId c -> (forall a, mute jobId (k a)) -> mute jobId (bind c k).
Proof.
  intros Hc Hk m told Hh. rewrite bind_run. destruct (Hc m told Hh) as (H1 & evs1 & T1 & W1).
  destruct (c m) as [[a|e] m1]; cbn [fst snd] in *; [|eauto].
  destruct (Hk a m1 told H1) as (H2 & evs2 & T2 & W2). split; [exact H2|].
  exists (evs1 ++ evs2). rewrite T2, T1, app_assoc. split; [reflexivity|].
  now apply Forall_app.
Qed.

Lemma mute_writeDb (f : Store -> Store) :
  (forall d told, heard jobId d = Some told -> heard jobId (f d) = Some told) ->
  mute jobId (writeDb f).
Proof.
  intros H m told Hh. cbn. split; [now apply H|]. exists []. rewrite app_nil_r.
  split; [reflexivity|constructor].
Qed.

Lemma mute_awaitWrite (statement : Store -> Written) :
  (forall d d' told, statement d = Stored d' -> heard jobId d = Some told ->
                     heard jobId d' = Some told) ->
  mute jobId (awaitWrite w statement).
Proof.
  intros H m told Hh. unfold awaitWrite.
  destruct (statement (db m)) as [d'|why] eqn:E; cbn [fst snd db trace].
  - split; [now apply (H _ _ _ E)|]. exists []. rewrite app_nil_r.
    split; [reflexivity|constructor].
  - split; [exact Hh|]. exists []. rewrite app_nil_r. split; [reflexivity|constructor].
Qed.

Lemma mute_storage_updateJob updates :
  tame updates = true -> mute jobId (storage_updateJob w jobId updates).
Proof.
  intros H m told Hh.
  destruct (storage_updateJob_cases w jobId updates m) as [E|(e & E)]; rewrite E;
    cbn [fst snd db trace].
  - split; [now apply heard_updatedJobs|]. exists [EvUpdateJob jobId updates].
    split; [reflexivity|]. repeat constructor.
  - split; [exact Hh|]. exists []. rewrite app_nil_r. split; [reflexivity|constructor].
Qed.

Lemma mute_storage_updateLastProgress : mute jobId (storage_updateLastProgress w jobId).
Proof.
  unfold storage_updateLastProgress. apply mute_bind.
  - apply mute_still. intros m. split; reflexivity.
  - intros now. apply mute_writeDb. intros d told. apply heard_updateLastProgress.
Qed.

Lemma mute_storage_updateJobStep id updates :
  mute jobId (storage_updateJobStep id updates).
Proof.
  apply mute_writeDb. intros d told H. rewrite <- H. now apply heard_jobs.
Qed.

Lemma mute_storage_createAsset a : mute jobId (storage_createAsset w a).
Proof.
  unfold storage_createAsset. apply mute_bind.
  - apply mute_still. intros m. split; reflexivity.
  - intros now. apply mute_awaitWrite. intros d d' told E H.
    apply createAsset_stored in E. subst d'. rewrite <- H. now apply heard_jobs.
Qed.

Lemma mute_saveStepTiming contentType s durationMs :
  mute jobId (saveStepTiming w contentType s durationMs).
Proof.
  unfold saveStepTiming, storage_getSetting, storage_setSetting. cbv zeta.
  apply mute_bind; [apply mute_still; intros m; split; reflexivity|]. intros existing.
  apply mute_bind; [apply mute_still; intros m; split; reflexivity|]. intros now.
  apply mute_writeDb. intros d told H. rewrite <- H. apply heard_jobs.
  unfold DatabaseStorage.setSetting. destruct (DatabaseStorage.getSetting _ d); reflexivity.
Qed.

End Muting.

Ltac tamed :=
  first [ reflexivity
        | match goal with |- context [etaField ?r _] => destruct r end; reflexivity ].

Ltac mute_walk :=
  cbv zeta;
  lazymatch goal with
  | |- mute _ (bind _ _) => apply mute_bind; [ mute_walk | intros ?; mute_walk ]
  | |- mute _ (if ?b then _ else _) => destruct b; mute_walk
  | |- mute _ (match ?x with _ => _ end) => destruct x; mute_walk
  | |- mute _ (storage_updateJob _ _ _) => apply mute_storage_updateJob; tamed
  | |- mute _ (storage_updateLastProgress _ _) => apply mute_storage_updateLastProgress
  | |- mute _ (storage_updateJobStep _ _) => apply mute_storage_updateJobStep
  | |- mute _ (storage_createAsset _ _) => apply mute_storage_createAsset
  | |- mute _ (saveStepTiming _ _ _ _) => apply mute_saveStepTiming
  | |- mute _ (reloadScenes _) => unfold reloadScenes; mute_walk
  | |- mute _ (setContextScenes _) => unfold setContextScenes; mute_walk
  | |- mute _ (sceneAt _ _) => unfold sceneAt; mute_walk
  | |- mute _ (calculateETA _ _ _ _) => unfold calculateETA; mute_walk
  | |- mute _ _ => apply mute_still; intros ?; split; reflexivity
  end.

(** *** The rules of the pass *)

Section Heeding.

Variable w : World.
Variable jobId : string.

Lemma heeds_mute p {A} (c : Async A) : mute jobId c -> heeds w jobId p c p.
Proof.
  intros H m told Hh Hp. destruct (H m told Hh) as (H1 & evs & T & W).
  destruct (heeded_written w jobId told evs W) as [G E].
  exists evs. rewrite E. repeat split; auto.
Qed.

Lemma heeds_pre p q {A} (c : Async A) : heeds w jobId false c q -> heeds w jobId p c q.
Proof. intros H m told Hh _. apply H; [exact Hh|discriminate]. Qed.

Lemma heeds_post p q {A} (c : Async A) : heeds w jobId p c q -> heeds w jobId p c false.
Proof.
  intros H m told Hh Hp. destruct (H m told Hh Hp) as (evs & T & G & H1 & _).
  exists evs. repeat split; auto. discriminate.
Qed.

Lemma heeds_bind p q r {A B} (c : Async A) (k : A -> Async B) :
  heeds w jobId p c q -> (forall a, heeds w jobId q (k a) r) ->
  heeds w jobId p (bind c k) r.
Proof.
  intros Hc Hk m told Hh Hp. rewrite bind_run.
  destruct (Hc m told Hh Hp) as (evs1 & T1 & G1 & H1 & Q1).
  destruct (c m) as [[a|e] m1]; cbn [fst snd] in *.
  - destruct (Hk a m1 _ H1) as (evs2 & T2 & G2 & H2 & Q2).
    { intros Hq. exact (Q1 Hq a eq_refl). }
    exists (evs1 ++ evs2). rewrite T2, T1, app_assoc, told_after_app.
    split; [reflexivity|]. split; [now apply heeded_app|]. split; [exact H2|exact Q2].
  - exists evs1. repeat split; auto. discriminate.
Qed.

Lemma heeds_catch p q {A} (c : Async A) (h : Thrown -> Async A) :
  heeds w jobId p c q -> (forall e, heeds w jobId false (h e) q) ->
  heeds w jobId p (try_catch c h) q.
Proof.
  intros Hc Hh m told Hm Hp. unfold try_catch.
  destruct (Hc m told Hm Hp) as (evs1 & T1 & G1 & H1 & Q1).
  destruct (c m) as [[a|e] m1]; cbn [fst snd] in *.
  - exists evs1. repeat split; auto.
  - destruct (Hh e m1 _ H1) as (evs2 & T2 & G2 & H2 & Q2); [discriminate|].
    exists (evs1 ++ evs2). rewrite T2, T1, app_assoc, told_after_app.
    split; [reflexivity|]. split; [now apply heeded_app|]. split; [exact H2|exact Q2].
Qed.

Lemma heeds_finally_nothing p q {A} (c : Async A) :
  heeds w jobId p c q -> heeds w jobId p (try_finally c (ret tt)) q.
Proof.
  intros Hc m told Hm Hp. unfold try_finally. specialize (Hc m told Hm Hp).
  destruct (c m) as [r m1]. exact Hc.
Qed.

Lemma heeds_for_loop p {St} count from (body : nat -> St -> Async St) (s : St) :
  (forall i st, heeds w jobId false (body i st) false) ->
  heeds w jobId p (for_loop count from body s) false.
Proof.
  intros H. revert p from s. induction count as [|n IH]; intros p from s; cbn [for_loop].
  - apply (heeds_post p p). apply heeds_mute. apply mute_still. intros m. split; reflexivity.
  - apply (heeds_bind p false); [apply heeds_pre, H|]. intros s'. apply IH.
Qed.

(** A poll finds the flag as it is, and is passed only when it is clear. *)
Lemma heeds_throwIfCancelled p : heeds w jobId p (throwIfCancelled jobId) true.
Proof.
  intros m told Hm _. pose proof Hm as Hh. unfold heard in Hm.
  destruct (jobRow jobId (db m)) as [j|] eqn:Hrow; [|discriminate].
  destruct (terminal (Job.status j)); [discriminate|]. injection Hm as Hm.
  exists [EvPoll told]. unfold told_after. cbn [existsb hears]. rewrite !orb_false_r.
  unfold throwIfCancelled, isCancelled, storage_getJob, readDb, log, bind, ret, throw.
  rewrite (getJob_of_row _ _ _ Hrow). cbn [row]. rewrite Hm.
  destruct told; cbn [fst snd db trace]; cbn [heeded allowed].
  - repeat split; auto. discriminate.
  - repeat split; auto.
Qed.

(** While a call is pending a request may be posted; a call that begins a
    stage or a scene is made only when none was before. *)
Lemma heeds_external p {A} svc (reply : nat -> Outcome A) :
  (opens svc = true -> p = true) -> heeds w jobId p (external w svc reply) false.
Proof.
  intros Ho m told Hm Hp. exists [EvCall (calls m) svc]. unfold external.
  cbn [fst snd db trace]. split; [reflexivity|]. split; [|split; [|discriminate]].
  - cbn. split; [auto|exact I].
  - unfold told_after. cbn [existsb hears]. rewrite orb_false_r.
    destruct (cancelPosted w (calls m)) as [id|] eqn:E.
    + rewrite (heard_cancelJob id jobId _ _ told Hm). do 2 f_equal.
      destruct (decide (id = jobId)) as [->|N].
      * now rewrite !bool_decide_eq_true_2.
      * rewrite !bool_decide_eq_false_2; [reflexivity|congruence|exact N].
    + rewrite bool_decide_eq_false_2 by discriminate. now rewrite orb_false_r.
Qed.

(** A stage function is entered only when no request was posted. *)
Lemma heeds_log_stage s : heeds w jobId true (log (EvStage s)) true.
Proof.
  intros m told Hm Hp. rewrite (Hp eq_refl) in *. exists [EvStage s]. cbn.
  repeat split; auto.
Qed.

End Heeding.

Ltac heed_leaf :=
  lazymatch goal with
  | |- heeds _ _ _ (throwIfCancelled _) _ => apply heeds_throwIfCancelled
  | |- heeds _ _ _ (external _ _ _) _ =>
      apply heeds_external;
      first [ intros _; reflexivity | intros Hopens; discriminate Hopens ]
  | |- heeds _ _ _ (log (EvStage _)) _ => apply heeds_log_stage
  | |- _ =>
      first [ match goal with H : _ |- _ => solve [ apply H ] end
            | apply heeds_mute; mute_walk ]
  end.

Ltac heed_compound q := tryif is_evar q then unify q false else idtac.

Ltac heed_walk :=
  cbv zeta;
  lazymatch goal with
  | |- heeds _ _ _ (bind _ _) _ =>
      eapply heeds_bind; [ heed_walk | intros ?; heed_walk ]
  | |- heeds _ _ _ (try_catch _ _) ?q =>
      heed_compound q; apply heeds_catch; [ heed_walk | intros ?; heed_walk ]
  | |- heeds _ _ _ (try_finally _ (ret tt)) ?q =>
      heed_compound q; apply heeds_finally_nothing; heed_walk
  | |- heeds _ _ _ (for_loop _ _ _ _) ?q =>
      heed_compound q; apply heeds_for_loop; intros ? ?; heed_walk
  | |- heeds _ _ _ (if ?b then _ else _) ?q => heed_compound q; destruct b; heed_walk
  | |- heeds _ _ _ (match ?x with _ => _ end) ?q => heed_compound q; destruct x; heed_walk
  | |- heeds _ _ _ (renderVideo _ _) _ => unfold renderVideo; heed_walk
  | |- heeds _ _ _ _ _ => first [ heed_leaf | eapply heeds_post; heed_leaf ]
  end.

Section HeedingStages.

Variable w : World.
Variable rev : Revision.
Variable jobId : string.
Variable settings : JobSettings.
Variable jobStartTime : Z.

Lemma heeds_getAudioDuration_from p remaining attempt retries :
  heeds w jobId p (getAudioDuration_from w remaining attempt retries) false.
Proof.
  revert p attempt. induction remaining as [|n IH]; intros p attempt;
    cbn [getAudioDuration_from]; [heed_walk|].
  unfold probeDurationOnce. pose proof (IH false (S attempt)). heed_walk.
Qed.

Lemma heeds_getAudioDuration p retries :
  heeds w jobId p (getAudioDuration w retries) false.
Proof. apply heeds_getAudioDuration_from. Qed.

Lemma heeds_stage_script :
  heeds w jobId true (stage_script w rev jobId settings jobStartTime) false.
Proof. unfold stage_script. heed_walk. Qed.

Lemma heeds_visual_iteration i ss :
  heeds w jobId false (visual_iteration w rev jobId jobStartTime i ss) false.
Proof. unfold visual_iteration. heed_walk. Qed.

Lemma heeds_stage_assets_visual :
  heeds w jobId true (stage_assets_visual w rev jobId settings jobStartTime) false.
Proof. unfold stage_assets_visual. pose proof heeds_visual_iteration. heed_walk. Qed.

Lemma heeds_audio_iteration voice i ss :
  heeds w jobId false (audio_iteration w rev jobId voice jobStartTime i ss) false.
Proof. unfold audio_iteration. heed_walk. Qed.

Lemma heeds_reconcile_iteration i st :
  heeds w jobId false (reconcile_iteration w jobId i st) false.
Proof.
  unfold reconcile_iteration. pose proof (heeds_getAudioDuration false 3). heed_walk.
Qed.

Lemma heeds_stage_assets_audio :
  heeds w jobId true (stage_assets_audio w rev jobId settings jobStartTime) false.
Proof.
  unfold stage_assets_audio. pose proof heeds_audio_iteration.
  pose proof heeds_reconcile_iteration. heed_walk.
Qed.

Lemma heeds_stage_video : heeds w jobId true (stage_video w rev jobId settings) false.
Proof. unfold stage_video. heed_walk. Qed.

Lemma heeds_stage_caption : heeds w jobId true (stage_caption w rev jobId settings) false.
Proof. unfold stage_caption. heed_walk. Qed.

(** [runStep], reached with no request posted, enters the stage function
    with none posted. *)
Lemma heeds_runStep s fn :
  heeds w jobId true fn false -> heeds w jobId true (runStep w jobId s fn) false.
Proof. intros H. unfold runStep. heed_walk. Qed.

End HeedingStages.

(** *** The [try] block *)

Ltac heed_stage_lemma :=
  lazymatch goal with
  | |- heeds _ _ _ (stage_script _ _ _ _ _) _ => apply heeds_stage_script
  | |- heeds _ _ _ (stage_assets_visual _ _ _ _ _) _ => apply heeds_stage_assets_visual
  | |- heeds _ _ _ (stage_assets_audio _ _ _ _ _) _ => apply heeds_stage_assets_audio
  | |- heeds _ _ _ (stage_video _ _ _ _) _ => apply heeds_stage_video
  | |- heeds _ _ _ (stage_caption _ _ _ _) _ => apply heeds_stage_caption
  end.

Section HeedingToTheEnd.

Variable w : World.
Variable jobId : string.

Lemma heeds_to_end_bind p q {A B} (c : Async A) (k : A -> Async B) :
  heeds w jobId p c q -> (forall a, heeds_to_end w jobId q (k a)) ->
  heeds_to_end w jobId p (bind c k).
Proof.
  intros Hc Hk m told Hh Hp. rewrite bind_run.
  destruct (Hc m told Hh Hp) as (evs1 & T1 & G1 & H1 & Q1).
  destruct (c m) as [[a|e] m1]; cbn [fst snd] in *; [|eauto].
  destruct (Hk a m1 _ H1) as (evs2 & T2 & G2).
  { intros Hq. exact (Q1 Hq a eq_refl). }
  exists (evs1 ++ evs2). rewrite T2, T1, app_assoc. split; [reflexivity|].
  now apply heeded_app.
Qed.

(** The write that ends the job logs nothing a request forbids. *)
Lemma heeds_to_end_update p id updates :
  heeds_to_end w jobId p (storage_updateJob w id updates).
Proof.
  intros m told _ _.
  destruct (storage_updateJob_cases w id updates m) as [E|(e & E)]; rewrite E.
  - exists [EvUpdateJob id updates]. cbn. auto.
  - exists []. cbn. now rewrite app_nil_r.
Qed.

End HeedingToTheEnd.

Ltac end_walk :=
  cbv zeta;
  lazymatch goal with
  | |- heeds_to_end _ _ _ (bind (runStep _ _ _ _) _) =>
      eapply heeds_to_end_bind;
      [ apply heeds_runStep; heed_stage_lemma | intros ?; end_walk ]
  | |- heeds_to_end _ _ _ (bind _ _) =>
      eapply heeds_to_end_bind; [ heed_walk | intros ?; end_walk ]
  | |- heeds_to_end _ _ _ (storage_updateJob _ _ _) => apply heeds_to_end_update
  end.

(** The [try] block heeds the requests posted while it runs, the flag being
    as the job's row has it when the block is entered. *)
Lemma processJob_try_heeds w rev jobId jobStartTime (m : Machine) j :
  jobRow jobId m.(db) = Some j ->
  exists evs,
    (processJob_try w rev jobId jobStartTime m).2.(trace) = m.(trace) ++ evs /\
    heeded w jobId (bool_decide (j.(Job.cancelRequested) = Some true)) evs.
Proof.
  intros Hrow. unfold processJob_try. rewrite bind_run.
  unfold storage_getJob at 1, readDb at 1. rewrite (getJob_of_row _ _ _ Hrow).
  cbv zeta. cbn [row].
  rewrite bind_run. unfold setContext at 1. cbv beta iota.
  rewrite bind_run, storage_updateJob_run by taken. cbv beta iota.
  match goal with |- context [bind ?c ?k ?m2] =>
    assert (H : heeds_to_end w jobId false (bind c k)) by end_walk;
    destruct (H m2 (bool_decide (j.(Job.cancelRequested) = Some true)))
      as (evs & T & G); [|discriminate|]
  end.
  - cbn [db]. unfold heard. rewrite jobRow_updateJob by taken. rewrite Hrow.
    cbn [fmap option_fmap option_map]. destruct rev; reflexivity.
  - eexists (_ :: evs). rewrite T. cbn [trace]. rewrite <- app_assoc.
    split; [reflexivity|]. cbn. rewrite orb_false_r. auto.
Qed.

(** *** Calls are made inside their stage *)

Lemma staged_app cur evs1 evs2 :
  staged cur (evs1 ++ evs2) <->
  staged cur evs1 /\
  staged (match last_stage evs1 with Some s => Some s | None => cur end) evs2.
Proof.
  revert cur. induction evs1 as [|ev evs1 IH]; intros cur.
  - cbn. tauto.
  - cbn [app staged]. rewrite IH.
    change (ev :: evs1) with ([ev] ++ evs1). rewrite (last_stage_app [ev] evs1).
    destruct (last_stage evs1) as [s|]; [tauto|]. destruct ev; cbn; tauto.
Qed.

Lemma staged_within s evs : Forall (within s) evs -> staged (Some s) evs.
Proof.
  induction 1 as [|ev evs W _ IH]; [exact I|].
  destruct ev; cbn in *; subst; auto.
Qed.

Lemma staged_boundary evs cur :
  Forall (within "script") evs -> Forall (within "video") evs -> staged cur evs.
Proof.
  intros W1 W2. revert cur. induction evs as [|ev evs IH]; intros cur; [exact I|].
  apply Forall_cons in W1 as [A1 W1]. apply Forall_cons in W2 as [A2 W2].
  destruct ev; cbn in *; try (split; [exact I|now apply IH]); congruence.
Qed.

Section Staging.

Variable w : World.
Variable jobId : string.

Lemma stages_bind {A B} (c : Async A) (k : A -> Async B) :
  stages c -> (forall a, stages (k a)) -> stages (bind c k).
Proof.
  intros Hc Hk m. rewrite bind_run. destruct (Hc m) as (evs1 & T1 & S1).
  destruct (c m) as [[a|e] m1]; cbn [fst snd] in *; [|eauto].
  destruct (Hk a m1) as (evs2 & T2 & S2). exists (evs1 ++ evs2).
  rewrite T2, T1, app_assoc. split; [reflexivity|]. intros cur.
  apply staged_app. auto.
Qed.

Lemma boundary_stages {A} (c : Async A) : (forall s, graceful w s c) -> stages c.
Proof.
  intros H m. destruct (H "script" m) as (_ & evs & T & W & _).
  destruct (H "video" m) as (_ & evs' & T' & W' & _).
  assert (evs' = evs) by (rewrite T in T'; now apply app_inv_head in T'). subst evs'.
  exists evs. split; [exact T|]. intros cur. now apply staged_boundary.
Qed.

(** What [runStep] logs: nothing, or the entry of the stage followed by
    events of that stage. *)
Lemma runStep_events s fn (m : Machine) :
  graceful w s fn ->
  exists evs, (runStep w jobId s fn m).2.(trace) = m.(trace) ++ evs /\
              (evs = [] \/ exists evs', evs = EvStage s :: evs' /\ Forall (within s) evs').
Proof.
  intros G.
  destruct (runStep_cases w jobId s fn m) as [E|(jw & st & Hjob & Hstep & E)]; rewrite E.
  - exists []. cbn. rewrite app_nil_r. auto.
  - destruct (G (entered w s st m)) as (_ & evs & T & W & _).
    destruct (fn (entered w s st m)) as [[[]|e] m2]; cbn [fst snd] in *.
    + match goal with |- context [saveStepTiming w ?a s ?c ?d] =>
        destruct (quiet_saveStepTiming w s a c d) as (_ & evs' & T' & W' & _) end.
      exists (EvStage s :: evs ++ evs'). rewrite T'. cbn [marked_completed trace].
      rewrite T. cbn [entered trace]. rewrite <- !app_assoc. split; [reflexivity|].
      right. eexists. split; [reflexivity|]. now apply Forall_app.
    + exists (EvStage s :: evs). cbn [marked_failed trace]. rewrite T.
      cbn [entered trace]. rewrite <- app_assoc. split; [reflexivity|]. eauto.
Qed.

Lemma stages_runStep s fn : graceful w s fn -> stages (runStep w jobId s fn).
Proof.
  intros G m. destruct (runStep_events s fn m G) as (evs & T & [->|(evs' & -> & W)]);
    eexists; (split; [exact T|]); intros cur; [exact I|].
  split; [exact I|]. now apply staged_within.
Qed.

End Staging.

Ltac stage_walk_try :=
  cbv zeta;
  lazymatch goal with
  | |- stages (bind _ _) => apply stages_bind; [ stage_walk_try | intros ?; stage_walk_try ]
  | |- stages (match ?x with _ => _ end) => destruct x; stage_walk_try
  | |- stages (runStep ?w ?jobId _ _) => apply (stages_runStep w jobId); stage_lemma
  | |- stages _ =>
      match goal with w : World |- _ => apply (boundary_stages w) end; boundary_leaf
  end.

Lemma stages_processJob_try w rev jobId jobStartTime :
  stages (processJob_try w rev jobId jobStartTime).
Proof. unfold processJob_try. stage_walk_try. Qed.

(** *** Every stage but the last is followed by a poll *)

Lemma unpolled_stays evs :
  foldl unpolled true evs = false -> exists cancelled, EvPoll cancelled ∈ evs.
Proof.
  induction evs as [|ev evs IH]; [discriminate|]. cbn [foldl].
  destruct ev as [b| | |]; cbn [unpolled orb].
  - intros _. exists b. apply list_elem_of_here.
  - intros H. destruct (IH H) as [b Hb]. exists b. now apply list_elem_of_further.
  - intros H. destruct (IH H) as [b Hb]. exists b. now apply list_elem_of_further.
  - intros H. destruct (IH H) as [b Hb]. exists b. now apply list_elem_of_further.
Qed.

Lemma unpolled_split pending pre t svc post :
  foldl unpolled pending (pre ++ EvCall t svc :: post) = false ->
  stage_of svc <> "caption" ->
  exists cancelled, EvPoll cancelled ∈ post.
Proof.
  rewrite foldl_app. cbn [foldl unpolled]. intros H N.
  apply String.eqb_neq in N. rewrite N, orb_true_r in H. now apply unpolled_stays.
Qed.

Lemma unpolled_written pending evs :
  Forall written evs -> foldl unpolled pending evs = pending.
Proof.
  induction 1 as [|ev evs W _ IH]; [reflexivity|]. destruct ev; try contradiction.
  exact IH.
Qed.

Lemma unpolled_within_last evs :
  Forall (within "caption") evs -> foldl unpolled false evs = false.
Proof.
  induction 1 as [|ev evs W _ IH]; [reflexivity|]. cbn [foldl].
  destruct ev; cbn in *; try exact IH. now rewrite W.
Qed.

Section Polling.

Variable w : World.
Variable jobId : string.

Lemma polls_last_bind {A B} (c : Async A) (k : A -> Async B) :
  stages c -> (forall a, polls_last (k a)) -> polls_last (bind c k).
Proof.
  intros Hc Hk m b. rewrite bind_run. destruct (Hc m) as (evs1 & T1 & _).
  destruct (c m) as [[a|e] m1]; cbn [fst snd] in *; [|discriminate].
  intros Hb. destruct (Hk a m1 b Hb) as (evs2 & T2 & P). exists (evs1 ++ evs2).
  rewrite T2, T1, app_assoc. split; [reflexivity|]. intros pending.
  rewrite foldl_app. apply P.
Qed.

Lemma closes_bind {A B} (c : Async A) (k : A -> Async B) :
  closes c -> (forall a, closes (k a)) -> closes (bind c k).
Proof.
  intros Hc Hk m. rewrite bind_run. destruct (Hc m) as (evs1 & T1 & P1).
  destruct (c m) as [[a|e] m1]; cbn [fst snd] in *; [|eauto].
  destruct (Hk a m1) as (evs2 & T2 & P2). exists (evs1 ++ evs2).
  rewrite T2, T1, app_assoc. split; [reflexivity|]. now rewrite foldl_app, P1.
Qed.

Lemma closes_runStep fn :
  graceful w "caption" fn -> closes (runStep w jobId "caption" fn).
Proof.
  intros G m.
  destruct (runStep_events w jobId "caption" fn m G) as (evs & T & [->|(evs' & -> & W)]);
    eexists; (split; [exact T|]); [reflexivity|].
  cbn [foldl unpolled]. now apply unpolled_within_last.
Qed.

Lemma closes_storage_updateJob id updates : closes (storage_updateJob w id updates).
Proof.
  intros m. destruct (storage_updateJob_cases w id updates m) as [E|(e & E)]; rewrite E.
  - exists [EvUpdateJob id updates]. auto.
  - exists []. cbn. now rewrite app_nil_r.
Qed.

Lemma throwIfCancelled_events (m : Machine) :
  exists cancelled, (throwIfCancelled jobId m).2.(trace) = m.(trace) ++ [EvPoll cancelled].
Proof.
  unfold throwIfCancelled, isCancelled, storage_getJob, readDb, log, bind, ret, throw.
  cbn beta iota.
  match goal with |- context [EvPoll ?b] => destruct b end; eexists; reflexivity.
Qed.

(** A poll followed by the last stage only. *)
Lemma polls_last_poll {B} (k : unit -> Async B) :
  (forall a, closes (k a)) -> polls_last (bind (throwIfCancelled jobId) k).
Proof.
  intros Hk m b. rewrite bind_run.
  destruct (throwIfCancelled_events m) as (cancelled & T1).
  destruct (throwIfCancelled jobId m) as [[a|e] m1]; cbn [fst snd] in *; [|discriminate].
  intros _. destruct (Hk a m1) as (evs2 & T2 & P2). exists ([EvPoll cancelled] ++ evs2).
  rewrite T2, T1, <- app_assoc. split; [reflexivity|]. intros pending. exact P2.
Qed.

End Polling.

Ltac poll_walk :=
  cbv zeta;
  lazymatch goal with
  | |- polls_last (bind (throwIfCancelled _)
                        (fun _ => bind (runStep _ _ "caption" _) _)) =>
      apply polls_last_poll; intros _;
      apply closes_bind;
      [ apply closes_runStep; stage_lemma | intros _; apply closes_storage_updateJob ]
  | |- polls_last (bind _ _) =>
      apply polls_last_bind; [ stage_walk_try | intros ?; poll_walk ]
  end.

(** When the [try] block returns, a poll has followed every call of a stage
    before the last. *)
Lemma processJob_try_polls_last w rev jobId jobStartTime job :
  polls_last
    (setContext {| script := None; scenes := None |} ;;
     storage_updateJob w jobId
       ([Job.Set_status running; Job.Set_progressPercent 0]
        ++ etaField rev (Some (initialETA job.(row).(Job.settings)))) ;;
     storage_updateLastProgress w jobId ;;
     throwIfCancelled jobId ;;
     runStep w jobId "script"
       (stage_script w rev jobId job.(row).(Job.settings) jobStartTime) ;;
     throwIfCancelled jobId ;;
     runStep w jobId "assets_visual"
       (stage_assets_visual w rev jobId job.(row).(Job.settings) jobStartTime) ;;
     throwIfCancelled jobId ;;
     runStep w jobId "assets_audio"
       (stage_assets_audio w rev jobId job.(row).(Job.settings) jobStartTime) ;;
     throwIfCancelled jobId ;;
     runStep w jobId "video" (stage_video w rev jobId job.(row).(Job.settings)) ;;
     throwIfCancelled jobId ;;
     runStep w jobId "caption" (stage_caption w rev jobId job.(row).(Job.settings)) ;;
     storage_updateJob w jobId
       [Job.Set_status completed; Job.Set_progressPercent 100;
        Job.Set_etaSeconds (Some 0)]).
Proof. poll_walk. Qed.

(** *** What a posted request brings about *)

Lemma processJob_try_polls w rev jobId jobStartTime (m : Machine) :
  is_Some (jobRow jobId m.(db)) ->
  (processJob_try w rev jobId jobStartTime m).1 = Ok tt ->
  exists evs,
    (processJob_try w rev jobId jobStartTime m).2.(trace) = m.(trace) ++ evs /\
    foldl unpolled false evs = false.
Proof.
  intros [j Hj]. set (r := processJob_try w rev jobId jobStartTime m).
  pose proof (eq_refl r) as E. unfold r at 2 in E. unfold processJob_try in E.
  rewrite bind_run in E. unfold storage_getJob at 1, readDb at 1 in E.
  rewrite (getJob_of_row _ _ _ Hj) in E. cbv zeta in E. cbn [row] in E.
  clearbody r. rewrite E. clear E r. intros H.
  match type of H with (?c m).1 = _ => assert (P : polls_last c) by poll_walk end.
  destruct (P m tt H) as (evs & T & F). exists evs. split; [exact T|apply F].
Qed.

Lemma last_stage_told evs : Forall (allowed true) evs -> last_stage evs = None.
Proof.
  intros H. unfold last_stage.
  assert (E : stages_of evs = []); [|now rewrite E].
  induction H as [|ev evs A _ IH]; [reflexivity|].
  destruct ev; cbn in *; try exact IH. discriminate.
Qed.

(** What a request posted during a call of the [try] block brings about. *)
Lemma processJob_try_told w rev jobId jobStartTime (m : Machine) pre t svc post :
  is_Some (jobRow jobId m.(db)) ->
  (processJob_try w rev jobId jobStartTime m).2.(trace)
  = m.(trace) ++ pre ++ EvCall t svc :: post ->
  w.(cancelPosted) t = Some jobId ->
  Forall (allowed true) post /\
  (stage_of svc <> "caption" ->
   match (processJob_try w rev jobId jobStartTime m).1 with
   | Ok _ => EvPoll true ∈ post
   | Throw e =>
       e = JsError "Cancelled by user" \/
       step_is_failed jobId (stage_of svc) e
         (processJob_try w rev jobId jobStartTime m).2.(db)
   end).
Proof.
  intros Hrow T Hposted.
  assert (A : Forall (allowed true) post).
  { destruct Hrow as [j Hj].
    destruct (processJob_try_heeds w rev jobId jobStartTime m j Hj) as (evs & T' & G).
    rewrite T in T'. apply app_inv_head in T'. subst evs.
    apply heeded_app in G as [_ [_ G]]. cbn [hears] in G.
    rewrite (bool_decide_eq_true_2 _ Hposted), orb_true_r in G.
    now apply heeded_told in G. }
  split; [exact A|]. intros N.
  destruct (processJob_try w rev jobId jobStartTime m).1 as [[]|e] eqn:R.
  - destruct (processJob_try_polls w rev jobId jobStartTime m Hrow R) as (evs & T' & P).
    rewrite T in T'. apply app_inv_head in T'. subst evs.
    destruct (unpolled_split _ _ _ _ _ P N) as (cancelled & Hin).
    pose proof (proj1 (Forall_forall _ _) A _ Hin) as E. cbn in E. now subst cancelled.
  - destruct (settles_processJob_try w rev jobId jobStartTime m) as (evs & T' & S).
    rewrite T in T'. apply app_inv_head in T'. subst evs.
    destruct (stages_processJob_try w rev jobId jobStartTime m) as (evs & T' & G).
    rewrite T in T'. apply app_inv_head in T'. subst evs.
    specialize (G None). apply staged_app in G as [_ [G _]].
    unfold settled in S. rewrite R in S. cbn [thrown] in S.
    rewrite last_stage_app in S.
    change (EvCall t svc :: post) with ([EvCall t svc] ++ post) in S.
    rewrite last_stage_app, (last_stage_told post A) in S. cbn in S.
    destruct (last_stage pre) as [s|]; [|discriminate].
    injection G as ->. destruct S as [S|[S _]]; auto.
Qed.

(** C4, as the code has it.  In every run of [processJob]: a poll that
    finds [cancelRequested] set is followed by nothing but the record of the
    failure, and the job ends failed with the message "Cancelled by user";
    and once a cancel request for the job was posted, while some external
    call of the run was pending, every later poll of the run finds it, no
    stage function is entered any more and no call is made that begins a
    stage or the work on a scene.  When the call was made for a stage
    before the last, the job ends failed: with "Cancelled by user" when the
    run reaches its next poll, else with the error by which that very stage
    has failed before. *)
Theorem observed_cancellation_fails_job w rev jobId (m : Machine) evs :
  trace (processJob w rev jobId m).2 = trace m ++ evs ->
  (EvPoll true ∈ evs ->
   (exists pre,
      evs = pre ++ [EvPoll true;
                    EvUpdateJob jobId [Job.Set_status failed;
                                       Job.Set_errorMessage (Some "Cancelled by user")]] /\
      calm w pre) /\
   exists j, jobRow jobId (processJob w rev jobId m).2.(db) = Some j /\
             j.(Job.status) = failed /\
             j.(Job.errorMessage) = Some "Cancelled by user") /\
  (forall pre t svc post,
     evs = pre ++ EvCall t svc :: post ->
     w.(cancelPosted) t = Some jobId ->
     Forall (allowed true) post /\
     (stage_of svc <> "caption" ->
      exists e,
        job_failed_with jobId e (processJob w rev jobId m).2.(db) /\
        (e = JsError "Cancelled by user" \/
         step_is_failed jobId (stage_of svc) e (processJob w rev jobId m).2.(db)))).
Proof.
  intros T. split.
  { intros Hin.
    destruct (fatal_event_fails_job w rev jobId m evs (EvPoll true)
                (JsError "Cancelled by user") T Hin eq_refl) as (P & J & _).
    split; [exact P|exact J]. }
  intros pre t svc post -> Hposted.
  pose proof (fun Hin => fatal_event_fails_job w rev jobId m _ (EvPoll true)
                           (JsError "Cancelled by user") T Hin eq_refl) as F0.
  pose proof (processJob_run w rev jobId m) as R.
  set (final := processJob w rev jobId m) in *. rewrite R in T. clearbody final.
  destruct (DatabaseStorage.acquireJobLock _ _ _ _ _).1 eqn:Hlock.
  2:{ cbn in T. rewrite <- (app_nil_r (trace m)) in T at 1.
      apply app_inv_head in T. now destruct pre. }
  pose proof (acquired_row_exists _ _ _ _ _ Hlock) as Hrow.
  fold (db (locked w jobId m)) in Hrow.
  pose proof (processJob_try_told w rev jobId (clock w (calls m)) (locked w jobId m))
    as Htold.
  destruct (orderly_processJob_try w rev jobId (clock w (calls m)) (locked w jobId m))
    as (I & _).
  destruct (processJob_try w rev jobId _ (locked w jobId m)) as [[[]|e] m1];
    cbn [fst snd] in *.
  - change (trace (released w jobId m1)) with (trace m1) in T.
    destruct (Htold _ _ _ _ Hrow T Hposted) as [A D]. split; [exact A|]. intros N.
    specialize (D N).
    assert (Hin : EvPoll true ∈ pre ++ EvCall t svc :: post).
    { apply elem_of_app. right. now apply list_elem_of_further. }
    destruct (F0 Hin) as (_ & J & _).
    exists (JsError "Cancelled by user"). split; [exact J|now left].
  - change (trace (released w jobId (failure_recorded w jobId e m1)))
      with (trace m1 ++ [EvUpdateJob jobId (failure_update e)]) in T.
    destruct post as [|ev post _] using rev_ind.
    { rewrite app_assoc in T. apply app_inj_tail in T as [_ T]. discriminate. }
    rewrite app_comm_cons, !app_assoc in T. apply app_inj_tail in T as [T <-].
    rewrite <- app_assoc in T.
    destruct (Htold _ _ _ _ Hrow T Hposted) as [A D]. split.
    + apply Forall_app. split; [exact A|]. repeat constructor.
    + intros N. exists e. rewrite R. cbn [snd]. split.
      * apply job_failed_after_catch. eapply jobRow_persists; [exact I|exact Hrow].
      * destruct (D N) as [C|S]; [now left|right].
        revert S. now apply step_is_failed_steps.
Qed.

(** The witness: the request is posted while the script service is
    pending. *)
Lemma observed_cancellation_fails_job_witness :
  (EvPoll true ∈ trace (processJob early_cancel_world Rev2 "job-1" fresh_machine).2 ->
   (exists pre,
      trace (processJob early_cancel_world Rev2 "job-1" fresh_machine).2
      = pre ++ [EvPoll true;
                EvUpdateJob "job-1" [Job.Set_status failed;
                                     Job.Set_errorMessage (Some "Cancelled by user")]] /\
      calm early_cancel_world pre) /\
   exists j, jobRow "job-1" (processJob early_cancel_world Rev2 "job-1" fresh_machine).2.(db)
             = Some j /\
             j.(Job.status) = failed /\
             j.(Job.errorMessage) = Some "Cancelled by user") /\
  (forall pre t svc post,
     trace (processJob early_cancel_world Rev2 "job-1" fresh_machine).2
     = pre ++ EvCall t svc :: post ->
     early_cancel_world.(cancelPosted) t = Some "job-1" ->
     Forall (allowed true) post /\
     (stage_of svc <> "caption" ->
      exists e,
        job_failed_with "job-1" e
          (processJob early_cancel_world Rev2 "job-1" fresh_machine).2.(db) /\
        (e = JsError "Cancelled by user" \/
         step_is_failed "job-1" (stage_of svc) e
           (processJob early_cancel_world Rev2 "job-1" fresh_machine).2.(db)))).
Proof.
  apply (observed_cancellation_fails_job early_cancel_world Rev2 "job-1" fresh_machine).
  reflexivity.
Defined.

(** What the witness comes to: the script stage, during which the request
    arrives, is carried through; the poll before the visual stage finds the
    request, no further stage is entered, and the job ends failed. *)
Lemma cancelled_during_script_call :
  let run := processJob early_cancel_world Rev2 "job-1" fresh_machine in
  map summary run.2.(trace)
  = ["update:0"; "poll"; "stage:script"; "call:0"; "update:10"; "poll:cancelled";
     "update"] /\
  early_cancel_world.(cancelPosted) 0%nat = Some "job-1" /\
  step_is_completed "job-1" "script" run.2.(db) /\
  job_failed_with "job-1" (JsError "Cancelled by user") run.2.(db).
Proof.
  split; [vm_compute; reflexivity|]. split; [reflexivity|]. split.
  - eexists. split; [vm_compute; reflexivity|]. reflexivity.
  - eexists. split; [vm_compute; reflexivity|]. split; reflexivity.
Qed.

(** C4, as stated, fails when the request arrives after the last poll: the
    client posts it while the caption service is pending, the endpoint
    accepts it and sets the flag, and the job ends completed. *)
Lemma late_cancellation_counterexample :
  let m' := (processJob late_cancel_world Rev2 "job-1" render_pending_machine).2 in
  exists j, jobRow "job-1" m'.(db) = Some j /\
            j.(Job.cancelRequested) = Some true /\
            j.(Job.status) = completed /\
            j.(Job.errorMessage) = None.
Proof. eexists. split; [vm_compute; reflexivity|]. repeat split. Qed.

(** ** The storage layer: settings *)

Lemma filter_key_updated (f : Setting -> Setting) (k k' : string) (l : list Setting) :
  (forall s, (f s).(key) = s.(key)) ->
  filter (fun s => s.(key) = k')
         (map (fun s => if bool_decide (s.(key) = k) then f s else s) l)
  = map (fun s => if bool_decide (s.(key) = k) then f s else s)
        (filter (fun s => s.(key) = k') l).
Proof.
  intros Hf. induction l as [|s l IH]; [reflexivity|]. cbn [map].
  assert (E : (if bool_decide (key s = k) then f s else s).(key) = s.(key))
    by (destruct (bool_decide _); [apply Hf|reflexivity]).
  destruct (decide (s.(key) = k')) as [Y|N].
  - rewrite !filter_cons_True by (rewrite ?E; exact Y). cbn [map]. now rewrite IH.
  - rewrite !filter_cons_False by (rewrite ?E; exact N). exact IH.
Qed.

Lemma map_keyed_id (f : Setting -> Setting) (k : string) (l : list Setting) :
  Forall (fun s => s.(key) <> k) l ->
  map (fun s => if bool_decide (s.(key) = k) then f s else s) l = l.
Proof.
  induction 1 as [|s l Hs _ IH]; [reflexivity|]. cbn [map].
  rewrite bool_decide_eq_false_2 by exact Hs. now rewrite IH.
Qed.

Lemma filter_other_key (k k' : string) (l : list Setting) :
  k' <> k -> Forall (fun s => s.(key) <> k) (filter (fun s => s.(key) = k') l).
Proof.
  intros N. apply Forall_forall. intros s Hs. apply list_elem_of_filter in Hs as [E _].
  congruence.
Qed.

(** X1.  [setSetting] is an upsert: afterwards [getSetting] of the key yields
    the value just written, stamped with the time of the write, whether or
    not the key was present before; every other key reads as before. *)
Theorem setSetting_then_getSetting (k k' : string) (v : StepAverage) (now : Z)
    (db : Store) :
  DatabaseStorage.getSetting k' (DatabaseStorage.setSetting k v now db)
  = if decide (k' = k)
    then Some {| key := k; value := v; setting_updatedAt := now |}
    else DatabaseStorage.getSetting k' db.
Proof.
  unfold DatabaseStorage.setSetting, DatabaseStorage.getSetting.
  destruct (filter (fun s => key s = k) (settings db)) as [|s0 rest] eqn:Hk;
    cbn [head with_settings settings].
  - rewrite filter_app. destruct (decide (k' = k)) as [->|N].
    + rewrite Hk, app_nil_l. now rewrite filter_cons_True by reflexivity.
    + rewrite (filter_cons_False _ _ []) by (cbn; congruence).
      now rewrite filter_nil, app_nil_r.
  - rewrite (filter_key_updated
               (fun s => {| key := key s; value := v; setting_updatedAt := now |}))
      by reflexivity.
    destruct (decide (k' = k)) as [->|N].
    + rewrite Hk. cbn [map head].
      assert (E : key s0 = k).
      { assert (H : s0 ∈ filter (fun s => key s = k) (settings db))
          by (rewrite Hk; apply list_elem_of_here).
        now apply list_elem_of_filter in H as [H _]. }
      rewrite bool_decide_eq_true_2 by exact E. now rewrite E.
    + now rewrite map_keyed_id by (now apply filter_other_key).
Qed.

(** X2.  [setSetting] keeps the key of the [settings] table unique: it never
    adds a second row for a key.  The other tables are untouched. *)
Theorem setSetting_keeps_keys_unique (k : string) (v : StepAverage) (now : Z)
    (db : Store) :
  NoDup (map key db.(settings)) ->
  NoDup (map key (DatabaseStorage.setSetting k v now db).(settings)) /\
  (DatabaseStorage.setSetting k v now db).(jobs) = db.(jobs) /\
  (DatabaseStorage.setSetting k v now db).(jobSteps) = db.(jobSteps) /\
  (DatabaseStorage.setSetting k v now db).(assets) = db.(assets).
Proof.
  intros H. unfold DatabaseStorage.setSetting, DatabaseStorage.getSetting.
  destruct (filter (fun s => key s = k) (settings db)) as [|s0 rest] eqn:Hk;
    cbn [head with_settings settings jobs jobSteps assets];
    (split; [|repeat split]).
  - rewrite map_app. cbn [map]. apply NoDup_app. split; [exact H|].
    split; [|apply NoDup_singleton]. intros x Hx Hx'.
    apply list_elem_of_singleton in Hx' as ->.
    apply list_elem_of_fmap in Hx as (s & E & Hs).
    assert (Hin : s ∈ filter (fun s => key s = k) (settings db))
      by (apply list_elem_of_filter; split; [now symmetry|exact Hs]).
    rewrite Hk in Hin. now apply elem_of_nil in Hin.
  - rewrite map_map. erewrite map_ext; [exact H|].
    intros s. cbn. now destruct (bool_decide _).
Qed.

Lemma setSetting_keeps_keys_unique_witness :
  NoDup (map key (DatabaseStorage.setSetting "k" {| avgMs := 1%float; count := 1%float |}
                    7 sample_db).(settings)) /\
  (DatabaseStorage.setSetting "k" {| avgMs := 1%float; count := 1%float |} 7
     sample_db).(jobs) = sample_db.(jobs) /\
  (DatabaseStorage.setSetting "k" {| avgMs := 1%float; count := 1%float |} 7
     sample_db).(jobSteps) = sample_db.(jobSteps) /\
  (DatabaseStorage.setSetting "k" {| avgMs := 1%float; count := 1%float |} 7
     sample_db).(assets) = sample_db.(assets).
Proof.
  apply (setSetting_keeps_keys_unique "k" {| avgMs := 1%float; count := 1%float |} 7
           sample_db).
  cbn. apply NoDup_nil_2.
Defined.

(** ** The storage layer: jobs *)











(** ** Deleting a job *)

Lemma filter_filter_ne {A} (P Q : A -> Prop) `{!forall x, Decision (P x)}
    `{!forall x, Decision (Q x)} (l : list A) :
  (forall x, P x -> ~ Q x) -> filter P (filter Q l) = [].
Proof.
  intros Hpq. induction l as [|x l IH]; [reflexivity|].
  destruct (decide (Q x)) as [q|q].
  - rewrite (filter_cons_True Q) by exact q.
    rewrite filter_cons_False by (intros p; now apply (Hpq x p)). exact IH.
  - now rewrite (filter_cons_False Q) by exact q.
Qed.

Lemma filter_filter_keep {A} (P Q : A -> Prop) `{!forall x, Decision (P x)}
    `{!forall x, Decision (Q x)} (l : list A) :
  (forall x, P x -> Q x) -> filter P (filter Q l) = filter P l.
Proof.
  intros Hpq. induction l as [|x l IH]; [reflexivity|].
  destruct (decide (P x)) as [p|p].
  - rewrite (filter_cons_True Q) by (now apply Hpq).
    rewrite !filter_cons_True by exact p. now rewrite IH.
  - rewrite (filter_cons_False P x l) by exact p.
    destruct (decide (Q x)) as [q|q].
    + rewrite (filter_cons_True Q) by exact q.
      now rewrite filter_cons_False by exact p.
    + now rewrite (filter_cons_False Q) by exact q.
Qed.

(** X4.  [DELETE /api/jobs/:id] answers 404 and leaves the store as it is
    when there is no such job.  Otherwise it answers 204; the job is then
    not found any more, its steps and assets are gone with it, and every
    other job is found with its row, steps and assets as before. *)
Theorem deleteJobRoute_cascades (id : string) (db : Store) :
  match DatabaseStorage.getJob id db with
  | None => deleteJobRoute id db = (404, db)
  | Some _ =>
      (deleteJobRoute id db).1 = 204 /\
      DatabaseStorage.getJob id (deleteJobRoute id db).2 = None /\
      DatabaseStorage.getJobSteps id (deleteJobRoute id db).2 = [] /\
      DatabaseStorage.getAssets id (deleteJobRoute id db).2 = [] /\
      forall id', id' <> id ->
        DatabaseStorage.getJob id' (deleteJobRoute id db).2
        = DatabaseStorage.getJob id' db
  end.
Proof.
  unfold deleteJobRoute. destruct (DatabaseStorage.getJob id db); [|reflexivity].
  cbn [fst snd]. split; [reflexivity|].
  unfold DatabaseStorage.getJob, DatabaseStorage.getJobSteps, DatabaseStorage.getAssets,
    deleteJob. cbn [jobs jobSteps assets].
  split; [now rewrite filter_filter_ne by (intros x -> H; now apply H)|].
  split; [now apply filter_filter_ne; intros x -> H; apply H|].
  split; [now apply filter_filter_ne; intros x -> H; apply H|].
  intros id' N.
  rewrite !filter_filter_keep by (intros x -> H; now apply N). reflexivity.
Qed.

(** ** The integrity verifier: what it accepts *)

(** X5.  [checkVideoIntegrity] accepts a file exactly when ffprobe exits with
    code 0, its output parses, the reported duration is not [<= 0] (a
    duration that is not a number passes this test), [fs.stat] succeeds and
    the file has at least 10000 bytes. *)
Theorem integrity_valid_iff (run : ProbeRun) (stat : StatResult) :
  (checkVideoIntegrity run stat).(valid) = true <->
  exists stderr data size,
    run = ProbeClosed 0 stderr (Some data) /\
    PrimFloat.leb data.(format_duration) 0%float = false /\
    stat = StatSize size /\ 10000 <= size.
Proof.
  unfold checkVideoIntegrity. split.
  - destruct run as [msg|code stderr [data|]]; cbn; try discriminate.
    + destruct (Z.eqb_spec code 0) as [->|N]; cbn; [|discriminate].
      destruct (PrimFloat.leb _ _) eqn:D; cbn; [discriminate|].
      destruct stat as [size|]; cbn; [|discriminate].
      destruct (Z.ltb_spec size 10000); cbn; [discriminate|]. intros _.
      exists stderr, data, size. auto.
    + destruct (negb _); discriminate.
  - intros (stderr & data & size & -> & D & -> & Hs). cbn. rewrite D.
    destruct (Z.ltb_spec size 10000); [lia|reflexivity].
Qed.

(** X6.  What the verdict carries.  A rejection always comes with an error
    message and without measurements.  An acceptance comes without error
    and reports the probed duration, whether any stream is an audio stream,
    and the width and height of the first video stream. *)
Theorem integrity_report (run : ProbeRun) (stat : StatResult) :
  let r := checkVideoIntegrity run stat in
  if r.(valid)
  then r.(error) = None /\
       exists code stderr data,
         run = ProbeClosed code stderr (Some data) /\
         r.(ic_duration) = Some data.(format_duration) /\
         r.(hasAudio)
         = Some (existsb (fun s => String.eqb s.(codec_type) "audio") data.(streams)) /\
         r.(width)
         = find (fun s => String.eqb s.(codec_type) "video") data.(streams)
             ≫= stream_width /\
         r.(height)
         = find (fun s => String.eqb s.(codec_type) "video") data.(streams)
             ≫= stream_height
  else (exists msg, r.(error) = Some msg) /\
       r.(ic_duration) = None /\ r.(hasAudio) = None /\
       r.(width) = None /\ r.(height) = None.
Proof.
  unfold checkVideoIntegrity. cbv zeta.
  destruct run as [msg|code stderr [data|]]; cbn; eauto 10.
  - destruct (negb (code =? 0)); cbn; eauto 10.
    destruct (PrimFloat.leb _ _); cbn; eauto 10.
    destruct stat as [size|]; cbn; eauto 10.
    destruct (size <? 10000); cbn; eauto 15.
  - destruct (negb (code =? 0)); cbn; eauto 10.
Qed.

(** ** Audio duration detection *)

Lemma calls_of_app evs1 evs2 : calls_of (evs1 ++ evs2) = calls_of evs1 ++ calls_of evs2.
Proof. apply flat_map_app. Qed.

Lemma probe_sequence_S k :
  (1 <= k)%nat -> probe_sequence (S k) = Svc_ffprobe :: Svc_setTimeout :: probe_sequence k.
Proof. destruct k; [lia|reflexivity]. Qed.

Lemma last_after {A} (l1 l2 : list A) (x : A) :
  last l2 = Some x -> last (l1 ++ l2) = Some x.
Proof.
  intros H. destruct l2 as [|y l2]; [discriminate|].
  rewrite last_app. now rewrite H.
Qed.

Lemma getAudioDuration_from_spec (w : World) (retries remaining attempt : nat)
    (m : Machine) :
  (attempt + remaining = S retries)%nat ->
  probing w retries remaining m (getAudioDuration_from w remaining attempt retries m).
Proof.
  revert attempt m. induction remaining as [|remaining IH]; intros attempt m Hsum.
  - exists 0%nat, []. cbn [getAudioDuration_from throw fst snd].
    rewrite app_nil_r. repeat split; reflexivity.
  - cbn [getAudioDuration_from]. unfold try_catch, probeDurationOnce.
    rewrite bind_run.
    set (m1 := (external w Svc_ffprobe (ffprobeReply w) m).2).
    assert (T1 : trace m1 = trace m ++ [EvCall (calls m) Svc_ffprobe]) by reflexivity.
    assert (Hfail : forall err,
              probeOutcome w (calls m) = Throw err ->
              probing w retries (S remaining) m
                ((if bool_decide (attempt = retries)
                  then throw (JsError ("Failed to detect audio duration after "
                                       +:+ pretty retries +:+ " attempts: "
                                       +:+ interpolate err))
                  else external w Svc_setTimeout (fun _ => Ok tt) ;;
                       getAudioDuration_from w remaining (S attempt) retries) m1)).
    { intros err Herr. destruct (decide (attempt = retries)) as [E|N].
      - rewrite bool_decide_eq_true_2 by exact E.
        assert (remaining = 0%nat) as -> by lia.
        exists 1%nat, [EvCall (calls m) Svc_ffprobe].
        split; [exact T1|]. split; [reflexivity|]. split; [reflexivity|].
        exists (calls m), err. repeat split. exact Herr.
      - rewrite bool_decide_eq_false_2 by exact N. rewrite bind_run.
        set (m2 := (external w Svc_setTimeout (fun _ => Ok tt) m1).2).
        change (external w Svc_setTimeout (fun _ => Ok tt) m1) with (Ok tt, m2).
        cbn beta iota.
        destruct (IH (S attempt) m2 ltac:(lia)) as (k & evs & T & C & R).
        assert (Hk : (1 <= k)%nat).
        { destruct (getAudioDuration_from w remaining (S attempt) retries m2).1;
            [lia|]. destruct R as [-> _]. lia. }
        exists (S k), ([EvCall (calls m) Svc_ffprobe; EvCall (calls m1) Svc_setTimeout]
                       ++ evs).
        split; [rewrite T; cbn [m2 external snd trace]; rewrite T1, <- !app_assoc;
                reflexivity|].
        split; [rewrite calls_of_app, C, probe_sequence_S by exact Hk; reflexivity|].
        destruct (getAudioDuration_from w remaining (S attempt) retries m2).1 as [d|e].
        + destruct R as (R1 & R2 & t & L & P). split; [lia|]. split; [exact R2|].
          exists t. split; [now apply last_after|exact P].
        + destruct R as [R1 R2]. split; [lia|].
          destruct (decide (remaining = 0%nat)) as [Z|NZ]; [lia|].
          rewrite decide_False by lia. destruct R2 as (t & err' & L & P & E).
          exists t, err'. split; [now apply last_after|]. split; [exact P|exact E]. }
    unfold probeOutcome in Hfail.
    destruct (ffprobeReply w (calls m)) as [dur|err] eqn:Hreply.
    + change (external w Svc_ffprobe (ffprobeReply w) m)
        with (ffprobeReply w (calls m), m1). rewrite Hreply. cbn beta iota.
      destruct (PrimFloat.ltb 0%float dur) eqn:Hpos.
      * exists 1%nat, [EvCall (calls m) Svc_ffprobe].
        split; [exact T1|]. split; [reflexivity|]. cbn [fst ret].
        split; [lia|]. split; [exact Hpos|]. exists (calls m).
        split; [reflexivity|]. unfold probeOutcome. now rewrite Hreply, Hpos.
      * now apply Hfail.
    + change (external w Svc_ffprobe (ffprobeReply w) m)
        with (ffprobeReply w (calls m), m1). rewrite Hreply. cbn beta iota.
      now apply Hfail.
Qed.

(** X7.  [getAudioDuration] probes at most [retries] times, waiting on a
    timer between two probes and never after the last.  A duration it
    returns is positive, and it throws only once all [retries] probes have
    failed. *)
Theorem getAudioDuration_attempts (w : World) (retries : nat) (m : Machine) :
  exists k evs,
    (getAudioDuration w retries m).2.(trace) = m.(trace) ++ evs /\
    calls_of evs = probe_sequence k /\
    match (getAudioDuration w retries m).1 with
    | Ok d => (1 <= k <= retries)%nat /\ PrimFloat.ltb 0%float d = true
    | Throw _ => k = retries
    end.
Proof.
  destruct (getAudioDuration_from_spec w retries retries 1 m eq_refl)
    as (k & evs & T & C & R).
  exists k, evs. split; [exact T|]. split; [exact C|].
  unfold getAudioDuration. destruct (getAudioDuration_from w retries 1 retries m).1.
  - destruct R as (R1 & R2 & _). split; [exact R1|exact R2].
  - now destruct R.
Qed.

(** X8.  The error [getAudioDuration] gives up with carries the error of the
    last probe.  When it throws after at least one attempt, the last thing
    it did was a probe, that probe failed (ffprobe failed, or reported no
    positive duration), and the error thrown says how many attempts were
    made and ends with the text of that probe's error; with no attempt
    allowed it is the fallback error after the loop. *)
Theorem getAudioDuration_gives_up (w : World) (retries : nat) (m : Machine) (e : Thrown) :
  (getAudioDuration w retries m).1 = Throw e ->
  if decide (retries = O)
  then e = JsError "Audio duration detection failed"
  else exists evs t err,
         (getAudioDuration w retries m).2.(trace) = m.(trace) ++ evs /\
         last evs = Some (EvCall t Svc_ffprobe) /\
         probeOutcome w t = Throw err /\
         e = JsError ("Failed to detect audio duration after "
                      +:+ pretty retries +:+ " attempts: " +:+ interpolate err).
Proof.
  intros H.
  destruct (getAudioDuration_from_spec w retries retries 1 m eq_refl)
    as (k & evs & T & _ & R).
  unfold getAudioDuration in *. rewrite H in R. destruct R as [_ R].
  destruct (decide (retries = 0%nat)); [exact R|].
  destruct R as (t & err & L & P & E). exists evs, t, err. auto.
Qed.

(** The witness: ffprobe fails on every file; the third failure is reported. *)
Lemma getAudioDuration_gives_up_witness :
  exists evs t err,
    (getAudioDuration deaf_world 3 fresh_machine).2.(trace)
    = fresh_machine.(trace) ++ evs /\
    last evs = Some (EvCall t Svc_ffprobe) /\
    probeOutcome deaf_world t = Throw err /\
    JsError "Failed to detect audio duration after 3 attempts: Error: ffprobe exited with code 1: "
    = JsError ("Failed to detect audio duration after "
               +:+ pretty 3%nat +:+ " attempts: " +:+ interpolate err).
Proof.
  exact (getAudioDuration_gives_up deaf_world 3 fresh_machine _ eq_refl).
Defined.
(** ** Runs of [processJob]: how they end *)

Lemma machine_eta (m : Machine) :
  {| db := m.(db); calls := m.(calls); trace := m.(trace); context := m.(context) |} = m.
Proof. now destruct m. Qed.

Lemma acquire_refused_store jobId owner ttl now d :
  (DatabaseStorage.acquireJobLock jobId owner ttl now d).1 = false ->
  (DatabaseStorage.acquireJobLock jobId owner ttl now d).2 = d.
Proof.
  unfold DatabaseStorage.acquireJobLock. destruct (filter _ (jobs d)); [reflexivity|].
  destruct (DatabaseStorage.leaseFree _ _); [discriminate|reflexivity].
Qed.

Lemma acquire_refused_iff jobId owner ttl now d :
  (DatabaseStorage.acquireJobLock jobId owner ttl now d).1 = false <->
  match jobRow jobId d with
  | None => True
  | Some j => ~ lease_free j now
  end.
Proof.
  unfold DatabaseStorage.acquireJobLock, jobRow.
  destruct (filter _ (jobs d)) as [|j rest]; cbn [head]; [tauto|].
  rewrite <- leaseFree_spec. destruct (DatabaseStorage.leaseFree j now); cbn.
  - split; [discriminate|]. intros H. now destruct H.
  - split; [discriminate|reflexivity].
Qed.

(** X9.  [processJob] leaves a job alone that it cannot lock: when the job
    does not exist, or has an owner recorded and no lease expiry in the
    past, it returns normally without writing to the store, logging an event
    or calling a service. *)
Theorem processJob_respects_lease (w : World) (rev : Revision) (jobId : string)
    (m : Machine) :
  match jobRow jobId m.(db) with
  | None => True
  | Some j => ~ lease_free j (w.(clock) m.(calls))
  end ->
  processJob w rev jobId m = (Ok tt, m).
Proof.
  intros H. apply acquire_refused_iff with (owner := w.(WORKER_ID)) (ttl := 120) in H.
  rewrite processJob_run, H. unfold locked.
  rewrite acquire_refused_store by exact H. now rewrite machine_eta.
Qed.

Lemma processJob_respects_lease_witness :
  processJob quiet_world Rev2 "job-1" leased_machine = (Ok tt, leased_machine).
Proof.
  apply (processJob_respects_lease quiet_world Rev2 "job-1" leased_machine).
  cbn. intros [H|(e & H & Hlt)]; [discriminate|].
  injection H as <-. vm_compute in Hlt. discriminate.
Defined.

Lemma bind_Ok_inv {A B} (c : Async A) (k : A -> Async B) (m : Machine) (b : B) :
  (bind c k m).1 = Ok b ->
  exists a m1, c m = (Ok a, m1) /\ bind c k m = k a m1.
Proof.
  rewrite bind_run. destruct (c m) as [[a|e] m1]; [eauto|discriminate].
Qed.

(** When the [try] block returns, its last command was the write that marks
    the job completed. *)
Lemma processJob_try_returns w rev jobId jobStartTime (m : Machine) :
  is_Some (jobRow jobId m.(db)) ->
  (processJob_try w rev jobId jobStartTime m).1 = Ok tt ->
  exists m1,
    processJob_try w rev jobId jobStartTime m
    = storage_updateJob w jobId
        [Job.Set_status completed; Job.Set_progressPercent 100;
         Job.Set_etaSeconds (Some 0)] m1.
Proof.
  intros [j Hrow] H. unfold processJob_try in *.
  destruct (bind_Ok_inv _ _ _ _ H) as (job & m1 & E1 & E).
  rewrite E in H |- *. clear E.
  unfold storage_getJob, readDb in E1. injection E1 as <- <-.
  rewrite (getJob_of_row _ _ _ Hrow) in H |- *. cbv zeta in H |- *. cbn [row] in H |- *.
  repeat match type of H with
         | (bind ?c ?k ?m).1 = Ok tt =>
             let E := fresh "E" in
             destruct (bind_Ok_inv _ _ _ _ H) as (? & ? & _ & E);
             rewrite E in H |- *; clear E
         end.
  eauto.
Qed.

Lemma acquire_granted jobId owner ttl now d j :
  jobRow jobId d = Some j -> lease_free j now ->
  (DatabaseStorage.acquireJobLock jobId owner ttl now d).1 = true.
Proof.
  intros Hrow Hfree.
  destruct (DatabaseStorage.acquireJobLock jobId owner ttl now d).1 eqn:E; [reflexivity|].
  apply acquire_refused_iff in E. rewrite Hrow in E. now destruct E.
Qed.

(** The row of the job once the [finally] block has released the lease. *)
Lemma jobRow_released w jobId (m : Machine) :
  jobRow jobId (released w jobId m).(db)
  = (fun r => Job.assign (Job.Set_leaseExpiresAt None)
                (Job.assign (Job.Set_lockedAt None)
                   (Job.assign (Job.Set_lockedBy None) r)))
    <$> jobRow jobId m.(db).
Proof.
  unfold released, DatabaseStorage.releaseJobLock. cbn [db].
  now rewrite jobRow_updated by reflexivity.
Qed.

(** X10.  A run of [processJob] that gets the lease always brings the job to
    a terminal state and gives the lease back: the job ends either completed
    at 100 percent with an ETA of 0, or failed with an error message, and in
    both cases [lockedBy], [lockedAt] and [leaseExpiresAt] are cleared. *)
Theorem processJob_ends_terminal (w : World) (rev : Revision) (jobId : string)
    (m : Machine) (j : Job.t) :
  jobRow jobId m.(db) = Some j ->
  lease_free j (w.(clock) m.(calls)) ->
  (processJob w rev jobId m).1 = Ok tt /\
  exists j',
    jobRow jobId (processJob w rev jobId m).2.(db) = Some j' /\
    j'.(Job.lockedBy) = None /\ j'.(Job.lockedAt) = None /\
    j'.(Job.leaseExpiresAt) = None /\
    ((j'.(Job.status) = completed /\ j'.(Job.progressPercent) = 100 /\
      j'.(Job.etaSeconds) = Some 0) \/
     (j'.(Job.status) = failed /\
      exists e, j'.(Job.errorMessage) = Some (messageOr "Unknown error occurred" e))).
Proof.
  intros Hrow Hfree.
  pose proof (acquire_granted jobId w.(WORKER_ID) 120 _ _ _ Hrow Hfree) as Hacq.
  pose proof (acquired_row_exists _ _ _ _ _ Hacq) as Hlocked.
  rewrite processJob_run, Hacq.
  destruct (orderly_processJob_try w rev jobId (clock w (calls m)) (locked w jobId m))
    as (I & _).
  pose proof (jobRow_persists jobId _ _ I Hlocked) as Hend.
  pose proof (processJob_try_returns w rev jobId (clock w (calls m)) (locked w jobId m)
                Hlocked) as Hret.
  destruct (processJob_try w rev jobId _ (locked w jobId m)) as [[[]|e] m1];
    cbn [fst snd] in *; (split; [reflexivity|]).
  - destruct (Hret eq_refl) as (m0 & E). apply (f_equal snd) in E.
    cbn [snd] in E. subst m1. rewrite jobRow_released.
    change (db (storage_updateJob w jobId
                  [Job.Set_status completed; Job.Set_progressPercent 100;
                   Job.Set_etaSeconds (Some 0)] m0).2)
      with (DatabaseStorage.updatedJobs jobId
              [Job.Set_status completed; Job.Set_progressPercent 100;
               Job.Set_etaSeconds (Some 0)] (clock w (calls m0)) (db m0)) in *.
    rewrite jobRow_updateJob in * by reflexivity.
    destruct (jobRow jobId (db m0)) as [j0|]; [|now destruct Hend].
    eexists. split; [reflexivity|]. repeat split; try reflexivity.
    left. repeat split; reflexivity.
  - rewrite jobRow_released. unfold failure_recorded. cbn [db].
    rewrite jobRow_updateJob by reflexivity.
    destruct Hend as [j1 Hj1]. rewrite Hj1.
    eexists. split; [reflexivity|]. repeat split; try reflexivity.
    right. split; [reflexivity|]. exists e. reflexivity.
Qed.

Lemma processJob_ends_terminal_witness :
  (processJob quiet_world Rev2 "job-1" fresh_machine).1 = Ok tt /\
  exists j',
    jobRow "job-1" (processJob quiet_world Rev2 "job-1" fresh_machine).2.(db) = Some j' /\
    j'.(Job.lockedBy) = None /\ j'.(Job.lockedAt) = None /\
    j'.(Job.leaseExpiresAt) = None /\
    ((j'.(Job.status) = completed /\ j'.(Job.progressPercent) = 100 /\
      j'.(Job.etaSeconds) = Some 0) \/
     (j'.(Job.status) = failed /\
      exists e, j'.(Job.errorMessage) = Some (messageOr "Unknown error occurred" e))).
Proof.
  apply (processJob_ends_terminal quiet_world Rev2 "job-1" fresh_machine sample_job).
  - reflexivity.
  - left. reflexivity.
Defined.

Lemma throwIfCancelled_flagged jobId (m : Machine) j :
  jobRow jobId m.(db) = Some j -> j.(Job.cancelRequested) = Some true ->
  throwIfCancelled jobId m
  = (Throw (JsError "Cancelled by user"),
     {| db := m.(db); calls := m.(calls); trace := m.(trace) ++ [EvPoll true];
        context := m.(context) |}).
Proof.
  intros Hrow Hflag. unfold throwIfCancelled, isCancelled, storage_getJob, readDb.
  rewrite !bind_run. rewrite (getJob_of_row _ _ _ Hrow). cbn [row].
  rewrite bool_decide_eq_true_2 by exact Hflag. reflexivity.
Qed.

Lemma processJob_try_cancelled w rev jobId t (m : Machine) j :
  jobRow jobId m.(db) = Some j -> j.(Job.cancelRequested) = Some true ->
  exists m1,
    processJob_try w rev jobId t m = (Throw (JsError "Cancelled by user"), m1) /\
    m1.(calls) = m.(calls) /\ m1.(db).(jobSteps) = m.(db).(jobSteps) /\
    is_Some (jobRow jobId m1.(db)) /\
    m1.(trace) = m.(trace)
                 ++ [EvUpdateJob jobId ([Job.Set_status running; Job.Set_progressPercent 0]
                                        ++ etaField rev (Some (initialETA j.(Job.settings))));
                     EvPoll true].
Proof.
  intros Hrow Hflag. unfold processJob_try. rewrite bind_run.
  unfold storage_getJob at 1, readDb at 1. rewrite (getJob_of_row _ _ _ Hrow).
  cbv zeta. cbn [row].
  rewrite bind_run. unfold setContext at 1. cbv beta iota.
  rewrite bind_run, storage_updateJob_run by taken. cbv beta iota.
  rewrite bind_run.
  unfold storage_updateLastProgress at 1, Date_now at 1, writeDb at 1.
  rewrite bind_run. cbv beta iota. cbn [db calls trace context].
  rewrite bind_run. erewrite throwIfCancelled_flagged.
  2:{ cbn [db]. unfold DatabaseStorage.updateLastProgress.
      rewrite jobRow_updated by reflexivity.
      rewrite jobRow_updateJob by (destruct rev; reflexivity).
      rewrite Hrow. reflexivity. }
  2:{ destruct rev; exact Hflag. }
  eexists. split; [reflexivity|]. cbn [db calls trace context].
  split; [reflexivity|]. split; [reflexivity|]. split.
  - unfold DatabaseStorage.updateLastProgress.
    rewrite jobRow_updated by reflexivity.
    rewrite jobRow_updateJob by (destruct rev; reflexivity).
    rewrite Hrow. eauto.
  - now rewrite <- app_assoc.
Qed.

(** X11.  Cancelling before the worker starts.  When the cancel endpoint has
    accepted a request for a job that no worker holds, the next run of
    [processJob] on it stops at its first poll: it calls no service, enters
    no stage, leaves every step as it was, and ends the job failed with the
    message "Cancelled by user". *)
Theorem cancelled_before_start (w : World) (rev : Revision) (jobId : string) (now : Z)
    (m : Machine) (j : Job.t) :
  jobRow jobId m.(db) = Some j ->
  terminal j.(Job.status) = false ->
  lease_free j (w.(clock) m.(calls)) ->
  let requested := {| db := (cancelJob jobId now m.(db)).2; calls := m.(calls);
                      trace := m.(trace); context := m.(context) |} in
  (cancelJob jobId now m.(db)).1 = 200 /\
  (processJob w rev jobId requested).2.(calls) = m.(calls) /\
  (processJob w rev jobId requested).2.(db).(jobSteps) = m.(db).(jobSteps) /\
  (processJob w rev jobId requested).2.(trace)
  = m.(trace) ++ cancelled_run_events rev jobId j.(Job.settings) /\
  exists j',
    jobRow jobId (processJob w rev jobId requested).2.(db) = Some j' /\
    j'.(Job.status) = failed /\ j'.(Job.errorMessage) = Some "Cancelled by user".
Proof.
  intros Hrow Hterm Hfree requested.
  assert (Hc : cancelJob jobId now m.(db)
               = (200, DatabaseStorage.updatedJobs jobId
                         [Job.Set_cancelRequested (Some true)] now m.(db))).
  { unfold cancelJob. rewrite (getJob_of_row _ _ _ Hrow). cbn [row].
    destruct (Job.status j); try reflexivity; discriminate. }
  split; [now rewrite Hc|].
  set (j0 := DatabaseStorage.applyJobUpdates [Job.Set_cancelRequested (Some true)] now j).
  assert (Hrow0 : jobRow jobId requested.(db) = Some j0).
  { subst requested. cbn [db]. rewrite Hc. cbn [snd].
    rewrite jobRow_updateJob by reflexivity. now rewrite Hrow. }
  assert (Hfree0 : lease_free j0 (w.(clock) requested.(calls))) by exact Hfree.
  pose proof (acquire_granted jobId w.(WORKER_ID) 120 _ _ _ Hrow0 Hfree0) as Hacq.
  rewrite processJob_run, Hacq.
  destruct (acquire_success_inv _ _ _ _ _ Hacq) as (j0' & Hj0' & _ & Elock).
  assert (j0' = j0) by congruence. subst j0'.
  assert (HrowL : jobRow jobId (locked w jobId requested).(db)
                  = Some (DatabaseStorage.setLease w.(WORKER_ID)
                            (w.(clock) requested.(calls)) 120 j0)).
  { unfold locked. cbn [db]. rewrite Elock. cbn [snd].
    rewrite jobRow_updated by reflexivity. now rewrite Hrow0. }
  destruct (processJob_try_cancelled w rev jobId (w.(clock) requested.(calls))
              (locked w jobId requested) _ HrowL eq_refl)
    as (m1 & E & C & S & R & T).
  rewrite E. cbn [snd released failure_recorded calls trace db].
  split; [exact C|]. split.
  { transitivity (jobSteps (db m1)); [reflexivity|]. rewrite S. unfold locked. cbn [db]. rewrite acquire_keeps_steps.
    subst requested. cbn [db]. now rewrite Hc. }
  split; [rewrite T; unfold cancelled_run_events; rewrite <- app_assoc; reflexivity|].
  destruct (job_failed_after_catch w jobId (JsError "Cancelled by user") m1 R)
    as (j' & Hj' & Hs & He).
  exists j'. split; [exact Hj'|]. split; [exact Hs|exact He].
Qed.

Lemma cancelled_before_start_witness :
  let requested := {| db := (cancelJob "job-1" 5 fresh_machine.(db)).2;
                      calls := fresh_machine.(calls); trace := fresh_machine.(trace);
                      context := fresh_machine.(context) |} in
  (cancelJob "job-1" 5 fresh_machine.(db)).1 = 200 /\
  (processJob quiet_world Rev2 "job-1" requested).2.(calls) = fresh_machine.(calls) /\
  (processJob quiet_world Rev2 "job-1" requested).2.(db).(jobSteps)
  = fresh_machine.(db).(jobSteps) /\
  (processJob quiet_world Rev2 "job-1" requested).2.(trace)
  = fresh_machine.(trace) ++ cancelled_run_events Rev2 "job-1" sample_job.(Job.settings) /\
  exists j',
    jobRow "job-1" (processJob quiet_world Rev2 "job-1" requested).2.(db) = Some j' /\
    j'.(Job.status) = failed /\ j'.(Job.errorMessage) = Some "Cancelled by user".
Proof.
  apply (cancelled_before_start quiet_world Rev2 "job-1" 5 fresh_machine sample_job).
  - reflexivity.
  - reflexivity.
  - left. reflexivity.
Defined.

(** ** Creating the steps of a job *)

Lemma initializeJobSteps_run w jobId (m : Machine) :
  initializeJobSteps w jobId m
  = match DatabaseStorage.getJobSteps jobId m.(db) with
    | [] =>
        match jobRow jobId m.(db) with
        | Some _ =>
            (Ok tt,
             {| db := {| jobs := m.(db).(jobs);
                         jobSteps := m.(db).(jobSteps)
                                     ++ created_steps w jobId m.(db).(inserted);
                         assets := m.(db).(assets); settings := m.(db).(settings);
                         inserted := (5 + m.(db).(inserted))%nat |};
                calls := m.(calls); trace := m.(trace); context := m.(context) |})
        | None =>
            (Throw (JsError (w.(databaseError) (ForeignKeyViolation "job_steps" jobId))),
             m)
        end
    | _ :: _ => (Ok tt, m)
    end.
Proof.
  unfold initializeJobSteps, readDb. rewrite bind_run.
  destruct (DatabaseStorage.getJobSteps jobId (db m)) as [|st l]; [|reflexivity].
  change (0 <? Z.of_nat (length (@nil JobStep.t))) with false. cbv iota.
  unfold jobRow.
  destruct (filter (fun j => Job.id j = jobId) (jobs (db m))) as [|j js] eqn:Hjob.
  - cbn [for_each head]. rewrite bind_run. unfold awaitWrite at 1.
    unfold DatabaseStorage.createJobStep. now rewrite Hjob.
  - cbn [for_each head].
    repeat (rewrite bind_run; unfold awaitWrite at 1;
            unfold DatabaseStorage.createJobStep at 1;
            cbn [db jobs DatabaseStorage.insertedJobStep]; rewrite Hjob;
            cbv beta iota).
    unfold ret, created_steps, queued_step, DatabaseStorage.insertedJobStep.
    cbn [db jobs jobSteps assets settings inserted Nat.add]. rewrite <- !app_assoc.
    reflexivity.
Qed.

Lemma getJobSteps_created w jobId other n :
  filter (fun s => s.(JobStep.jobId) = other) (created_steps w jobId n)
  = if decide (jobId = other) then created_steps w jobId n else [].
Proof.
  unfold created_steps. destruct (decide (jobId = other)) as [E|N].
  - now rewrite !filter_cons_True by exact E.
  - now rewrite !filter_cons_False by exact N.
Qed.

Lemma initializeJobSteps_fresh w jobId (m : Machine) j :
  DatabaseStorage.getJobSteps jobId m.(db) = [] ->
  jobRow jobId m.(db) = Some j ->
  (initializeJobSteps w jobId m).1 = Ok tt /\
  DatabaseStorage.getJobSteps jobId (initializeJobSteps w jobId m).2.(db)
  = created_steps w jobId m.(db).(inserted).
Proof.
  intros Hnone Hjob. rewrite initializeJobSteps_run, Hnone, Hjob. cbn [fst snd db].
  split; [reflexivity|].
  unfold DatabaseStorage.getJobSteps in *. cbn [jobSteps].
  rewrite filter_app, Hnone, getJobSteps_created.
  now rewrite decide_True by reflexivity.
Qed.

(** X12.  [initializeJobSteps] on a job that exists and has no steps creates
    the five steps of the pipeline in stage order, each queued and blank, so
    that every stage type is then found by the step runner; the steps of
    other jobs and the jobs table are untouched.  For an id that no job
    has, the first insert violates the foreign key of [job_steps]: the call
    throws the driver's error and nothing is written.  On a job that
    already has a step, even just one, it creates nothing. *)
Theorem initializeJobSteps_effect (w : World) (jobId : string) (m : Machine) :
  match DatabaseStorage.getJobSteps jobId m.(db), jobRow jobId m.(db) with
  | [], Some _ =>
      (initializeJobSteps w jobId m).1 = Ok tt /\
      DatabaseStorage.getJobSteps jobId (initializeJobSteps w jobId m).2.(db)
      = created_steps w jobId m.(db).(inserted) /\
      map JobStep.stepType
        (DatabaseStorage.getJobSteps jobId (initializeJobSteps w jobId m).2.(db))
      = stageTypes /\
      (forall s, In s stageTypes ->
         exists st, stepOf jobId s (initializeJobSteps w jobId m).2.(db) = Some st /\
                    st.(JobStep.status) = step_queued) /\
      (forall other, other <> jobId ->
         DatabaseStorage.getJobSteps other (initializeJobSteps w jobId m).2.(db)
         = DatabaseStorage.getJobSteps other m.(db)) /\
      (initializeJobSteps w jobId m).2.(db).(jobs) = m.(db).(jobs)
  | [], None =>
      initializeJobSteps w jobId m
      = (Throw (JsError (w.(databaseError) (ForeignKeyViolation "job_steps" jobId))), m)
  | _ :: _, _ => initializeJobSteps w jobId m = (Ok tt, m)
  end.
Proof.
  destruct (DatabaseStorage.getJobSteps jobId (db m)) as [|st0 l] eqn:Hnone;
    [|now rewrite initializeJobSteps_run, Hnone].
  destruct (jobRow jobId (db m)) as [j|] eqn:Hjob;
    [|now rewrite initializeJobSteps_run, Hnone, Hjob].
  destruct (initializeJobSteps_fresh w jobId m j Hnone Hjob) as [R E].
  split; [exact R|]. split; [exact E|]. split; [now rewrite E|].
  split; [|split].
  - intros s Hs. unfold stepOf. rewrite E.
    repeat (destruct Hs as [<-|Hs]; [eexists; split; reflexivity|]). destruct Hs.
  - intros other N. rewrite initializeJobSteps_run, Hnone, Hjob. cbn [snd db].
    unfold DatabaseStorage.getJobSteps. cbn [jobSteps].
    rewrite filter_app, getJobSteps_created.
    rewrite decide_False by congruence. apply app_nil_r.
  - now rewrite initializeJobSteps_run, Hnone, Hjob.
Qed.

(** X13.  [initializeJobSteps] is idempotent: calling it a second time
    changes nothing, whatever the store. *)
Theorem initializeJobSteps_idempotent (w : World) (jobId : string) (m : Machine) :
  (initializeJobSteps w jobId ;; initializeJobSteps w jobId) m
  = initializeJobSteps w jobId m.
Proof.
  rewrite bind_run.
  destruct (DatabaseStorage.getJobSteps jobId (db m)) as [|st0 l] eqn:Hsteps.
  - destruct (jobRow jobId (db m)) as [j|] eqn:Hjob.
    + destruct (initializeJobSteps_fresh w jobId m j Hsteps Hjob) as [H1 H2].
      destruct (initializeJobSteps w jobId m) as [[[]|e] m1]; [|discriminate].
      cbn [snd] in H2. rewrite initializeJobSteps_run, H2. reflexivity.
    + now rewrite (initializeJobSteps_run w jobId m), Hsteps, Hjob.
  - rewrite (initializeJobSteps_run w jobId m), Hsteps.
    rewrite initializeJobSteps_run, Hsteps. reflexivity.
Qed.
(** ** Steps of a completed job *)

Lemma done_after_sibling w jobId s s' st started (m0 m2 : Machine) :
  done_or_absent jobId s' m0.(db) ->
  stage_frame (entered w s st m0) m2 ->
  done_or_absent jobId s' (marked_completed w st started m2).(db).
Proof.
  unfold done_or_absent. intros Hdone F.
  destruct (stepOf jobId s' (db m0)) as [st'|] eqn:Hstep.
  - destruct (stepOf_after_sibling w jobId s s' st st' started m0 m2 Hstep Hdone F)
      as (st2 & E & D). now rewrite E.
  - unfold marked_completed. cbn [db]. rewrite stepOf_updateJobStep by reflexivity.
    rewrite (stepOf_frame _ _ _ _ F). unfold entered. cbn [db].
    rewrite stepOf_updateJobStep by reflexivity. now rewrite Hstep.
Qed.

Lemma done_frame jobId s (m m' : Machine) :
  stage_frame m m' -> done_or_absent jobId s m.(db) -> done_or_absent jobId s m'.(db).
Proof. intros F. unfold done_or_absent. now rewrite (stepOf_frame _ _ _ _ F). Qed.

Section Finishing.

Variable w : World.
Variable jobId : string.

Lemma finishes_bind d1 d2 {A B} (c : Async A) (k : A -> Async B) :
  finishes jobId d1 c -> (forall a, finishes jobId d2 (k a)) ->
  finishes jobId (d1 ++ d2) (bind c k).
Proof.
  intros Hc Hk m b Hrow. rewrite bind_run. specialize (Hc m).
  destruct (c m) as [[a|e] m1]; cbn [fst snd] in *; [|discriminate].
  destruct (Hc a Hrow eq_refl) as (R1 & K1 & S1). intros Hb.
  destruct (Hk a m1 b R1 Hb) as (R2 & K2 & S2).
  split; [exact R2|]. split; [auto|].
  intros s Hs. apply in_app_iff in Hs as [Hs|Hs]; auto.
Qed.

Lemma finishes_weaken d d' {A} (c : Async A) :
  finishes jobId d c -> (forall s, In s d' -> In s d) -> finishes jobId d' c.
Proof.
  intros Hc Hd m a Hrow Ha. destruct (Hc m a Hrow Ha) as (R & K & S). auto.
Qed.

Lemma boundary_finishes {A} (c : Async A) :
  (forall s, graceful w s c) -> finishes jobId [] c.
Proof.
  intros H m a Hrow Ha. destruct (H "script" m) as (F & _).
  split; [eapply jobRow_persists; [exact (proj2 F)|exact Hrow]|].
  split; [intros s; now apply done_frame|]. intros s [].
Qed.

Lemma finishes_runStep s fn :
  graceful w s fn -> finishes jobId [s] (runStep w jobId s fn).
Proof.
  intros G m a Hrow.
  destruct (runStep_cases w jobId s fn m) as [E|(jw & st & Hjob & Hstep & E)].
  - (* the step is missing or completed: nothing is run *)
    assert (D : done_or_absent jobId s m.(db)).
    { unfold done_or_absent. destruct (stepOf jobId s (db m)) as [st|] eqn:Hstep;
        [|exact I].
      assert (C : st.(JobStep.status) = step_completed \/
                  st.(JobStep.status) <> step_completed)
        by (destruct (JobStep.status st); auto; right; discriminate).
      destruct C as [C|N]; [exact C|]. destruct Hrow as [j Hj].
      pose proof (runStep_runs w jobId s fn m _ st (getJob_of_row _ _ _ Hj) Hstep N)
        as R. rewrite E in R.
      destruct (G (entered w s st m)) as (_ & evs & T & _).
      destruct (fn (entered w s st m)) as [[[]|e] m2]; [|discriminate].
      apply (f_equal (fun r => trace r.2)) in R. cbn [snd] in R, T.
      match type of R with _ = trace (saveStepTiming w ?a s ?c ?d).2 =>
        change (trace (saveStepTiming w a s c d).2) with (trace m2) in R end.
      rewrite T in R. cbn [entered trace] in R.
      rewrite <- app_assoc in R. rewrite <- (app_nil_r (trace m)) in R at 1.
      apply app_inv_head in R. discriminate. }
    rewrite E. intros _. split; [exact Hrow|]. split; [auto|].
    intros s' [<-|[]]. exact D.
  - rewrite E. destruct (G (entered w s st m)) as (F & _).
    destruct (fn (entered w s st m)) as [[[]|e] m2]; [|discriminate]. intros _.
    match goal with |- context [saveStepTiming w ?a s ?c ?d] =>
      destruct (quiet_saveStepTiming w s a c d) as (F' & _);
      set (m3 := (saveStepTiming w a s c d).2) in * end.
    split; [|split].
    + eapply jobRow_persists; [|exact Hrow]. rewrite (proj2 F'). exact (proj2 F).
    + intros s' D. apply (done_frame _ _ _ _ F').
      now apply (done_after_sibling w jobId s s' st _ m m2).
    + intros s' [<-|[]]. apply (done_frame _ _ _ _ F'). unfold done_or_absent.
      destruct (stepOf_after_completion w jobId s st (clock w (calls m)) m m2 Hstep F)
        as (st' & E' & D & _). now rewrite E'.
Qed.

End Finishing.

Ltac finish_walk :=
  cbv zeta;
  lazymatch goal with
  | |- finishes _ _ (bind _ _) =>
      eapply finishes_bind; [ finish_walk | intros ?; finish_walk ]
  | |- finishes _ _ (runStep _ _ _ _) => apply finishes_runStep; stage_lemma
  | |- finishes _ _ _ =>
      match goal with w : World |- _ => apply (boundary_finishes w) end; boundary_leaf
  end.

Lemma processJob_try_finishes w rev jobId jobStartTime (m : Machine) :
  is_Some (jobRow jobId m.(db)) ->
  (processJob_try w rev jobId jobStartTime m).1 = Ok tt ->
  Forall (fun s => done_or_absent jobId s (processJob_try w rev jobId jobStartTime m).2.(db))
         stageTypes.
Proof.
  intros Hrow. pose proof Hrow as [j Hj].
  set (r := processJob_try w rev jobId jobStartTime m).
  pose proof (eq_refl r) as E. unfold r at 2 in E. unfold processJob_try in E.
  rewrite bind_run in E. unfold storage_getJob at 1, readDb at 1 in E.
  rewrite (getJob_of_row _ _ _ Hj) in E. cbv zeta in E. cbn [row] in E.
  clearbody r. rewrite E. clear E r. intros H.
  match type of H with (?c m).1 = _ =>
    assert (F : finishes jobId stageTypes c) end.
  { eapply finishes_weaken; [finish_walk|]. cbn. tauto. }
  destruct (F m tt Hrow H) as (_ & _ & S). apply Forall_forall.
  intros s Hs. apply S. now apply list_elem_of_In.
Qed.

(** X14.  A job that a run of [processJob] leaves completed has no
    unfinished step: for each of the five stage types, the step of the job
    is completed (or the job has no step of that type). *)
Theorem completed_job_has_completed_steps (w : World) (rev : Revision) (jobId : string)
    (m : Machine) (j j' : Job.t) :
  jobRow jobId m.(db) = Some j ->
  lease_free j (w.(clock) m.(calls)) ->
  jobRow jobId (processJob w rev jobId m).2.(db) = Some j' ->
  j'.(Job.status) = completed ->
  Forall (fun s => done_or_absent jobId s (processJob w rev jobId m).2.(db)) stageTypes.
Proof.
  intros Hrow Hfree.
  pose proof (acquire_granted jobId w.(WORKER_ID) 120 _ _ _ Hrow Hfree) as Hacq.
  pose proof (acquired_row_exists _ _ _ _ _ Hacq) as Hlocked.
  rewrite processJob_run, Hacq.
  pose proof (processJob_try_finishes w rev jobId (clock w (calls m)) (locked w jobId m)
                Hlocked) as Hfin.
  destruct (orderly_processJob_try w rev jobId (clock w (calls m)) (locked w jobId m))
    as (I & _).
  pose proof (jobRow_persists jobId _ _ I Hlocked) as Hend.
  destruct (processJob_try w rev jobId _ (locked w jobId m)) as [[[]|e] m1];
    cbn [fst snd] in *.
  - intros _ _. eapply Forall_impl; [exact (Hfin eq_refl)|]. intros s D. exact D.
  - intros Hj' Hst.
    destruct (job_failed_after_catch w jobId e m1 Hend) as (jf & Hjf & Hf & _).
    rewrite Hj' in Hjf. injection Hjf as <-. congruence.
Qed.

Lemma completed_job_has_completed_steps_witness :
  Forall (fun s => done_or_absent "job-1" s
                     (processJob quiet_world Rev2 "job-1" fresh_machine).2.(db))
         stageTypes.
Proof.
  eapply (completed_job_has_completed_steps quiet_world Rev2 "job-1" fresh_machine
            sample_job).
  - reflexivity.
  - left. reflexivity.
  - vm_compute. reflexivity.
  - reflexivity.
Defined.

(** X15.  The step runner's record of a stage.  For a step that exists and
    is not completed, and a stage function that leaves the steps table
    alone: when the function returns, [runStep] returns and the step is
    completed, with [startedAt] the time the step was entered, [finishedAt]
    the time the function returned and [durationMs] their difference; when
    it throws, [runStep] throws the same error and the step is failed with
    the error's message. *)
Theorem runStep_records_outcome (w : World) (jobId s : string) (fn : Async unit)
    (m : Machine) (j : Job.t) (st : JobStep.t) :
  jobRow jobId m.(db) = Some j ->
  stepOf jobId s m.(db) = Some st ->
  st.(JobStep.status) <> step_completed ->
  stage_frame (entered w s st m) (fn (entered w s st m)).2 ->
  match (fn (entered w s st m)).1 with
  | Ok _ =>
      (runStep w jobId s fn m).1 = Ok tt /\
      exists st',
        stepOf jobId s (runStep w jobId s fn m).2.(db) = Some st' /\
        st'.(JobStep.status) = step_completed /\
        st'.(JobStep.startedAt) = Some (w.(clock) m.(calls)) /\
        st'.(JobStep.finishedAt) = Some (w.(clock) (fn (entered w s st m)).2.(calls)) /\
        st'.(JobStep.durationMs)
        = Some (w.(clock) (fn (entered w s st m)).2.(calls) - w.(clock) m.(calls))
  | Throw e =>
      (runStep w jobId s fn m).1 = Throw e /\
      exists st',
        stepOf jobId s (runStep w jobId s fn m).2.(db) = Some st' /\
        st'.(JobStep.status) = step_failed /\
        st'.(JobStep.message) = Some (messageOr "Step failed" e)
  end.
Proof.
  intros Hrow Hstep Hstatus F.
  rewrite (runStep_runs w jobId s fn m _ st (getJob_of_row _ _ _ Hrow) Hstep Hstatus).
  destruct (fn (entered w s st m)) as [[[]|e] m2]; cbn [fst snd] in *.
  - split; [reflexivity|].
    match goal with |- context [saveStepTiming w ?a s ?c ?d] =>
      destruct (quiet_saveStepTiming w s a c d) as (F' & _) end.
    rewrite (stepOf_frame _ _ _ _ F').
    destruct (stepOf_after_completion w jobId s st (clock w (calls m)) m m2 Hstep F)
      as (st' & E & D1 & D2 & D3 & D4 & _).
    exists st'. auto.
  - split; [reflexivity|].
    destruct (stepOf_after_failure w jobId s st e m m2 Hstep F) as (st' & E & D1 & D2).
    exists st'. auto.
Qed.

Lemma runStep_records_outcome_witness :
  (runStep quiet_world "job-1" "script" (ret tt) fresh_machine).1 = Ok tt /\
  exists st',
    stepOf "job-1" "script"
      (runStep quiet_world "job-1" "script" (ret tt) fresh_machine).2.(db) = Some st' /\
    st'.(JobStep.status) = step_completed /\
    st'.(JobStep.startedAt) = Some 0 /\
    st'.(JobStep.finishedAt) = Some 0 /\
    st'.(JobStep.durationMs) = Some 0.
Proof.
  exact (runStep_records_outcome quiet_world "job-1" "script" (ret tt) fresh_machine
           sample_job (sample_step 0 "script" step_queued) eq_refl eq_refl
           ltac:(discriminate) ltac:(split; reflexivity)).
Defined.

(** ** The estimate of the time left *)

Lemma Math_round_ratio_nonneg num den : 0 <= num -> 0 < den -> 0 <= Math_round_ratio num den.
Proof. intros. unfold Math_round_ratio. apply Z.div_pos; lia. Qed.

Lemma Math_round_ratio_zero den : 0 < den -> Math_round_ratio 0 den = 0.
Proof. intros. unfold Math_round_ratio. apply Z.div_small. lia. Qed.

(** X16.  [calculateETA] for a progress of [num / den] percent, at most 100:
    it changes nothing and answers null when no progress was made or less
    than a tenth of a second has passed since the start; otherwise it
    answers a number of seconds that is never negative, and 0 at 100
    percent. *)
Theorem calculateETA_bounds (w : World) (startTime num den : Z) (m : Machine) :
  0 < den -> num <= 100 * den ->
  exists r,
    calculateETA w startTime num den m = (Ok r, m) /\
    match r with
    | None => num <= 0 \/ w.(clock) m.(calls) - startTime < 100
    | Some eta =>
        0 < num /\ 100 <= w.(clock) m.(calls) - startTime /\ 0 <= eta /\
        (num = 100 * den -> eta = 0)
    end.
Proof.
  intros Hden Hnum. unfold calculateETA, Date_now. rewrite bind_run. cbn beta iota.
  destruct (Z.leb_spec num 0) as [Hle|Hpos]; [eexists; split; [reflexivity|]; now left|].
  destruct (Z.ltb_spec (clock w (calls m) - startTime) 100) as [Hlt|Hge];
    [eexists; split; [reflexivity|]; now right|].
  eexists. split; [reflexivity|]. split; [exact Hpos|]. split; [exact Hge|]. split.
  - apply Math_round_ratio_nonneg; nia.
  - intros ->. replace ((100 * den - 100 * den) * _) with 0 by lia.
    apply Math_round_ratio_zero. lia.
Qed.

Lemma calculateETA_bounds_witness :
  exists r,
    calculateETA quiet_world 0 10 1 render_pending_machine
    = (Ok r, render_pending_machine) /\
    match r with
    | None => 10 <= 0 \/
              quiet_world.(clock) render_pending_machine.(calls) - 0 < 100
    | Some eta =>
        0 < 10 /\ 100 <= quiet_world.(clock) render_pending_machine.(calls) - 0 /\
        0 <= eta /\ (10 = 100 * 1 -> eta = 0)
    end.
Proof.
  apply (calculateETA_bounds quiet_world 0 10 1 render_pending_machine); lia.
Defined.

(** ** The queue *)

Lemma drain_history queue ran :
  history (drain queue ran) = ran ++ filter (fun jobId => jobId <> "") queue.
Proof.
  induction queue as [|jobId rest IH]; [reflexivity|]. cbn [drain].
  destruct (String.eqb_spec jobId "") as [->|N].
  - rewrite IH. now rewrite filter_cons_False by (intros H; now apply H).
  - unfold history. cbn [started jobQueue].
    rewrite filter_cons_True by exact N. now rewrite <- app_assoc.
Qed.

Lemma drain_invariant queue ran :
  NoDup queue ->
  NoDup (drain queue ran).(jobQueue) /\
  ((drain queue ran).(isProcessing) = false -> (drain queue ran).(jobQueue) = []).
Proof.
  induction queue as [|jobId rest IH]; intros H; [split; [constructor|reflexivity]|].
  cbn [drain]. apply NoDup_cons in H as [_ H].
  destruct (String.eqb jobId ""); [now apply IH|].
  split; [exact H|discriminate].
Qed.

Lemma pumpStep_invariant (p : Pump) (ev : PumpEvent) :
  NoDup p.(jobQueue) /\ (p.(isProcessing) = false -> p.(jobQueue) = []) ->
  NoDup (pumpStep p ev).(jobQueue) /\
  ((pumpStep p ev).(isProcessing) = false -> (pumpStep p ev).(jobQueue) = []).
Proof.
  intros [Hnd Hidle]. destruct ev as [jobId|]; cbn [pumpStep].
  - unfold enqueueJob.
    assert (Hq : NoDup (if bool_decide (jobId ∈ jobQueue p) then jobQueue p
                        else jobQueue p ++ [jobId])).
    { destruct (decide (jobId ∈ jobQueue p)) as [Y|N].
      - now rewrite bool_decide_eq_true_2 by exact Y.
      - rewrite bool_decide_eq_false_2 by exact N. apply NoDup_app.
        split; [exact Hnd|]. split; [|apply NoDup_singleton].
        intros x Hx Hx'. apply list_elem_of_singleton in Hx' as ->. now apply N. }
    destruct (isProcessing p); [split; [exact Hq|discriminate]|].
    now apply drain_invariant.
  - unfold jobDone. destruct (isProcessing p) eqn:E; [now apply drain_invariant|].
    split; [exact Hnd|]. intros _. now apply Hidle.
Qed.

(** X17.  Whatever ids are enqueued and whenever jobs end, the queue never
    holds an id twice, and it is empty whenever the pump is not running: an
    id that waits is always going to be taken by the running loop. *)
Theorem queue_invariant (evs : list PumpEvent) :
  NoDup (foldl pumpStep idlePump evs).(jobQueue) /\
  ((foldl pumpStep idlePump evs).(isProcessing) = false ->
   (foldl pumpStep idlePump evs).(jobQueue) = []).
Proof.
  assert (G : forall p,
             NoDup p.(jobQueue) /\ (p.(isProcessing) = false -> p.(jobQueue) = []) ->
             NoDup (foldl pumpStep p evs).(jobQueue) /\
             ((foldl pumpStep p evs).(isProcessing) = false ->
              (foldl pumpStep p evs).(jobQueue) = [])).
  { induction evs as [|ev evs IH]; intros p Hp; [exact Hp|].
    cbn [foldl]. apply IH. now apply pumpStep_invariant. }
  apply G. split; [constructor|reflexivity].
Qed.

(** X18.  The queue is first in, first out and loses nothing.  The sequence
    of ids started followed by the ids waiting only ever grows at its end:
    an enqueued id is appended unless it is already waiting (or is the empty
    string, which is never run), and the end of a job changes nothing in it.
    [processJob] is therefore called with the ids in the order in which they
    were accepted. *)
Theorem queue_is_fifo (p : Pump) (ev : PumpEvent) :
  history (pumpStep p ev)
  = history p
    ++ match ev with
       | Enqueued jobId =>
           if bool_decide (jobId ∈ p.(jobQueue)) then []
           else if String.eqb jobId "" then [] else [jobId]
       | JobDone => []
       end.
Proof.
  destruct ev as [jobId|]; cbn [pumpStep].
  - unfold enqueueJob.
    assert (E : filter (fun jobId => jobId <> "")
                  (if bool_decide (jobId ∈ jobQueue p) then jobQueue p
                   else jobQueue p ++ [jobId])
                = filter (fun jobId => jobId <> "") (jobQueue p)
                  ++ (if bool_decide (jobId ∈ jobQueue p) then []
                      else if String.eqb jobId "" then [] else [jobId])).
    { destruct (bool_decide _); [now rewrite app_nil_r|]. rewrite filter_app.
      destruct (String.eqb_spec jobId "") as [->|N].
      - now rewrite filter_cons_False by (intros H; now apply H).
      - now rewrite filter_cons_True by exact N. }
    destruct (isProcessing p).
    + unfold history. cbn [started jobQueue]. now rewrite E, app_assoc.
    + rewrite drain_history, E. unfold history. now rewrite app_assoc.
  - rewrite app_nil_r. unfold jobDone. destruct (isProcessing p); [|reflexivity].
    now rewrite drain_history.
Qed.

(** ** Scenes of a script *)

Lemma pushScene_built vars overlay voice :
  scenes_built vars -> scenes_built (pushScene vars overlay voice).
Proof.
  intros (N & C & T). unfold pushScene. split; [|split]; cbn [fst snd].
  - intros i sc Hi. apply lookup_app_Some in Hi as [Hi|[Hlen Hi]]; [now apply N|].
    apply list_lookup_singleton_Some in Hi as [Hi <-].
    assert (i = length vars.1) as -> by lia. repeat split.
  - apply chained_app. split; [exact C|]. rewrite <- T. repeat split.
  - unfold sceneDurations in *. rewrite map_app, foldl_app, <- T. reflexivity.
Qed.

Lemma foldl_built {X} (step : list Scene.t * float -> X -> list Scene.t * float)
    (xs : list X) vars :
  (forall vars x, scenes_built vars -> scenes_built (step vars x)) ->
  scenes_built vars -> scenes_built (foldl step vars xs).
Proof.
  intros Hstep. revert vars. induction xs as [|x xs IH]; intros vars H; [exact H|].
  cbn [foldl]. apply IH. now apply Hstep.
Qed.

Lemma nothing_built : scenes_built ([], 0%float).
Proof. split; [intros i sc Hi; discriminate|]. split; reflexivity. Qed.

Lemma scenesOfSegments_built segments : scenes_built (scenesOfSegments segments).
Proof.
  apply foldl_built; [|exact nothing_built]. intros vars x. apply pushScene_built.
Qed.

Lemma scenesOfSentences_built sentences : scenes_built (scenesOfSentences sentences).
Proof.
  apply foldl_built; [|exact nothing_built]. intros vars i H. cbv zeta.
  destruct (trim _); [exact H|now apply pushScene_built].
Qed.

Lemma buildScenes_built parsed : exists t, scenes_built (buildScenes parsed, t).
Proof.
  unfold buildScenes. cbv zeta. destruct (_ && _).
  - eexists. rewrite <- surjective_pairing. apply scenesOfSentences_built.
  - eexists. rewrite <- surjective_pairing. apply scenesOfSegments_built.
Qed.

(** X19.  Whatever the parsed reply, [buildScenes] numbers the scenes from 0
    and names them [scene-1], [scene-2], ...; no scene carries a prompt, an
    asset or a measured duration yet; and the timings are laid end to end
    from 0: every scene lasts five seconds and ends where the next starts,
    and the last one ends at the total duration the renderer computes for
    these scenes. *)
Theorem buildScenes_timings (parsed : ParsedScript) :
  (forall i sc, buildScenes parsed !! i = Some sc -> fresh_scene i sc) /\
  (forall sc, head (buildScenes parsed) = Some sc -> sc.(Scene.startTime) = 0%float) /\
  (forall i a, buildScenes parsed !! i = Some a ->
               a.(Scene.endTime) = PrimFloat.add a.(Scene.startTime) 5%float) /\
  (forall i a b, buildScenes parsed !! i = Some a -> buildScenes parsed !! S i = Some b ->
                 b.(Scene.startTime) = a.(Scene.endTime)) /\
  (forall sc, last (buildScenes parsed) = Some sc ->
              sc.(Scene.endTime) = totalDuration (buildScenes parsed)).
Proof.
  destruct (buildScenes_built parsed) as (t & N & C & _). cbn [fst snd] in *.
  split; [exact N|]. split; [|split; [|split]].
  - intros sc Hsc. destruct (buildScenes parsed) as [|s0 l]; [discriminate|].
    injection Hsc as ->. now destruct C.
  - intros i a Ha.
    destruct (N i a Ha) as (_ & _ & _ & _ & _ & D).
    clear N. revert i Ha C. generalize 0%float.
    induction (buildScenes parsed) as [|s0 l IH]; intros start i Ha C; [discriminate|].
    destruct C as (C1 & C2 & C3). destruct i as [|i].
    + injection Ha as ->. rewrite C2, C1, D. reflexivity.
    + exact (IH _ i Ha C3).
  - intros i a b Ha Hb. symmetry. exact (chained_adjacent 0%float _ i a b C Ha Hb).
  - intros sc Hsc. now apply (chained_last 0%float).
Qed.

Lemma overlay_of_text (text : option Text) :
  text_or (slice100 <$> text) [] = slice100 (text_or text []).
Proof.
  destruct text as [[|c t]|]; reflexivity.
Qed.

Lemma scenesOfSegments_texts (segments : list Segment) vars :
  let built := foldl (fun vars segment =>
                        let text := segmentText segment in
                        pushScene vars (text_or (slice100 <$> text) []) (text_or text []))
                     vars segments in
  map Scene.voiceSegmentText built.1
  = map Scene.voiceSegmentText vars.1
    ++ map (fun segment => Some (text_or (segmentText segment) [])) segments /\
  map Scene.textOverlay built.1
  = map Scene.textOverlay vars.1
    ++ map (fun segment => Some (take 100 (text_or (segmentText segment) []))) segments.
Proof.
  revert vars. induction segments as [|segment segments IH]; intros vars; cbn [foldl map].
  - now rewrite !app_nil_r.
  - cbv zeta in *. destruct (IH (pushScene vars
                                   (text_or (slice100 <$> segmentText segment) [])
                                   (text_or (segmentText segment) []))) as [V O].
    rewrite V, O. unfold pushScene. cbn [fst]. rewrite !map_app. cbn [map].
    rewrite overlay_of_text, <- !app_assoc. split; reflexivity.
Qed.

(** X20.  When the reply has segments (or no script to fall back on),
    [buildScenes] makes exactly one scene per segment, in order: the voice
    text of a scene is the text of its segment, the empty string when the
    segment has none, and the overlay is its first hundred UTF-16 code
    units, so that no overlay is longer than a hundred. *)
Theorem buildScenes_of_segments (parsed : ParsedScript) (segments : list Segment) :
  match parsed.(parsed_segments) with
  | Some l => l
  | None => default [] parsed.(parsed_scenes)
  end = segments ->
  segments <> [] \/ truthy_text parsed.(parsed_script) = false ->
  length (buildScenes parsed) = length segments /\
  map Scene.voiceSegmentText (buildScenes parsed)
  = map (fun segment => Some (text_or (segmentText segment) [])) segments /\
  map Scene.textOverlay (buildScenes parsed)
  = map (fun segment => Some (take 100 (text_or (segmentText segment) []))) segments /\
  Forall (fun sc => exists overlay, sc.(Scene.textOverlay) = Some overlay /\
                                    (length overlay <= 100)%nat)
         (buildScenes parsed).
Proof.
  intros Hseg Hcond. unfold buildScenes. cbv zeta. rewrite Hseg.
  assert (E : (length segments =? 0)%nat && truthy_text (parsed_script parsed) = false).
  { destruct Hcond as [N|F]; [|now rewrite F, andb_false_r].
    destruct segments; [now destruct N|reflexivity]. }
  rewrite E. destruct (scenesOfSegments_texts segments ([], 0%float)) as [V O].
  cbv zeta in V, O. cbn [fst map app] in V, O. fold (scenesOfSegments segments) in V, O.
  assert (L : length (scenesOfSegments segments).1 = length segments).
  { rewrite <- (length_map Scene.voiceSegmentText), V. apply length_map. }
  split; [exact L|]. split; [exact V|]. split; [exact O|].
  apply Forall_forall. intros sc Hsc.
  assert (Hin : sc.(Scene.textOverlay) ∈ map Scene.textOverlay (scenesOfSegments segments).1)
    by (apply list_elem_of_fmap; eauto).
  rewrite O in Hin. apply list_elem_of_fmap in Hin as (segment & E' & _).
  eexists. split; [exact E'|]. rewrite length_take. lia.
Qed.

(** The witness: two segments, the second an object without text. *)
Lemma buildScenes_of_segments_witness :
  length (buildScenes sample_reply)
  = length [SegmentString (text_of "Honey never spoils."); SegmentObject None] /\
  map Scene.voiceSegmentText (buildScenes sample_reply)
  = map (fun segment => Some (text_or (segmentText segment) []))
        [SegmentString (text_of "Honey never spoils."); SegmentObject None] /\
  map Scene.textOverlay (buildScenes sample_reply)
  = map (fun segment => Some (take 100 (text_or (segmentText segment) [])))
        [SegmentString (text_of "Honey never spoils."); SegmentObject None] /\
  Forall (fun sc => exists overlay, sc.(Scene.textOverlay) = Some overlay /\
                                    (length overlay <= 100)%nat)
         (buildScenes sample_reply).
Proof.
  apply (buildScenes_of_segments sample_reply
           [SegmentString (text_of "Honey never spoils."); SegmentObject None]).
  - reflexivity.
  - left. discriminate.
Defined.


(** *** [trim] yields a trimmed text *)







(** ** The generators are called at most once per scene *)

Lemma spent_app paid evs1 evs2 :
  spent paid (evs1 ++ evs2) = (spent paid evs1 + spent paid evs2)%nat.
Proof. unfold spent. now rewrite calls_of_app, List.filter_app, length_app. Qed.

Section Spending.

Variable w : World.
Variable paid : Service -> bool.

Lemma spends_weaken n n' {A} (c : Async A) :
  spends paid n c -> (n <= n')%nat -> spends paid n' c.
Proof. intros H Hle m. destruct (H m) as (evs & T & B). exists evs. split; [exact T|lia]. Qed.

Lemma spends_ret {A} (a : A) : spends paid 0 (ret a).
Proof. intros m. exists []. cbn. now rewrite app_nil_r. Qed.

Lemma spends_throw {A} (e : Thrown) : spends paid 0 (@throw A e).
Proof. intros m. exists []. cbn. now rewrite app_nil_r. Qed.

Lemma spends_bind_throw {A B} (e : Thrown) (k : A -> Async B) :
  spends paid 0 (bind (throw e) k).
Proof. intros m. exists []. cbn. now rewrite app_nil_r. Qed.

Lemma spends_bind_ret n {A B} (a : A) (k : A -> Async B) :
  spends paid n (k a) -> spends paid n (bind (ret a) k).
Proof. intros H m. exact (H m). Qed.

Lemma spends_bind n1 n2 {A B} (c : Async A) (k : A -> Async B) :
  spends paid n1 c -> (forall a, spends paid n2 (k a)) -> spends paid (n1 + n2) (bind c k).
Proof.
  intros Hc Hk m. rewrite bind_run. destruct (Hc m) as (evs & T & P).
  destruct (c m) as [[a|e] m1]; cbn [fst snd] in *.
  - destruct (Hk a m1) as (evs2 & T2 & P2). exists (evs ++ evs2).
    rewrite T2, T, app_assoc, spent_app. split; [reflexivity|lia].
  - exists evs. split; [exact T|lia].
Qed.

Lemma spends_catch n1 n2 {A} (c : Async A) (h : Thrown -> Async A) :
  spends paid n1 c -> (forall e, spends paid n2 (h e)) ->
  spends paid (n1 + n2) (try_catch c h).
Proof.
  intros Hc Hh m. unfold try_catch. destruct (Hc m) as (evs & T & P).
  destruct (c m) as [[a|e] m1]; cbn [fst snd] in *.
  - exists evs. split; [exact T|lia].
  - destruct (Hh e m1) as (evs2 & T2 & P2). exists (evs ++ evs2).
    rewrite T2, T, app_assoc, spent_app. split; [reflexivity|lia].
Qed.

Lemma spends_finally_nothing n {A} (c : Async A) :
  spends paid n c -> spends paid n (try_finally c (ret tt)).
Proof.
  intros Hc m. unfold try_finally. specialize (Hc m).
  destruct (c m) as [r m1]; cbn in *. exact Hc.
Qed.

Lemma spends_for_loop {St} (body : nat -> St -> Async St) (count from : nat) (st : St) :
  (forall i x, spends paid 0 (body i x)) -> spends paid 0 (for_loop count from body st).
Proof.
  intros Hb. revert from st. induction count as [|n IH]; intros from st; cbn.
  - apply spends_ret.
  - apply (spends_bind 0 0); [apply Hb|]. intros x. apply IH.
Qed.

Lemma spends_silent {A} (c : Async A) :
  (forall m, (c m).2.(trace) = m.(trace)) -> spends paid 0 c.
Proof. intros H m. exists []. rewrite H, app_nil_r. auto. Qed.

Lemma spends_log ev : spent paid [ev] = 0%nat -> spends paid 0 (log ev).
Proof. intros H m. exists [ev]. split; [reflexivity|lia]. Qed.

Lemma spends_external_other {A} svc (reply : nat -> Outcome A) :
  paid svc = false -> spends paid 0 (external w svc reply).
Proof.
  intros H m. exists [EvCall (calls m) svc]. split; [reflexivity|].
  unfold spent. cbn. now rewrite H.
Qed.

Lemma spends_external {A} svc (reply : nat -> Outcome A) :
  spends paid 1 (external w svc reply).
Proof.
  intros m. exists [EvCall (calls m) svc]. split; [reflexivity|].
  unfold spent. cbn. destruct (paid svc); cbn; lia.
Qed.

Lemma spends_storage_updateJob id updates : spends paid 0 (storage_updateJob w id updates).
Proof.
  intros m. destruct (storage_updateJob_cases w id updates m) as [E|(e & E)]; rewrite E.
  - exists [EvUpdateJob id updates]. split; [reflexivity|]. cbn. lia.
  - exists []. cbn. rewrite app_nil_r. split; [reflexivity|lia].
Qed.

Lemma spends_awaitWrite (statement : Store -> Written) :
  spends paid 0 (awaitWrite w statement).
Proof.
  apply spends_silent. intros m. unfold awaitWrite. now destruct (statement (db m)).
Qed.

End Spending.

Ltac free_walk :=
  cbv zeta;
  lazymatch goal with
  | |- spends _ 0 (bind _ _) =>
      apply (spends_bind _ 0 0); [ free_walk | intros ?; free_walk ]
  | |- spends _ 0 (try_catch _ _) =>
      apply (spends_catch _ 0 0); [ free_walk | intros ?; free_walk ]
  | |- spends _ 0 (try_finally _ (ret tt)) => apply spends_finally_nothing; free_walk
  | |- spends _ 0 (for_loop _ _ _ _) => apply spends_for_loop; intros ? ?; free_walk
  | |- spends _ 0 (if ?b then _ else _) => destruct b; free_walk
  | |- spends _ 0 (match ?x with _ => _ end) => destruct x; free_walk
  | |- spends _ 0 (ret _) => apply spends_ret
  | |- spends _ 0 (throw _) => apply spends_throw
  | |- spends _ 0 (log _) => apply spends_log; reflexivity
  | |- spends _ 0 (external _ _ _) => apply spends_external_other; reflexivity
  | |- spends _ 0 (storage_updateJob _ _ _) => apply spends_storage_updateJob
  | |- spends _ 0 (getContext) => apply spends_silent; intros ?; reflexivity
  | |- spends _ 0 (setContext _) => apply spends_silent; intros ?; reflexivity
  | |- spends _ 0 (readDb _) => apply spends_silent; intros ?; reflexivity
  | |- spends _ 0 (writeDb _) => apply spends_silent; intros ?; reflexivity
  | |- spends _ 0 (awaitWrite _ _) => apply spends_awaitWrite
  | |- spends _ 0 (Date_now _) => apply spends_silent; intros ?; reflexivity
  | |- spends _ 0 ?c =>
      first [ match goal with H : _ |- _ => solve [ apply H ] end
            | let h := head_of c in unfold h; free_walk ]
  end.

Ltac spend_past :=
  cbv zeta;
  lazymatch goal with
  | |- spends ?paid ?n (bind _ _) =>
      apply (spends_bind paid 0 n); [ free_walk | intros ? ]
  end.

Ltac spend_then_free :=
  cbv zeta;
  lazymatch goal with
  | |- spends ?paid ?n (bind _ _) =>
      apply (spends_weaken paid (n + 0) n); [ | lia ];
      apply (spends_bind paid n 0); [ | intros ?; free_walk ]
  end.

Section SpendingOfStages.

Variable w : World.
Variable rev : Revision.
Variable jobId : string.
Variable settings : JobSettings.
Variable jobStartTime : Z.

Lemma lacking_S lacks count from l :
  lacking lacks (S count) from l
  = (lacking lacks 1 from l + lacking lacks count (S from) l)%nat.
Proof.
  unfold lacking. rewrite <- length_app, <- List.filter_app. do 2 f_equal.
  destruct (drop from l) as [|x r] eqn:E.
  - assert (H : drop (S from) l = []).
    { replace (S from) with (from + 1)%nat by lia. now rewrite <- drop_drop, E. }
    now rewrite H, !take_nil.
  - assert (H : drop (S from) l = r).
    { replace (S from) with (from + 1)%nat by lia. now rewrite <- drop_drop, E. }
    rewrite H. cbn. now rewrite take_0.
Qed.

Lemma lacking_here lacks from l scene :
  l !! from = Some scene -> lacks scene = true -> lacking lacks 1 from l = 1%nat.
Proof.
  intros Hl Hs. unfold lacking. rewrite (drop_S _ _ _ Hl). cbn. rewrite take_0. cbn.
  now rewrite Hs.
Qed.

Lemma spends_scene_loop paid lacks (body : nat -> list Scene.t -> Async (list Scene.t)) :
  (forall i ss, spends paid (lacking lacks 1 i ss) (body i ss)) ->
  (forall i ss, returns (fun ss' => drop (S i) ss' = drop (S i) ss) (body i ss)) ->
  forall count from ss,
    spends paid (lacking lacks count from ss) (for_loop count from body ss).
Proof.
  intros Hs Hr n. induction n as [|n IH]; intros from ss; cbn [for_loop].
  - apply (spends_weaken paid 0); [apply spends_ret|lia].
  - rewrite lacking_S. intros m. rewrite bind_run.
    destruct (Hs from ss m) as (evs & T & P). specialize (Hr from ss m).
    destruct (body from ss m) as [[ss'|e] m1]; cbn [fst snd] in *.
    + destruct (IH (S from) ss' m1) as (evs2 & T2 & P2). exists (evs ++ evs2).
      rewrite T2, T, app_assoc, spent_app. split; [reflexivity|].
      assert (E : lacking lacks n (S from) ss' = lacking lacks n (S from) ss)
        by (unfold lacking; now rewrite (Hr ss' eq_refl)).
      lia.
    + exists evs. split; [exact T|lia].
Qed.

Lemma drop_after_alter {A} (f : A -> A) (i : nat) (l : list A) :
  drop (S i) (alter f i l) = drop (S i) l.
Proof. rewrite drop_alter. destruct (decide (S i <= i)%nat); [lia|reflexivity]. Qed.

Lemma visual_iteration_keeps_rest i ss :
  returns (fun ss' => drop (S i) ss' = drop (S i) ss)
    (visual_iteration w rev jobId jobStartTime i ss).
Proof.
  unfold visual_iteration.
  apply returns_bind. intros _. apply returns_bind. intros scene.
  destruct (truthy_str _); [now apply returns_ret|].
  apply returns_bind. intros imagePrompt. cbv zeta.
  apply returns_bind. intros existingAsset.
  apply (returns_bind_with (fun us => drop (S i) us = drop (S i) ss)).
  - destruct existingAsset.
    + apply returns_ret. now rewrite !drop_after_alter.
    + apply returns_catch.
      * apply returns_bind. intros ?. apply returns_bind. intros ?.
        apply returns_bind. intros ?. apply returns_ret. now rewrite !drop_after_alter.
      * intros ?. apply returns_ret. now rewrite !drop_after_alter.
  - intros us Hus. apply returns_bind. intros ?. apply returns_bind. intros ?.
    apply returns_bind. intros ?. now apply returns_ret.
Qed.

Lemma visual_iteration_spends i ss :
  spends is_generateImage (lacking lacksImage 1 i ss)
    (visual_iteration w rev jobId jobStartTime i ss).
Proof.
  unfold visual_iteration. spend_past. unfold sceneAt.
  destruct (ss !! i) as [scene|] eqn:Hi;
    [|apply (spends_weaken _ 0); [apply spends_bind_throw|lia]].
  apply spends_bind_ret. destruct (truthy_str _) eqn:Hurl;
    [apply (spends_weaken _ 0); [free_walk|lia]|].
  rewrite (lacking_here lacksImage i ss scene Hi) by (unfold lacksImage; now rewrite Hurl).
  spend_past. spend_past. spend_then_free.
  match goal with
  | |- spends _ _ (match ?x with _ => _ end) => destruct x
  end; [apply (spends_weaken _ 0); [free_walk|lia]|].
  apply (spends_weaken _ (1 + 0)); [|lia]. apply spends_catch; [|intros ?; free_walk].
  spend_then_free. apply spends_external.
Qed.

Lemma spends_getAudioDuration_from paid remaining attempt retries :
  paid Svc_ffprobe = false -> paid Svc_setTimeout = false ->
  spends paid 0 (getAudioDuration_from w remaining attempt retries).
Proof.
  intros H1 H2. revert attempt.
  induction remaining as [|remaining IH]; intros attempt; cbn.
  - apply spends_throw.
  - apply (spends_catch _ 0 0).
    + unfold probeDurationOnce.
      apply (spends_bind _ 0 0); [now apply spends_external_other|].
      intros dur. destruct (PrimFloat.ltb _ _); [apply spends_ret|apply spends_throw].
    + intros err. destruct (bool_decide _); [apply spends_throw|].
      apply (spends_bind _ 0 0); [now apply spends_external_other|]. intros _. apply IH.
Qed.

Lemma spends_reconcile_iteration i st :
  spends is_generateSpeech 0 (reconcile_iteration w jobId i st).
Proof.
  assert (H : forall retries, spends is_generateSpeech 0 (getAudioDuration w retries))
    by (intros retries; now apply spends_getAudioDuration_from).
  unfold reconcile_iteration. free_walk.
Qed.

Lemma audio_iteration_keeps_rest voice i ss :
  returns (fun ss' => drop (S i) ss' = drop (S i) ss)
    (audio_iteration w rev jobId voice jobStartTime i ss).
Proof.
  unfold audio_iteration.
  apply returns_bind. intros _. apply returns_bind. intros scene. cbv zeta.
  destruct (truthy_str _); [now apply returns_ret|].
  apply (returns_bind_with (fun us => drop (S i) us = drop (S i) ss)).
  - destruct (negb _); [|now apply returns_ret]. cbv zeta.
    apply returns_bind. intros existingAsset. destruct existingAsset.
    + apply returns_ret. now rewrite !drop_after_alter.
    + apply returns_catch.
      * apply returns_bind. intros ?. apply returns_bind. intros ?. cbv zeta.
        apply returns_catch.
        -- apply returns_bind. intros ?. apply returns_ret.
           now rewrite !drop_after_alter.
        -- intros ?. apply returns_ret. now rewrite !drop_after_alter.
      * intros ?. now apply returns_ret.
  - intros us Hus. apply returns_bind. intros ?. apply returns_bind. intros ?.
    apply returns_bind. intros ?. now apply returns_ret.
Qed.

Lemma audio_iteration_spends voice i ss :
  spends is_generateSpeech (lacking lacksAudio 1 i ss)
    (audio_iteration w rev jobId voice jobStartTime i ss).
Proof.
  unfold audio_iteration. spend_past. unfold sceneAt.
  destruct (ss !! i) as [scene|] eqn:Hi;
    [|apply (spends_weaken _ 0); [apply spends_bind_throw|lia]].
  apply spends_bind_ret. cbv zeta. destruct (truthy_str _) eqn:Hurl;
    [apply (spends_weaken _ 0); [free_walk|lia]|].
  rewrite (lacking_here lacksAudio i ss scene Hi) by (unfold lacksAudio; now rewrite Hurl).
  spend_then_free.
  destruct (negb _); [|apply (spends_weaken _ 0); [apply spends_ret|lia]]. cbv zeta.
  spend_past.
  match goal with
  | |- spends _ _ (match ?x with _ => _ end) => destruct x
  end; [apply (spends_weaken _ 0); [free_walk|lia]|].
  apply (spends_weaken _ (1 + 0)); [|lia]. apply spends_catch; [|intros ?; free_walk].
  spend_then_free. apply spends_external.
Qed.

Lemma getJob_row_scenes id d :
  DatabaseStorage.getJob id d ≫= (fun j => j.(row).(Job.scenes))
  = jobRow id d ≫= Job.scenes.
Proof.
  unfold DatabaseStorage.getJob, jobRow. now destruct (filter _ (jobs d)).
Qed.

(** A stage's first two commands: the status is written and the scenes are
    reloaded. *)
Lemma scenes_reloaded (status : JobStatus) (m : Machine) :
  exists m',
    (storage_updateJob w jobId [Job.Set_status status] ;; reloadScenes jobId) m
    = (Ok tt, m') /\
    m'.(trace) = m.(trace) ++ [EvUpdateJob jobId [Job.Set_status status]] /\
    default [] m'.(context).(scenes) = scenesAtHand jobId m.
Proof.
  rewrite bind_run.
  change (storage_updateJob w jobId [Job.Set_status status] m)
    with (Ok tt,
          {| db := DatabaseStorage.updatedJobs jobId [Job.Set_status status]
                     (w.(clock) m.(calls)) m.(db);
             calls := m.(calls);
             trace := m.(trace) ++ [EvUpdateJob jobId [Job.Set_status status]];
             context := m.(context) |}).
  cbv iota beta. unfold reloadScenes. rewrite bind_run.
  unfold storage_getJob at 1, readDb at 1. cbv iota beta. cbn [db].
  rewrite getJob_row_scenes, jobRow_updateJob by reflexivity.
  unfold scenesAtHand.
  destruct (jobRow jobId (db m)) as [j|]; cbn [fmap option_fmap option_map mbind option_bind].
  - change (Job.scenes (DatabaseStorage.applyJobUpdates [Job.Set_status status]
                          (clock w (calls m)) j)) with (Job.scenes j).
    destruct (Job.scenes j) as [ss|]; eexists; (split; [reflexivity|]); split; reflexivity.
  - eexists. split; [reflexivity|]. split; reflexivity.
Qed.

Lemma lacking_all lacks (l : list Scene.t) :
  lacking lacks (length l) 0 l = length (List.filter lacks l).
Proof. unfold lacking. now rewrite drop_0, firstn_all. Qed.

(** A stage that writes its status, reloads the scenes and then spends at
    most one call for each scene [lacks] holds of. *)
Lemma spends_stage paid lacks status (rest : JobContext -> Async unit) (m : Machine) :
  (forall ctx,
     spends paid (length (List.filter lacks (default [] ctx.(scenes)))) (rest ctx)) ->
  exists evs,
    ((storage_updateJob w jobId [Job.Set_status status] ;;
      reloadScenes jobId ;;
      ctx <- getContext ;; rest ctx) m).2.(trace) = m.(trace) ++ evs /\
    (spent paid evs <= length (List.filter lacks (scenesAtHand jobId m)))%nat.
Proof.
  intros Hrest. destruct (scenes_reloaded status m) as (m' & E & T & S).
  rewrite bind_run in E. rewrite bind_run.
  destruct (storage_updateJob w jobId [Job.Set_status status] m) as [[[]|e] m1];
    [|discriminate].
  rewrite bind_run, E. unfold getContext at 1. rewrite bind_run.
  destruct (Hrest m'.(context) m') as (evs & T2 & P). rewrite S in P.
  exists (EvUpdateJob jobId [Job.Set_status status] :: evs).
  rewrite T2, T, <- app_assoc. split; [reflexivity|].
  change (EvUpdateJob jobId [Job.Set_status status] :: evs)
    with ([EvUpdateJob jobId [Job.Set_status status]] ++ evs).
  rewrite spent_app. cbn. exact P.
Qed.

End SpendingOfStages.

(** X22.  The visual stage asks the image generator for at most one image per
    scene that has none, and for none when every scene has its image: a
    resumed job does not pay again for the images it already has. *)
Theorem images_generated_at_most_once (w : World) (rev : Revision) (jobId : string)
    (settings : JobSettings) (jobStartTime : Z) (m : Machine) :
  exists evs,
    (stage_assets_visual w rev jobId settings jobStartTime m).2.(trace)
    = m.(trace) ++ evs /\
    (spent is_generateImage evs
     <= length (List.filter lacksImage (scenesAtHand jobId m)))%nat.
Proof.
  unfold stage_assets_visual.
  apply (spends_stage w jobId is_generateImage lacksImage generating_assets
           (fun ctx =>
              match ctx.(scenes) with
              | Some ((_ :: _) as ss) =>
                  updatedScenes <-
                    for_loop (length ss) 0 (visual_iteration w rev jobId jobStartTime) ss ;;
                  setContextScenes updatedScenes ;;
                  storage_updateJob w jobId [Job.Set_scenes (Some updatedScenes)]
              | _ => ret tt
              end)).
  intros ctx. destruct (scenes ctx) as [[|s l]|];
    try (apply (spends_weaken _ 0); [apply spends_ret|lia]).
  cbn [default]. rewrite <- lacking_all. spend_then_free.
  apply spends_scene_loop.
  - intros i ss. apply visual_iteration_spends.
  - intros i ss. apply visual_iteration_keeps_rest.
Qed.

(** X23.  The audio stage asks the speech generator for at most one voice-over
    per scene that has no audio, and for none when every scene has its
    audio; measuring the durations afterwards asks for none. *)
Theorem speech_generated_at_most_once (w : World) (rev : Revision) (jobId : string)
    (settings : JobSettings) (jobStartTime : Z) (m : Machine) :
  exists evs,
    (stage_assets_audio w rev jobId settings jobStartTime m).2.(trace)
    = m.(trace) ++ evs /\
    (spent is_generateSpeech evs
     <= length (List.filter lacksAudio (scenesAtHand jobId m)))%nat.
Proof.
  unfold stage_assets_audio.
  apply (spends_stage w jobId is_generateSpeech lacksAudio generating_assets
           (fun ctx =>
              match ctx.(scenes) with
              | Some ((_ :: _) as ss) =>
                  if truthy_str ctx.(script)
                  then
                    let voice := str_or (settings.(audio) ≫= voiceModel) "nova" in
                    updatedScenes <-
                      for_loop (length ss) 0
                        (audio_iteration w rev jobId voice jobStartTime) ss ;;
                    updatedScenes <-
                      match rev with
                      | Rev1 => ret updatedScenes
                      | Rev2 =>
                          st <- for_loop (length updatedScenes) 0
                                  (reconcile_iteration w jobId)
                                  {| rc_updatedScenes := updatedScenes;
                                     rc_currentTime := 0%float;
                                     rc_consecutiveFailures := 0 |} ;;
                          ret st.(rc_updatedScenes)
                      end ;;
                    setContextScenes updatedScenes ;;
                    storage_updateJob w jobId [Job.Set_scenes (Some updatedScenes)]
                  else ret tt
              | _ => ret tt
              end)).
  intros ctx. destruct (scenes ctx) as [[|s l]|];
    try (apply (spends_weaken _ 0); [apply spends_ret|lia]).
  destruct (truthy_str _); [|apply (spends_weaken _ 0); [apply spends_ret|lia]].
  cbn [default]. rewrite <- lacking_all. cbv zeta.
  pose proof (spends_reconcile_iteration w jobId) as Hrec.
  spend_then_free.
  apply spends_scene_loop.
  - intros i ss. apply audio_iteration_spends.
  - intros i ss. apply audio_iteration_keeps_rest.
Qed.
